(** * Vector store, similarity engine, hybrid ranker and reindex of the notes app

    A shallow embedding of [backend/services/vectorStore.js] (class
    [VectorStore]), of [backend/services/embeddingService.js], of the search
    controller ([semanticSearch], [hybridSearch], [reindexAll]), of
    [getRelatedNotes] and of the embedding bookkeeping of the notes
    controller ([generateNoteEmbedding], [deleteNote]), with the properties
    the specification states about them and further properties of the code.

    Conventions of the embedding.
    - A JavaScript [Map] is an association list in insertion order
      ([JsMap]): iteration order is observable in [search].
    - A plain object used as a bag of metadata is a [gmap string jsval].
    - JavaScript numbers: the similarity functions and [search], where
      [Math.sqrt] occurs, are taken over the reals, in exact arithmetic.  The
      hybrid ranker, which only uses the field operations and a test for
      [> 0], is embedded over any arithmetic with these ([JsNumber]); the
      rationals and the binary64 doubles of the language are instances, and
      the latter computes what the code computes.  The store itself is
      polymorphic in the number type.
    - The result of a [parseInt] that a handler passes on unchecked is an
      integer, or NaN ([None]); [slice(0, end)] is given for all of them
      ([sliceTo]).
    - [async] methods are run to completion one after the other; a thrown
      error (a rejected promise) is the [Throw] outcome of a state monad, and
      the state it leaves behind is the state at the point of the throw. *)

From Stdlib Require Import Ascii String List ZArith QArith Reals Lqa Lra Lia Permutation Sorted.
From Stdlib Require PrimFloat Uint63 SpecFloat FloatOps FloatAxioms.
From stdpp Require Import gmap strings list fin_maps pretty.

Set Warnings "-abstract-large-number".

Local Open Scope string_scope.
Local Open Scope list_scope.

(** ** ES [Map]: an insertion-ordered association list with unique keys *)

Module JsMap.
Section Defs.
Context {V : Type}.

Definition t := list (string * V).

Definition keys (m : t) : list string := map fst m.
Definition values (m : t) : list V := map snd m.

  (** [Map.prototype.get] *)
Fixpoint get (k : string) (m : t) : option V :=
    match m with
    | [] => None
    | (k', v) :: m' => if String.eqb k k' then Some v else get k m'
    end.

  (** [Map.prototype.has] *)
Definition has (k : string) (m : t) : bool :=
    match get k m with Some _ => true | None => false end.

  (** [Map.prototype.set]: an existing key keeps its position, a new key
      goes last. *)
Fixpoint set (k : string) (v : V) (m : t) : t :=
    match m with
    | [] => [(k, v)]
    | (k', v') :: m' =>
        if String.eqb k k' then (k, v) :: m' else (k', v') :: set k v m'
    end.

  (** [Map.prototype.delete]: the map without the key. *)
Fixpoint remove (k : string) (m : t) : t :=
    match m with
    | [] => []
    | (k', v') :: m' =>
        if String.eqb k k' then m' else (k', v') :: remove k m'
    end.

  (** [Map.prototype.delete] returns whether the key was there. *)
Definition delete (k : string) (m : t) : bool * t := (has k m, remove k m).

  (** [new Map(entries)] *)
Definition ofEntries (l : list (string * V)) : t :=
    fold_left (fun m kv => set (fst kv) (snd kv) m) l [].

Definition wf (m : t) : Prop := NoDup (keys m).
End Defs.
Arguments t : clear implicits.
End JsMap.

(** ** Property order of ordinary objects

    [Object.fromEntries], [JSON.stringify], [JSON.parse] and
    [Object.entries] enumerate own properties with the array indices first,
    in ascending numeric order, and then the other string keys in creation
    order. *)

Module PropertyOrder.

Definition isDigit (c : ascii) : bool :=
    let n := Ascii.nat_of_ascii c in (48 <=? n)%nat && (n <=? 57)%nat.

Fixpoint digitsValue (acc : N) (s : string) : option N :=
    match s with
    | EmptyString => Some acc
    | String c s' =>
        if isDigit c
        then digitsValue (acc * 10 + N.of_nat (Ascii.nat_of_ascii c - 48)) s'
        else None
    end.

  (** The canonical numeric strings below 2^32 - 1. *)
Definition arrayIndex (s : string) : option N :=
    match s with
    | EmptyString => None
    | String c s' =>
        if (Ascii.eqb c "0"%char && negb (String.eqb s' EmptyString))%bool then None
        else match digitsValue 0 s with
             | Some n => if (n <? 4294967295)%N then Some n else None
             | None => None
             end
    end.

Definition isArrayIndex (s : string) : bool :=
    match arrayIndex s with Some _ => true | None => false end.

Definition indexOf (s : string) : N :=
    match arrayIndex s with Some n => n | None => 0%N end.

Section Order.
Context {V : Type}.

Fixpoint insertIndexed (kv : string * V) (l : list (string * V)) :=
      match l with
      | [] => [kv]
      | kv' :: l' =>
          if (indexOf (fst kv) <=? indexOf (fst kv'))%N
          then kv :: kv' :: l'
          else kv' :: insertIndexed kv l'
      end.

Definition sortIndexed (l : list (string * V)) : list (string * V) :=
      fold_right insertIndexed [] l.

    (** The entries of an object whose properties were created in the
        order of [l]. *)
Definition ownEntries (l : list (string * V)) : list (string * V) :=
      sortIndexed (List.filter (fun kv => isArrayIndex (fst kv)) l)
      ++ List.filter (fun kv => negb (isArrayIndex (fst kv))) l.
End Order.

(** The order [sortIndexed] sorts into. *)
Definition byIndex {V} (a b : string * V) : Prop := (indexOf (fst a) <= indexOf (fst b))%N.

End PropertyOrder.

(** ** Values, errors and the effect monad *)

(** Metadata values: the scalars JSON can carry. *)
Inductive jsval : Type :=
| JNull
| JBool (b : bool)
| JNum (z : Z)
| JStr (s : string).

#[global] Instance jsval_eq_dec : EqDecision jsval.
Proof. solve_decision. Defined.

(** JavaScript truthiness, as used by [&&], [||] and [!]. *)
Definition truthy (v : jsval) : bool :=
  match v with
  | JNull => false
  | JBool b => b
  | JNum z => negb (z =? 0)%Z
  | JStr s => negb (String.eqb s EmptyString)
  end.

(** A metadata bag: a plain object from property names to values. *)
Abbreviation Meta := (gmap string jsval).

Inductive Error : Type :=
| PlainError (message : string)   (* [new Error(message)] *)
| FsError (code : string)         (* a rejected [fs] call, with its [code] *)
| SyntaxError                     (* [JSON.parse] on malformed text *)
| TypeError.                      (* a property read on [undefined] *)

(** [error.code] *)
Definition errorCode (e : Error) : option string :=
  match e with FsError c => Some c | _ => None end.

(** The store rejects structurally invalid arguments with a plain
    [Error]; these are the validation errors of the specification. *)
Definition isValidationError (e : Error) : bool :=
  match e with PlainError _ => true | _ => false end.

Inductive Outcome (A : Type) : Type :=
| Return (a : A)
| Throw (e : Error).
Arguments Return {A} a.
Arguments Throw {A} e.

(** State and exceptions: a throw keeps the state reached so far. *)
Definition M (S A : Type) : Type := S -> Outcome A * S.

Definition ret {S A} (a : A) : M S A := fun s => (Return a, s).
Definition throw {S A} (e : Error) : M S A := fun s => (Throw e, s).
Definition bind {S A B} (m : M S A) (f : A -> M S B) : M S B :=
  fun s => match m s with
           | (Return a, s') => f a s'
           | (Throw e, s') => (Throw e, s')
           end.
Definition tryCatch {S A} (m : M S A) (h : Error -> M S A) : M S A :=
  fun s => match m s with
           | (Return a, s') => (Return a, s')
           | (Throw e, s') => h e s'
           end.
Definition gets {S A} (f : S -> A) : M S A := fun s => (Return (f s), s).
Definition modify {S} (f : S -> S) : M S unit := fun s => (Return tt, f s).

Notation "'let*' x ':=' m 'in' k" := (bind m (fun x => k))
  (at level 10, x name, m at level 100, k at level 200).

(** [Date.prototype.toISOString] of the instant [t]; only its being a
    function of the instant matters. *)
Definition toISOString (t : nat) : string := pretty t.

(** ** The vector store *)

Section Store.
Context {num : Type}.
(** The number [0] used for padding. *)
Variable zero : num.

Record VectorStore : Type := mkStore {
  vectors : JsMap.t (list num);     (* Map of id -> vector *)
  metadata : JsMap.t Meta;          (* Map of id -> metadata *)
  dimension : nat;
  topK : nat;
  idToIndex : JsMap.t nat;
  indexToId : list string
}.

(** The parsed snapshot document; a field the text lacks is [None]. *)
Record SnapshotDoc : Type := mkDoc {
  doc_dimension : option nat;
  doc_vectors : option (list (string * list num));
  doc_metadata : option (list (string * Meta));
  doc_savedAt : option string
}.

Inductive FileContent : Type :=
| Json (d : SnapshotDoc)      (* text that parses to this document *)
| Malformed.                  (* text [JSON.parse] rejects *)

Inductive File : Type :=
| Missing                     (* no such file: [readFile] fails with ENOENT *)
| Faulty (code : string)      (* [readFile] fails with this other code *)
| Text (c : FileContent).

Record Disk : Type := mkDisk {
  file : File;                    (* storagePath/vectors.json *)
  writeFault : option string      (* [mkdir]/[writeFile] fail with this code *)
}.

Record World : Type := mkWorld {
  store : VectorStore;
  disk : Disk;
  clock : nat
}.

Definition setStore (f : VectorStore -> VectorStore) : M World unit :=
  modify (fun w => mkWorld (f (store w)) (disk w) (clock w)).

Definition setFile (f : File) : M World unit :=
  modify (fun w => mkWorld (store w) (mkDisk f (writeFault (disk w))) (clock w)).

(** [parseInt(process.env.X) || fallback], for the lengths and counts the
    two settings stand for. *)
Definition envOr (env : option nat) (fallback : nat) : nat :=
  match env with
  | Some (S n) => S n
  | _ => fallback
  end.

(** [constructor()] *)
Definition newVectorStore (envDimension envTopK : option nat) : VectorStore :=
  {| vectors := []; metadata := [];
     dimension := envOr envDimension 1024;
     topK := envOr envTopK 5;
     idToIndex := []; indexToId := [] |}.

(** [new Date().toISOString()] *)
Definition now : M World string := gets (fun w => toISOString (clock w)).

(** [fs.mkdir(storagePath, {recursive: true})] *)
Definition mkdir : M World unit :=
  let* fault := gets (fun w => writeFault (disk w)) in
  match fault with
  | Some code => throw (FsError code)
  | None => ret tt
  end.

(** [fs.writeFile(filePath, text)] *)
Definition writeFile (c : FileContent) : M World unit :=
  let* fault := gets (fun w => writeFault (disk w)) in
  match fault with
  | Some code => throw (FsError code)
  | None => setFile (Text c)
  end.

(** [fs.readFile(filePath)] *)
Definition readFile : M World FileContent :=
  let* f := gets (fun w => file (disk w)) in
  match f with
  | Missing => throw (FsError "ENOENT")
  | Faulty code => throw (FsError code)
  | Text c => ret c
  end.

(** [JSON.parse] *)
Definition JSON_parse (c : FileContent) : M World SnapshotDoc :=
  match c with
  | Json d => ret d
  | Malformed => throw SyntaxError
  end.

(** [Object.fromEntries(map)]: the properties in creation order. *)
Definition Object_fromEntries {V} (m : JsMap.t V) : list (string * V) :=
  JsMap.ofEntries m.

(** [Object.entries(obj)] *)
Definition Object_entries {V} (o : list (string * V)) : list (string * V) :=
  PropertyOrder.ownEntries o.

(** The members of an object as [JSON.stringify] writes them and as
    [JSON.parse] recreates them. *)
Definition jsonMembers {V} (o : list (string * V)) : list (string * V) :=
  PropertyOrder.ownEntries o.
Definition parsedObject {V} (members : list (string * V)) : list (string * V) :=
  JsMap.ofEntries members.

(** The dimension adjustment of [addVector] and [updateVector]. *)
Definition adjust (d : nat) (vector : list num) : list num :=
  if negb (length vector =? d)%nat then
    if (length vector <? d)%nat
    then vector ++ repeat zero (d - length vector)   (* pad with zeros *)
    else firstn d vector                             (* truncate *)
  else vector.

(** The document [save()] serialises. *)
Definition snapshotData (st : VectorStore) (savedAt : string) : SnapshotDoc :=
  {| doc_dimension := Some (dimension st);
     doc_vectors := Some (jsonMembers (Object_fromEntries (vectors st)));
     doc_metadata := Some (jsonMembers (Object_fromEntries (metadata st)));
     doc_savedAt := Some savedAt |}.

(** [save()] *)
Definition save : M World unit :=
  tryCatch
    (let* _ := mkdir in
     let* st := gets store in
     let* savedAt := now in
     let data := snapshotData st savedAt in
     writeFile (Json data))
    (fun error => throw error).

(** [addVector(id, vector, meta)]; a missing argument is [None]. *)
Definition addVector (id : option string) (vector : option (list num))
    (meta : Meta) : M World unit :=
  match id, vector with
  | Some id, Some vector =>
      if String.eqb id EmptyString
      then throw (PlainError "ID and vector are required")
      else
        let* d := gets (fun w => dimension (store w)) in
        let processedVector := adjust d vector in
        let* addedAt := now in
        let* _ := setStore (fun st =>
          {| vectors := JsMap.set id processedVector (vectors st);
             metadata := JsMap.set id (<["addedAt" := JStr addedAt]> meta) (metadata st);
             dimension := dimension st; topK := topK st;
             idToIndex :=
               if JsMap.has id (idToIndex st) then idToIndex st
               else JsMap.set id (length (indexToId st)) (idToIndex st);
             indexToId :=
               if JsMap.has id (idToIndex st) then indexToId st
               else indexToId st ++ [id] |}) in
        save
  | _, _ => throw (PlainError "ID and vector are required")
  end.

(** [removeVector(id)] *)
Definition removeVector (id : string) : M World bool :=
  let* deleted := gets (fun w => fst (JsMap.delete id (vectors (store w)))) in
  let* _ := setStore (fun st =>
    {| vectors := snd (JsMap.delete id (vectors st));
       metadata := snd (JsMap.delete id (metadata st));
       dimension := dimension st; topK := topK st;
       idToIndex := idToIndex st; indexToId := indexToId st |}) in
  let* _ := (if deleted : bool then save else ret tt) in
  ret deleted.

(** [updateVector(id, vector, meta)] *)
Definition updateVector (id : option string) (vector : option (list num))
    (meta : Meta) : M World unit :=
  let* present := gets (fun w =>
    match id with
    | Some id => JsMap.has id (vectors (store w))
    | None => false
    end) in
  if negb present then addVector id vector meta
  else
    match id, vector with
    | Some id, Some vector =>
        let* d := gets (fun w => dimension (store w)) in
        let processedVector := adjust d vector in
        let* updatedAt := now in
        let* _ := setStore (fun st =>
          let existingMeta := default ∅ (JsMap.get id (metadata st)) in
          {| vectors := JsMap.set id processedVector (vectors st);
             metadata :=
               JsMap.set id
                 (<["updatedAt" := JStr updatedAt]> (meta ∪ existingMeta))
                 (metadata st);
             dimension := dimension st; topK := topK st;
             idToIndex := idToIndex st; indexToId := indexToId st |}) in
        save
    | _, _ => throw TypeError     (* [vector.length] on a missing vector *)
    end.

(** [getVector(id)]: the vector, or [null]. *)
Definition getVector (st : VectorStore) (id : string) : option (list num) :=
  JsMap.get id (vectors st).

(** [getCount()] *)
Definition getCount (st : VectorStore) : nat := length (vectors st).

(** The index mappings recomputed from the keys of the vector map. *)
Definition indexMappings (ids : list string) : JsMap.t nat * list string :=
  fold_left
    (fun acc id => (JsMap.set id (length (snd acc)) (fst acc), snd acc ++ [id]))
    ids ([], []).

(** [clear()] *)
Definition clear : M World unit :=
  let* _ := setStore (fun st =>
    {| vectors := []; metadata := [];
       dimension := dimension st; topK := topK st;
       idToIndex := []; indexToId := [] |}) in
  save.

(** [load()] *)
Definition load : M World unit :=
  tryCatch
    (let* data := readFile in
     let* parsed := JSON_parse data in
     setStore (fun st =>
       let vs := JsMap.ofEntries
                   (Object_entries (parsedObject (default [] (doc_vectors parsed)))) in
       let ms := JsMap.ofEntries
                   (Object_entries (parsedObject (default [] (doc_metadata parsed)))) in
       {| vectors := vs; metadata := ms;
          dimension := dimension st; topK := topK st;
          idToIndex := fst (indexMappings (JsMap.keys vs));
          indexToId := snd (indexMappings (JsMap.keys vs)) |}))
    (fun error =>
       match errorCode error with
       | Some code => if String.eqb code "ENOENT" then ret tt else throw error
       | None => throw error
       end).

(** [initialize()] *)
Definition initialize : M World unit :=
  tryCatch
    (let* _ := mkdir in load)
    (fun error =>
       setStore (fun st =>
         {| vectors := []; metadata := [];
            dimension := dimension st; topK := topK st;
            idToIndex := idToIndex st; indexToId := indexToId st |})).

(** [rebuildIndex()] *)
Definition rebuildIndex : M World unit :=
  let* _ := setStore (fun st =>
    {| vectors := vectors st; metadata := metadata st;
       dimension := dimension st; topK := topK st;
       idToIndex := fst (indexMappings (JsMap.keys (vectors st)));
       indexToId := snd (indexMappings (JsMap.keys (vectors st))) |}) in
  save.

(** *** Histories of the store

    A reachable state is the state after a sequence of calls; a call that
    throws leaves the state it reached.  [Restart] is a new process on the
    same disk (a new store, then [initialize()]); [Tick] and
    [SetWriteFault] are the environment. *)

Inductive Command : Type :=
| AddVector (id : option string) (vector : option (list num)) (meta : Meta)
| UpdateVector (id : option string) (vector : option (list num)) (meta : Meta)
| RemoveVector (id : string)
| Clear
| Save
| Load
| RebuildIndex
| Restart (envDimension envTopK : option nat)
| Tick (n : nat)
| SetWriteFault (fault : option string).

Definition exec (c : Command) (w : World) : World :=
  match c with
  | AddVector id vector meta => snd (addVector id vector meta w)
  | UpdateVector id vector meta => snd (updateVector id vector meta w)
  | RemoveVector id => snd (removeVector id w)
  | Clear => snd (clear w)
  | Save => snd (save w)
  | Load => snd (load w)
  | RebuildIndex => snd (rebuildIndex w)
  | Restart envDimension envTopK =>
      snd (initialize (mkWorld (newVectorStore envDimension envTopK) (disk w) (clock w)))
  | Tick n => mkWorld (store w) (disk w) (clock w + n)
  | SetWriteFault fault => mkWorld (store w) (mkDisk (file (disk w)) fault) (clock w)
  end.

Definition run (cs : list Command) (w : World) : World :=
  fold_left (fun w c => exec c w) cs w.

(** A new process on an empty disk. *)
Definition freshWorld (envDimension envTopK : option nat) : World :=
  mkWorld (newVectorStore envDimension envTopK) (mkDisk Missing None) 0.

(** The calls that edit records. *)
Definition isEdit (c : Command) : bool :=
  match c with
  | AddVector _ _ _ | UpdateVector _ _ _ | RemoveVector _ => true
  | _ => false
  end.

(** *** Vocabulary of the properties *)

(** The timestamp read by a call made in [w]. *)
Definition stamp (w : World) : jsval := JStr (toISOString (clock w)).

(** The world after a [save()] that succeeds. *)
Definition saved (w : World) : World :=
  mkWorld (store w)
    (mkDisk (Text (Json (snapshotData (store w) (toISOString (clock w))))) None)
    (clock w).

(** The vector map has distinct keys, and the metadata map has the same
    keys in the same order. *)
Definition storeInv (st : VectorStore) : Prop :=
  JsMap.wf (vectors st) /\ JsMap.keys (vectors st) = JsMap.keys (metadata st).

(** A snapshot as [save()] writes it. *)
Definition docInv (d : SnapshotDoc) : Prop :=
  exists vs ms,
    doc_vectors d = Some vs /\ doc_metadata d = Some ms /\
    JsMap.wf vs /\ JsMap.keys vs = JsMap.keys ms.

Definition fileInv (f : File) : Prop :=
  match f with
  | Text (Json d) => docInv d
  | _ => True
  end.

Definition worldInv (w : World) : Prop := storeInv (store w) /\ fileInv (file (disk w)).

(** The maps [load()] builds from the members of a snapshot. *)
Definition loadedMap {V} (members : list (string * V)) : JsMap.t V :=
  JsMap.ofEntries (Object_entries (parsedObject members)).

(** The index mappings agree with each other, and every stored id has
    its index. *)
Definition indexInv (st : VectorStore) : Prop :=
  (forall id n, JsMap.get id (idToIndex st) = Some n -> indexToId st !! n = Some id)
  /\ (forall id, id ∈ JsMap.keys (vectors st) -> JsMap.has id (idToIndex st) = true).

(** Every vector of the store, and of the snapshot on disk, has length
    [d], the dimension of the store. *)
Definition dimInv (d : nat) (w : World) : Prop :=
  dimension (store w) = d
  /\ (forall i v, (i, v) ∈ vectors (store w) -> length v = d)
  /\ match file (disk w) with
     | Text (Json doc) =>
         forall vs i v, doc_vectors doc = Some vs -> (i, v) ∈ vs -> length v = d
     | _ => True
     end.

(** [save()] and then [load()], in the same process. *)
Definition cycle (w : World) : World := exec Load (exec Save w).

(** A call that leaves the configured dimension [d] alone. *)
Definition keepsDimension (d : nat) (c : Command) : Prop :=
  match c with
  | Restart envDimension _ => envOr envDimension 1024 = d
  | _ => True
  end.

End Store.

(** ** [Array.prototype.sort] with a comparator

    The sort of the language is stable; with a comparator that orders the
    elements consistently every stable sort returns the same array.  It is
    given here as a stable insertion sort: [after x y] says that the
    comparator is positive on [(x, y)], that is, [y] must come before [x]. *)

Section ArraySort.
Context {A : Type}.
Variable after : A -> A -> bool.

Fixpoint insertStable (x : A) (l : list A) : list A :=
  match l with
  | [] => [x]
  | y :: l' => if after x y then y :: insertStable x l' else x :: y :: l'
  end.

Definition sortStable (l : list A) : list A := fold_right insertStable [] l.

End ArraySort.

(** [a] occurs in the list before an occurrence of [b]. *)
Inductive precedes {A : Type} (a b : A) : list A -> Prop :=
| precedes_here l : b ∈ l -> precedes a b (a :: l)
| precedes_later x l : precedes a b l -> precedes a b (x :: l).

(** [Array.prototype.slice(0, n)] for a count [n]. *)
Definition slice0 {A} (n : nat) (l : list A) : list A := firstn n l.

(** [Array.prototype.slice(0, end)] for the number [end] that [parseInt]
    gives: NaN ([None]) is taken as 0, and a negative [end] counts from the
    end of the array. *)
Definition sliceTo {A} (e : option Z) (l : list A) : list A :=
  match e with
  | None => []
  | Some z =>
      if (0 <=? z)%Z then firstn (Z.to_nat z) l
      else firstn (length l - Z.to_nat (- z)) l
  end.

(** ** The numbers of the hybrid ranker

    The ranker only adds, subtracts, multiplies and divides numbers and asks
    whether a number is positive, so it is embedded over any arithmetic
    with these operations.  [exact] is the arithmetic of the rationals;
    [binary64] is that of the doubles of the language, NaN and the
    infinities included. *)

Module JsNumber.

Class Arith (num : Type) : Type := mkArith {
  ofNat : nat -> num;          (* an index, a length, the literals 0 and 1 *)
  add : num -> num -> num;
  sub : num -> num -> num;
  mul : num -> num -> num;
  div : num -> num -> num;
  isPositive : num -> bool     (* [x > 0] *)
}.

#[global] Instance exact : Arith Q := {|
  ofNat n := inject_Z (Z.of_nat n);
  add := Qplus;
  sub := Qminus;
  mul := Qmult;
  div := Qdiv;
  isPositive x := if Qlt_le_dec 0 x then true else false
|}.

#[global] Instance binary64 : Arith PrimFloat.float := {|
  ofNat n := PrimFloat.of_uint63 (Uint63.of_Z (Z.of_nat n));
  add := PrimFloat.add;
  sub := PrimFloat.sub;
  mul := PrimFloat.mul;
  div := PrimFloat.div;
  isPositive x := PrimFloat.ltb (PrimFloat.of_uint63 (Uint63.of_Z 0)) x
|}.

(** The comparator [(a, b) => b - a] orders the numbers of [l]
    consistently: it never asks to put each of two numbers before the
    other, and where it does not ask to put [y] before [x] nor [z] before
    [y] it does not ask to put [z] before [x].  This holds of any rationals
    and of any doubles other than NaN. *)
Definition consistentOn {num} `{Arith num} (l : list num) : Prop :=
  (forall x y, x ∈ l -> y ∈ l ->
     isPositive (sub y x) = true -> isPositive (sub x y) = false)
  /\ (forall x y z, x ∈ l -> y ∈ l -> z ∈ l ->
        isPositive (sub y x) = false -> isPositive (sub z y) = false ->
        isPositive (sub z x) = false).

End JsNumber.

(** ** The order of the doubles

    A double other than NaN has a value: in units of the smallest positive
    double, a finite double with mantissa [m] and exponent [e] is the
    integer [m * 2 ^ (e - emin)], negated when the sign is set; the two
    zeroes are 0 and the infinities lie beyond every finite double. *)

Module Binary64.

Definition emin : Z := SpecFloat.emin FloatOps.prec FloatOps.emax.

Definition bound : Z := (2 ^ (FloatOps.emax - emin))%Z.

Definition scaled (x : SpecFloat.spec_float) : Z :=
  match x with
  | SpecFloat.S754_zero _ => 0%Z
  | SpecFloat.S754_infinity s => SpecFloat.cond_Zopp s bound
  | SpecFloat.S754_nan => 0%Z
  | SpecFloat.S754_finite s m e =>
      SpecFloat.cond_Zopp s (Zpos m * 2 ^ (e - emin))%Z
  end.

Definition value (x : PrimFloat.float) : Z := scaled (FloatOps.Prim2SF x).

(** The positive numbers: [0 < x]. *)
Inductive positiveSF : SpecFloat.spec_float -> Prop :=
| positive_finite m e : positiveSF (SpecFloat.S754_finite false m e)
| positive_infinity : positiveSF (SpecFloat.S754_infinity false).

End Binary64.

(** ** Similarity engine (over the reals) *)

Module Similarity.
Local Open Scope R_scope.

Definition Vec := list R.

(** The accumulation loop of [normalizeVector]. *)
Definition sumSquares (vector : Vec) : R :=
  fold_left (fun magnitude x => magnitude + x * x) vector 0.

Definition magnitude (vector : Vec) : R := sqrt (sumSquares vector).

(** [normalizeVector(vector)] *)
Definition normalizeVector (vector : Vec) : Vec :=
  if Req_dec_T (magnitude vector) 0 then vector
  else map (fun v => v / magnitude vector) vector.

(** The remainder loop of [dotProduct]. *)
Fixpoint dotTail (sum : R) (vecA vecB : Vec) : R :=
  match vecA, vecB with
  | a :: vecA', b :: vecB' => dotTail (sum + a * b) vecA' vecB'
  | _, _ => sum
  end.

(** The loop of [dotProduct] unrolled four times, then the remainder. *)
Fixpoint dotUnrolled (sum : R) (vecA vecB : Vec) : R :=
  match vecA, vecB with
  | a0 :: a1 :: a2 :: a3 :: vecA', b0 :: b1 :: b2 :: b3 :: vecB' =>
      dotUnrolled (sum + a0 * b0 + a1 * b1 + a2 * b2 + a3 * b3) vecA' vecB'
  | _, _ => dotTail sum vecA vecB
  end.

(** [dotProduct(vecA, vecB)] *)
Definition dotProduct (vecA vecB : Vec) : R := dotUnrolled 0 vecA vecB.

(** The loop of [cosineSimilarity] over the shared prefix. *)
Fixpoint cosineLoop (dot normA normB : R) (vecA vecB : Vec) : R * R * R :=
  match vecA, vecB with
  | a :: vecA', b :: vecB' =>
      cosineLoop (dot + a * b) (normA + a * a) (normB + b * b) vecA' vecB'
  | _, _ => (dot, normA, normB)
  end.

(** [cosineSimilarity(vecA, vecB)] *)
Definition cosineSimilarity (vecA vecB : Vec) : R :=
  let '(dot, normA, normB) := cosineLoop 0 0 0 vecA vecB in
  if Req_dec_T (sqrt normA) 0 then 0
  else if Req_dec_T (sqrt normB) 0 then 0
  else dot / (sqrt normA * sqrt normB).

(** [euclideanDistance(vecA, vecB)] *)
Fixpoint distanceLoop (sum : R) (vecA vecB : Vec) : R :=
  match vecA, vecB with
  | a :: vecA', b :: vecB' => distanceLoop (sum + (a - b) * (a - b)) vecA' vecB'
  | _, _ => sum
  end.
Definition euclideanDistance (vecA vecB : Vec) : R := sqrt (distanceLoop 0 vecA vecB).

End Similarity.

(** ** [search] *)

Module Search.
Import Similarity.

Record Filter : Type := mkFilter {
  excludeIds : option (list string);
  category : option jsval
}.

(** [filter = {}] *)
Definition noFilter : Filter := mkFilter None None.

Record Result : Type := mkResult {
  id : string;
  score : R;
  meta : Meta
}.

(** [filter.excludeIds && filter.excludeIds.includes(id)] *)
Definition excluded (filter : Filter) (i : string) : bool :=
  match excludeIds filter with
  | Some ids => existsb (String.eqb i) ids
  | None => false
  end.

(** [filter.category && meta?.category !== filter.category] *)
Definition categoryMismatch (filter : Filter) (m : option Meta) : bool :=
  match category filter with
  | Some c => truthy c && negb (bool_decide ((m ≫= (.!! "category")) = Some c))
  | None => false
  end.

(** The body of the loop over [this.vectors.entries()]. *)
Fixpoint scan (st : @VectorStore R) (filter : Filter) (normalizedQuery : Vec)
    (entries : list (string * Vec)) : list Result :=
  match entries with
  | [] => []
  | (i, vector) :: rest =>
      if excluded filter i then scan st filter normalizedQuery rest
      else
        let m := JsMap.get i (metadata st) in
        if categoryMismatch filter m then scan st filter normalizedQuery rest
        else
          mkResult i (dotProduct normalizedQuery (normalizeVector vector))
                   (default ∅ m)
          :: scan st filter normalizedQuery rest
  end.

(** The comparator [(a, b) => b.score - a.score]. *)
Definition byScoreDesc (a b : Result) : R := (score b - score a)%R.
Definition positive (x : R) : bool := if Rlt_dec 0 x then true else false.

(** [topK || this.topK] *)
Definition effectiveK (st : @VectorStore R) (k : option nat) : nat :=
  match k with
  | Some (S n) => S n
  | _ => topK st
  end.

(** [search(queryVector, topK, filter)]; a missing argument is [None]. *)
Definition search (st : @VectorStore R) (queryVector : option Vec)
    (k : option nat) (filter : Filter) : Outcome (list Result) :=
  match queryVector with
  | None | Some [] => Throw (PlainError "Query vector is required")
  | Some queryVector =>
      let normalizedQuery := normalizeVector queryVector in
      let results := scan st filter normalizedQuery (vectors st) in
      let sorted := sortStable (fun a b => positive (byScoreDesc a b)) results in
      Return (slice0 (effectiveK st k) sorted)
  end.

(** [topK || this.topK] for the number a caller passes, the result of a
    [parseInt] as a rule: a missing argument, [null] and NaN are [None]. *)
Definition effectiveKInt (st : @VectorStore R) (k : option Z) : Z :=
  match k with
  | Some z => if (z =? 0)%Z then Z.of_nat (topK st) else z
  | None => Z.of_nat (topK st)
  end.

(** [search(queryVector, topK, filter)] for any such number; for a count
    it is [search]. *)
Definition searchInt (st : @VectorStore R) (queryVector : option Vec)
    (k : option Z) (filter : Filter) : Outcome (list Result) :=
  match queryVector with
  | None | Some [] => Throw (PlainError "Query vector is required")
  | Some queryVector =>
      let normalizedQuery := normalizeVector queryVector in
      let results := scan st filter normalizedQuery (vectors st) in
      let sorted := sortStable (fun a b => positive (byScoreDesc a b)) results in
      Return (sliceTo (Some (effectiveKInt st k)) sorted)
  end.

(** [batchSearch(queryVectors, topK)]: [Promise.all] rejects with the
    first failure. *)
Fixpoint batchSearch (st : @VectorStore R) (queryVectors : list (option Vec))
    (k : option nat) : Outcome (list (list Result)) :=
  match queryVectors with
  | [] => Return []
  | qv :: rest =>
      match search st qv k noFilter with
      | Throw e => Throw e
      | Return r =>
          match batchSearch st rest k with
          | Throw e => Throw e
          | Return rs => Return (r :: rs)
          end
      end
  end.

(** The order the comparator [(a, b) => b.score - a.score] sorts into. *)
Definition descending (a b : Result) : Prop := (score b <= score a)%R.

End Search.

(** ** Hybrid ranking: [hybridSearch] *)

Module Hybrid.
Import JsNumber.

(** [list.forEach((x, index) => ...)] acting on a state. *)
Fixpoint forEachIndexed {X St : Type} (f : X -> nat -> St -> St)
    (index : nat) (l : list X) (s : St) : St :=
  match l with
  | [] => s
  | x :: l' => forEachIndexed f (S index) l' (f x index s)
  end.

(** The position of an id in a ranked list, counted from [start]. *)
Fixpoint positionFrom (start : nat) (i : string) (l : list string) : option nat :=
  match l with
  | [] => None
  | x :: l' => if String.eqb i x then Some start else positionFrom (S start) i l'
  end.

Definition position (i : string) (l : list string) : option nat := positionFrom 0 i l.

(** The ids that get an entry, in the order the entries are created: the
    semantic ids, then the keyword ids that are not semantic ids. *)
Definition candidates (semanticIds keywordIds : list string) : list string :=
  semanticIds
  ++ List.filter (fun i => negb (existsb (String.eqb i) semanticIds)) keywordIds.

Section Ranker.
Context {num : Type} {arith : Arith num}.

(** An entry of [combinedScores]. *)
Record Combined : Type := mkCombined {
  id : string;
  semanticScore : num;
  keywordScore : num
}.

(** An entry of [scoredResults]. *)
Record Scored : Type := mkScored {
  item : Combined;
  totalScore : num
}.

(** [1 - (index / list.length)] *)
Definition normalizedScore (index len : nat) : num :=
  sub (ofNat 1) (div (ofNat index) (ofNat len)).

(** The callback over [semanticResults]. *)
Definition addSemantic (weight : num) (len : nat) (i : string) (index : nat)
    (combinedScores : JsMap.t Combined) : JsMap.t Combined :=
  JsMap.set i (mkCombined i (mul (normalizedScore index len) weight) (ofNat 0))
    combinedScores.

(** The callback over [keywordResults]. *)
Definition addKeyword (weight : num) (len : nat) (i : string) (index : nat)
    (combinedScores : JsMap.t Combined) : JsMap.t Combined :=
  match JsMap.get i combinedScores with
  | Some c =>
      JsMap.set i
        (mkCombined (id c) (semanticScore c)
                    (mul (normalizedScore index len) (sub (ofNat 1) weight)))
        combinedScores
  | None =>
      JsMap.set i
        (mkCombined i (ofNat 0)
                    (mul (normalizedScore index len) (sub (ofNat 1) weight)))
        combinedScores
  end.

Definition combinedScores (weight : num) (semanticIds keywordIds : list string)
    : JsMap.t Combined :=
  forEachIndexed (addKeyword weight (length keywordIds)) 0 keywordIds
    (forEachIndexed (addSemantic weight (length semanticIds)) 0 semanticIds []).

(** The comparator [(a, b) => b.totalScore - a.totalScore]. *)
Definition byTotalDesc (a b : Scored) : num := sub (totalScore b) (totalScore a).

(** The entries with their totals, before the sort. *)
Definition scoredAll (weight : num) (semanticIds keywordIds : list string)
    : list Scored :=
  map (fun it => mkScored it (add (semanticScore it) (keywordScore it)))
      (JsMap.values (combinedScores weight semanticIds keywordIds)).

(** [scoredResults], for the number [parsedLimit] that [parseInt] gave. *)
Definition scoredResults (weight : num) (parsedLimit : option Z)
    (semanticIds keywordIds : list string) : list Scored :=
  sliceTo parsedLimit
    (sortStable (fun a b => isPositive (byTotalDesc a b))
       (scoredAll weight semanticIds keywordIds)).

(** [notesWithScores]: the scored results whose note [Note.find] returned. *)
Definition notesWithScores (found : list string) (scored : list Scored)
    : list Scored :=
  List.filter (fun r => existsb (String.eqb (id (item r))) found) scored.

Definition ranking (l : list Scored) : list string := map (fun r => id (item r)) l.

Inductive Response : Type :=
| BadRequest                      (* 400, 'Search query is required' *)
| Ranked (results : list Scored)  (* 200, the notes with their scores *)
| Failed (e : Error).             (* [next(error)] *)

Section Handler.
Variable st : @VectorStore R.
(** [embeddingService.generateEmbedding] *)
Variable embed : string -> Outcome Similarity.Vec.
(** [Note.searchNotes(query, {limit, includeArchived: false})]: the ids of
    the notes found, best first. *)
Variable searchNotes : string -> option Z -> Outcome (list string).
(** [Note.find({_id: {$in: noteIds}})]: the ids of the notes found. *)
Variable findNotes : list string -> Outcome (list string).

(** [hybridSearch], for the query [q], [parseInt(limit)] and
    [parseFloat(semanticWeight)]. *)
Definition hybridSearch (query : string) (parsedLimit : option Z) (weight : num)
    : Response :=
  if String.eqb query EmptyString then BadRequest
  else
    match embed query with
    | Throw e => Failed e
    | Return queryEmbedding =>
        match Search.searchInt st (Some queryEmbedding)
                (Z.mul 2 <$> parsedLimit) Search.noFilter with
        | Throw e => Failed e
        | Return semanticResults =>
            match searchNotes query (Z.mul 2 <$> parsedLimit) with
            | Throw e => Failed e
            | Return keywordIds =>
                let scored :=
                  scoredResults weight parsedLimit
                    (map Search.id semanticResults) keywordIds in
                match findNotes (ranking scored) with
                | Throw e => Failed e
                | Return found => Ranked (notesWithScores found scored)
                end
            end
        end
    end.

End Handler.

(** What a ranked list contributes to an id, in the words of the
    specification: [1 - position/size], scaled; nothing for an id the list
    does not hold. *)
Definition contribution (scale : num) (l : list string) (i : string) : num :=
  match position i l with
  | Some p => mul (sub (ofNat 1) (div (ofNat p) (ofNat (length l)))) scale
  | None => ofNat 0
  end.

(** The comparator does not ask to put [b] before [a]: [b.totalScore -
    a.totalScore] is not positive. *)
Definition descending (a b : Scored) : Prop :=
  isPositive (byTotalDesc a b) = false.

End Ranker.

End Hybrid.

(** ** [reindexAll] *)

Module Reindex.
Section Reindex.
Context {num : Type}.
Variable zero : num.
(** The vector the embedding API, or the fallback, returns for a text. *)
Variable embedding : string -> list num.
Variable md5 : string -> string.
(** Whether the database rejects the upsert of the embedding document, or
    the update of the note, of a given note. *)
Variable upsertFails : string -> bool.
Variable updateFails : string -> bool.

Record Note : Type := mkNote {
  _id : string;
  content : string;
  hasEmbedding : bool
}.

Record EmbeddingDoc : Type := mkEmbeddingDoc {
  noteId : string;
  vector : list num;
  e_dimension : nat;
  textHash : string;
  model : string
}.

Record App : Type := mkApp {
  world : @World num;
  notes : list Note;                    (* the Note collection *)
  embeddings : JsMap.t EmbeddingDoc     (* the Embedding collection *)
}.

(** An operation of the store run inside the application. *)
Definition liftWorld {A} (m : M (@World num) A) : M App A :=
  fun a => let '(r, w) := m (world a) in (r, mkApp w (notes a) (embeddings a)).

(** [embeddingService.generateEmbedding(text)]: only the check of the
    text throws; a failure of the API falls back to the local embedding. *)
Definition generateEmbedding (text : string) : M App (list num) :=
  if String.eqb text EmptyString
  then throw (PlainError "Text must be a non-empty string")
  else
    let maxLength := 8000%nat in
    let truncatedText :=
      if (maxLength <? String.length text)%nat
      then substring 0 maxLength text else text in
    ret (embedding truncatedText).

(** [Embedding.findOneAndUpdate({noteId}, {...}, {upsert: true})] *)
Definition upsertEmbedding (i : string) (doc : EmbeddingDoc) : M App unit :=
  if upsertFails i then throw (PlainError "embedding upsert failed")
  else modify (fun a => mkApp (world a) (notes a) (JsMap.set i doc (embeddings a))).

(** [Note.findByIdAndUpdate(id, {hasEmbedding: true})] *)
Definition markEmbedded (i : string) : M App unit :=
  if updateFails i then throw (PlainError "note update failed")
  else modify (fun a =>
    mkApp (world a)
      (map (fun n => if String.eqb (_id n) i then mkNote (_id n) (content n) true else n)
           (notes a))
      (embeddings a)).

(** The callback run on each note of a batch; the pair counts
    [(processed, errors)]. *)
Definition reindexNote (note : Note) (counts : nat * nat) : M App (nat * nat) :=
  tryCatch
    (let* e := generateEmbedding (content note) in
     let* _ := liftWorld (addVector zero (Some (_id note)) (Some e) ∅) in
     let textHash := md5 (content note) in
     let* _ := upsertEmbedding (_id note)
                 (mkEmbeddingDoc (_id note) e (length e) textHash "all-MiniLM-L6-v2") in
     let* _ := markEmbedded (_id note) in
     ret (S (fst counts), snd counts))
    (fun err => ret (fst counts, S (snd counts))).

(** The slices [notes.slice(i, i + batchSize)] for [i = 0, batchSize, ...]. *)
Fixpoint batches {X} (fuel batchSize : nat) (l : list X) : list (list X) :=
  match fuel, l with
  | S fuel', _ :: _ => firstn batchSize l :: batches fuel' batchSize (skipn batchSize l)
  | _, _ => []
  end.

(** One batch: the callbacks of [Promise.all] taken in the order of the
    batch. *)
Fixpoint reindexBatch (batch : list Note) (counts : nat * nat) : M App (nat * nat) :=
  match batch with
  | [] => ret counts
  | note :: rest =>
      let* counts' := reindexNote note counts in
      reindexBatch rest counts'
  end.

Fixpoint reindexBatches (bs : list (list Note)) (counts : nat * nat)
    : M App (nat * nat) :=
  match bs with
  | [] => ret counts
  | batch :: rest =>
      let* counts' := reindexBatch batch counts in
      reindexBatches rest counts'
  end.

Inductive Response : Type :=
| NoNotes                                            (* 'No notes to reindex' *)
| Reindexed (totalNotes processed errors : nat)      (* 'Reindexing complete' *)
| Failed (e : Error).                                (* [next(error)] *)

(** [reindexAll] *)
Definition reindexAll : M App Response :=
  tryCatch
    (let* ns := gets notes in
     if (length ns =? 0)%nat then ret NoNotes
     else
       let* _ := liftWorld (clear) in
       let batchSize := 10%nat in
       let* counts := reindexBatches (batches (length ns) batchSize ns) (0%nat, 0%nat) in
       ret (Reindexed (length ns) (fst counts) (snd counts)))
    (fun error => ret (Failed error)).

(** The embedding of a note cannot be generated: its text is empty. *)
Definition embeddingFails (n : Note) : bool := String.eqb (content n) EmptyString.

(** Every step of the pipeline of a note goes through. *)
Definition succeeds (n : Note) : bool :=
  negb (embeddingFails n) && negb (String.eqb (_id n) EmptyString)
  && negb (upsertFails (_id n)) && negb (updateFails (_id n)).

Definition writable (a : App) : Prop := writeFault (disk (world a)) = None.

Definition countOk (ns : list Note) : nat := length (List.filter succeeds ns).
Definition countFailed (ns : list Note) : nat :=
  length (List.filter (fun n => negb (succeeds n)) ns).

End Reindex.
End Reindex.

(** ** The embedding service *)

Module EmbeddingService.
Import Similarity.
Local Open Scope R_scope.

(** [isConfigured()]: a key is set, is not the placeholder of the sample
    configuration and starts with "nvapi-". *)
Definition isConfigured (apiKey : option string) : bool :=
  match apiKey with
  | Some key =>
      negb (String.eqb key EmptyString)
      && negb (String.eqb key "your_nvidia_api_key_here")
      && String.prefix "nvapi-" key
  | None => false
  end.

(** The code units [text.charCodeAt(0)], [text.charCodeAt(1)], ... *)
Definition charCodes (text : string) : list nat :=
  map nat_of_ascii (list_ascii_of_string text).

(** The loop of [generateFallbackEmbedding] over the characters. *)
Fixpoint hashLoop (dimension i : nat) (codes : list nat) (embedding : Vec) : Vec :=
  match codes with
  | [] => embedding
  | charCode :: rest =>
      let index := ((charCode * (i + 1)) mod dimension)%nat in
      hashLoop dimension (S i) rest
        (alter (fun x => x + sin (INR charCode * (1 / 100)) * (1 / 10)) index embedding)
  end.

(** The body of [generateFallbackEmbedding], on the code units of the
    text. *)
Definition embeddingOfCodes (dimension : nat) (codes : list nat) : Vec :=
  let embedding := hashLoop dimension 0 codes (repeat 0 dimension) in
  let magnitude := sqrt (sumSquares embedding) in
  if Rlt_dec 0 magnitude then map (fun x => x / magnitude) embedding
  else embedding.

(** [generateFallbackEmbedding(text)] *)
Definition generateFallbackEmbedding (dimension : nat) (text : string) : Vec :=
  embeddingOfCodes dimension (charCodes text).

(** [text.length > maxLength ? text.substring(0, maxLength) : text] *)
Definition truncateText (text : string) : string :=
  let maxLength := 8000%nat in
  if (maxLength <? String.length text)%nat then substring 0 maxLength text else text.

Section Service.
(** The embedding the API answers for a text, or for a list of texts;
    [None] when the request fails or the answer lacks the embedding. *)
Variable api : string -> option Vec.
Variable apiBatch : list string -> option (list Vec).
Variable apiKey : option string.
Variable dimension : nat.

(** [generateEmbedding(text)] *)
Definition generateEmbedding (text : string) : Outcome Vec :=
  if String.eqb text EmptyString
  then Throw (PlainError "Text must be a non-empty string")
  else
    let truncatedText := truncateText text in
    if negb (isConfigured apiKey)
    then Return (generateFallbackEmbedding dimension truncatedText)
    else
      match api truncatedText with
      | Some embedding => Return embedding
      | None => Return (generateFallbackEmbedding dimension truncatedText)
      end.

(** [generateEmbeddings(texts)] *)
Definition generateEmbeddings (texts : list string) : Outcome (list Vec) :=
  match texts with
  | [] => Throw (PlainError "Texts must be a non-empty array")
  | _ =>
      if negb (isConfigured apiKey)
      then Return (map (generateFallbackEmbedding dimension) texts)
      else
        match apiBatch (map truncateText texts) with
        | Some embeddings => Return embeddings
        | None => Return (map (generateFallbackEmbedding dimension) texts)
        end
  end.

End Service.
End EmbeddingService.

(** ** The search controllers: [semanticSearch] and [getRelatedNotes] *)

Module Controllers.
Import Similarity.

(** A document of the Note collection, with the fields the controllers
    read. *)
Record NoteDoc : Type := mkNoteDoc {
  _id : string;
  title : string;
  content : string;
  category : string;
  isArchived : bool
}.

(** [{...note, similarityScore, preview}] *)
Record NoteWithScore : Type := mkNoteWithScore {
  note : NoteDoc;
  similarityScore : R;
  preview : string
}.

Inductive SearchResponse : Type :=
| BadRequest                              (* 400, 'Search query is required' *)
| NoMatch                                 (* 200, 'No matching notes found' *)
| Matches (data : list NoteWithScore)     (* 200 *)
| SearchFailed (e : Error).               (* [next(error)] *)



Section Controllers.
(** [embeddingService.generateEmbedding] *)
Variable embed : string -> Outcome Vec.
Variable st : @VectorStore R.
(** The Note collection, in the order queries return its documents. *)
Variable db : list NoteDoc.

(** [Note.find({_id: {$in: noteIds}, isArchived: false})] *)
Definition findActive (noteIds : list string) : list NoteDoc :=
  List.filter (fun n => existsb (String.eqb (_id n)) noteIds && negb (isArchived n)) db.

(** The ObjectId Mongoose casts a string to, given as the string
    [toString()] returns for it; [None] when the cast fails.  The [_id] of
    a document is such a string. *)
Variable castObjectId : string -> option string.



(** [searchResults.find(r => r.id === id)], then [result ? result.score : 0] *)
Definition scoreOf (searchResults : list Search.Result) (i : string) : R :=
  match List.find (fun r => String.eqb (Search.id r) i) searchResults with
  | Some result => Search.score result
  | None => 0%R
  end.

(** The comparator [(a, b) => b.similarityScore - a.similarityScore]. *)
Definition bySimilarityDesc (a b : NoteWithScore) : R :=
  (similarityScore b - similarityScore a)%R.

(** [semanticSearch], for the query [q] and [parseInt(limit)]. *)
Definition semanticSearch (query : string) (limit : nat) : SearchResponse :=
  if String.eqb query EmptyString then BadRequest
  else
    match embed query with
    | Throw e => SearchFailed e
    | Return queryEmbedding =>
        match Search.search st (Some queryEmbedding) (Some limit) Search.noFilter with
        | Throw e => SearchFailed e
        | Return searchResults =>
            if (length searchResults =? 0)%nat then NoMatch
            else
              let noteIds := map Search.id searchResults in
              let notes := findActive noteIds in
              let notesWithScores :=
                map (fun n => mkNoteWithScore n (scoreOf searchResults (_id n))
                                (substring 0 200 (content n) ++ "...")%string)
                    notes in
              Matches (sortStable (fun a b => Search.positive (bySimilarityDesc a b))
                                  notesWithScores)
        end
    end.


(** The order the comparator of [semanticSearch] sorts into. *)
Definition descending (a b : NoteWithScore) : Prop :=
  (similarityScore b <= similarityScore a)%R.

End Controllers.
End Controllers.

(** ** The notes controller: [generateNoteEmbedding] and [deleteNote] *)

Module NotesController.
Section NotesController.
Context {num : Type}.
Variable zero : num.
(** [embeddingService.generateEmbedding] *)
Variable embed : string -> Outcome (list num).
Variable md5 : string -> string.
(** Whether the database rejects a call made for a given note. *)
Variable upsertFails : string -> bool.            (* [Embedding.findOneAndUpdate] *)
Variable updateFails : string -> bool.            (* [Note.findByIdAndUpdate] *)
Variable deleteEmbeddingFails : string -> bool.   (* [Embedding.deleteByNoteId] *)
Variable deleteNoteFails : string -> bool.        (* [Note.deleteOne] *)

Record Note : Type := mkNote {
  _id : string;
  user : string;
  content : string;
  hasEmbedding : bool;
  embeddingId : option string
}.

Record App : Type := mkApp {
  world : @World num;
  notes : list Note;                                 (* the Note collection *)
  embeddings : JsMap.t (@Reindex.EmbeddingDoc num)   (* the Embedding collection *)
}.

(** An operation of the store run inside the application. *)
Definition liftWorld {A} (m : M (@World num) A) : M App A :=
  fun a => let '(r, w) := m (world a) in (r, mkApp w (notes a) (embeddings a)).

(** A call of the embedding service, which has no part in the state. *)
Definition liftOutcome {A} (o : Outcome A) : M App A := fun a => (o, a).

(** [Embedding.findOneAndUpdate({noteId}, {...}, {upsert: true, new: true})] *)
Definition upsertEmbedding (i : string) (doc : @Reindex.EmbeddingDoc num) : M App unit :=
  if upsertFails i then throw (PlainError "embedding upsert failed")
  else modify (fun a => mkApp (world a) (notes a) (JsMap.set i doc (embeddings a))).

(** [Note.findByIdAndUpdate(noteId, {hasEmbedding: true, embeddingId})] *)
Definition markEmbedded (i : string) : M App unit :=
  if updateFails i then throw (PlainError "note update failed")
  else modify (fun a =>
    mkApp (world a)
      (map (fun n => if String.eqb (_id n) i
                     then mkNote (_id n) (user n) (content n) true (Some i)
                     else n)
           (notes a))
      (embeddings a)).

(** [generateNoteEmbedding(noteId, content)] *)
Definition generateNoteEmbedding (noteId content : string) : M App unit :=
  tryCatch
    (let* e := liftOutcome (embed content) in
     let textHash := md5 content in
     let* _ := upsertEmbedding noteId
                 (Reindex.mkEmbeddingDoc noteId e (length e) textHash
                    "all-MiniLM-L6-v2") in
     let* _ := liftWorld (addVector zero (Some noteId) (Some e) ∅) in
     let* _ := markEmbedded noteId in
     ret tt)
    (fun error => throw error).

(** [Note.findOne({_id: id, user: userId})] *)
Definition findOne (i u : string) (ns : list Note) : option Note :=
  List.find (fun n => String.eqb (_id n) i && String.eqb (user n) u) ns.

(** [Embedding.deleteByNoteId(noteId)], that is [deleteMany({noteId})] *)
Definition deleteByNoteId (i : string) : M App unit :=
  if deleteEmbeddingFails i then throw (PlainError "embedding delete failed")
  else modify (fun a => mkApp (world a) (notes a) (JsMap.remove i (embeddings a))).

(** The collection without its first document of the given id. *)
Fixpoint withoutFirst (i : string) (ns : list Note) : list Note :=
  match ns with
  | [] => []
  | n :: ns' => if String.eqb (_id n) i then ns' else n :: withoutFirst i ns'
  end.

(** [Note.deleteOne({_id: id})] *)
Definition deleteOne (i : string) : M App unit :=
  if deleteNoteFails i then throw (PlainError "note delete failed")
  else modify (fun a => mkApp (world a) (withoutFirst i (notes a)) (embeddings a)).

Inductive DeleteResponse : Type :=
| DeleteNotFound                  (* 404, 'Note not found' *)
| Deleted                         (* 200, 'Note deleted successfully' *)
| DeleteFailed (e : Error).       (* [next(error)] *)

(** [deleteNote], for [req.params.id] and [req.user._id]. *)
Definition deleteNote (i u : string) : M App DeleteResponse :=
  tryCatch
    (let* found := gets (fun a => findOne i u (notes a)) in
     match found with
     | None => ret DeleteNotFound
     | Some note =>
         let* _ := tryCatch
                     (let* _ := liftWorld (removeVector (_id note)) in
                      deleteByNoteId (_id note))
                     (fun embError => ret tt) in
         let* _ := deleteOne (_id note) in
         ret Deleted
     end)
    (fun error => ret (DeleteFailed error)).

End NotesController.
End NotesController.

(** ** Concrete stores used in the examples: integer-valued vectors *)

Module Examples.

Definition w0 : @World Z := freshWorld (Some 3) None.

Definition work : Meta := {[ "category" := JStr "work" ]}.

Definition w1 : @World Z :=
  run 0%Z [AddVector (Some "n1") (Some [1; 2]%Z) work;
           Tick 5;
           AddVector (Some "n2") (Some [1; 2; 3; 4]%Z) ∅] w0.

End Examples.

(** A one-record store over the reals. *)
Definition unitStore : @VectorStore R :=
  mkStore [("n1", [1%R])] [("n1", ∅)] 1 5 [] [].

(** Three records over the reals. *)
Definition triStore : @VectorStore R :=
  mkStore [("a", [1%R; 0%R]); ("b", [0%R; 1%R]); ("c", [1%R; 1%R])]
          [("a", ∅); ("b", ∅); ("c", ∅)] 2 5 [] [].

(** A store of dimension 2 saves the vector (1, 2); the process is then
    restarted with dimension 3. *)
Definition staleWorld : @World Z :=
  run 0%Z [AddVector (Some "n1") (Some [1; 2]%Z) ∅; Restart (Some 3) None]
      (freshWorld (Some 2) None).

(** Twenty-five notes, of which the first three have no text. *)
Definition notes25 : list Reindex.Note :=
  map (fun k => Reindex.mkNote (pretty k) (if (k <=? 3)%nat then EmptyString else "text") false)
      (seq 1 25).

Definition app25 : @Reindex.App Z :=
  Reindex.mkApp Examples.w1 notes25 [].

(** * Properties *)

(** ** The map operations *)

Module JsMapFacts.
Import JsMap.
Section Facts.
Context {V : Type}.
Implicit Types (m : JsMap.t V) (k : string) (v : V).

Lemma get_None_keys k m : get k m = None <-> k ∉ keys m.
Proof.
  induction m as [|[k' v'] m IH]; simpl.
  - split; [intros _; apply not_elem_of_nil | done].
  - rewrite not_elem_of_cons. destruct (String.eqb_spec k k') as [->|Hne].
    + split; [discriminate | intros [? _]; congruence].
    + rewrite IH. tauto.
Qed.

Lemma has_true_keys k m : has k m = true <-> k ∈ keys m.
Proof.
  unfold has. destruct (get k m) eqn:E.
  - split; [intros _|done]. destruct (decide (k ∈ keys m)) as [|Hn]; [done|].
    apply get_None_keys in Hn. congruence.
  - apply get_None_keys in E. split; [discriminate | done].
Qed.

Lemma has_false_keys k m : has k m = false <-> k ∉ keys m.
Proof. rewrite <- has_true_keys. destruct (has k m); split; congruence. Qed.

Lemma get_In k v m : get k m = Some v -> (k, v) ∈ m.
Proof.
  induction m as [|[k' v'] m IH]; simpl; [discriminate|].
  destruct (String.eqb_spec k k') as [->|Hne].
  - intros [= ->]. left.
  - intros H. right. auto.
Qed.

Lemma In_get k v m : wf m -> (k, v) ∈ m -> get k m = Some v.
Proof.
  unfold wf. induction m as [|[k' v'] m IH]; simpl; intros Hnd Hin.
  - by apply elem_of_nil in Hin.
  - apply NoDup_cons in Hnd as [Hk Hnd]. apply elem_of_cons in Hin as [[= -> ->]|Hin].
    + by rewrite String.eqb_refl.
    + destruct (String.eqb_spec k k') as [->|Hne]; [|auto].
      exfalso. apply Hk. apply (list_elem_of_fmap_2 fst) in Hin. exact Hin.
Qed.

Lemma get_set_eq k v m : get k (set k v m) = Some v.
Proof.
  induction m as [|[k' v'] m IH]; simpl.
  - by rewrite String.eqb_refl.
  - destruct (String.eqb_spec k k') as [->|Hne]; simpl.
    + by rewrite String.eqb_refl.
    + destruct (String.eqb_spec k k'); [done|]. exact IH.
Qed.

Lemma get_set_ne k k' v m : k <> k' -> get k' (set k v m) = get k' m.
Proof.
  intros Hne. induction m as [|[k0 v0] m IH]; simpl.
  - destruct (String.eqb_spec k' k); congruence.
  - destruct (String.eqb_spec k k0) as [->|Hk]; simpl.
    + destruct (String.eqb_spec k' k0); congruence.
    + destruct (String.eqb_spec k' k0); [done|]. exact IH.
Qed.

Lemma keys_set k v m :
  keys (set k v m) = if has k m then keys m else keys m ++ [k].
Proof.
  induction m as [|[k' v'] m IH]; simpl; [done|].
  unfold has in *. simpl. destruct (String.eqb_spec k k') as [->|Hne]; simpl; [done|].
  rewrite IH. by destruct (get k m).
Qed.

Lemma length_set k v m :
  length (set k v m) = if has k m then length m else S (length m).
Proof.
  assert (H := keys_set k v m). apply (f_equal length) in H.
  unfold keys in H. rewrite length_map in H. rewrite H.
  destruct (has k m); rewrite ?length_app, length_map; simpl; lia.
Qed.

Lemma wf_set k v m : wf m -> wf (set k v m).
Proof.
  unfold wf. rewrite keys_set. destruct (has k m) eqn:E; [done|].
  intros Hnd. apply NoDup_app. split; [done|]. split.
  - intros x Hx Hx'. apply list_elem_of_singleton in Hx'. subst x.
    apply has_false_keys in E. done.
  - apply NoDup_singleton.
Qed.

Lemma remove_absent k m : k ∉ keys m -> remove k m = m.
Proof.
  induction m as [|[k' v'] m IH]; simpl; [done|].
  rewrite not_elem_of_cons. intros [Hne Hk].
  destruct (String.eqb_spec k k'); [done|]. by rewrite IH.
Qed.

Lemma keys_remove_subseteq k m : keys (remove k m) ⊆ keys m.
Proof.
  induction m as [|[k' v'] m IH]; simpl; [done|].
  destruct (String.eqb_spec k k'); simpl.
  - intros x Hx. by right.
  - intros x. rewrite !elem_of_cons. intros [->|Hx]; [by left|right; by apply IH].
Qed.

Lemma wf_remove k m : wf m -> wf (remove k m).
Proof.
  unfold wf. induction m as [|[k' v'] m IH]; simpl; [done|].
  intros Hnd. apply NoDup_cons in Hnd as [Hk Hnd].
  destruct (String.eqb_spec k k'); simpl; [done|].
  apply NoDup_cons. split; [|auto].
  intros Hin. apply Hk. by apply (keys_remove_subseteq k m).
Qed.

Lemma get_remove_eq k m : wf m -> get k (remove k m) = None.
Proof.
  unfold wf. induction m as [|[k' v'] m IH]; simpl; [done|].
  intros Hnd. apply NoDup_cons in Hnd as [Hk Hnd].
  destruct (String.eqb_spec k k') as [->|Hne]; simpl.
  - by apply get_None_keys.
  - destruct (String.eqb_spec k k'); [done|]. auto.
Qed.

Lemma get_remove_ne k k' m : k <> k' -> get k' (remove k m) = get k' m.
Proof.
  intros Hne. induction m as [|[k0 v0] m IH]; simpl; [done|].
  destruct (String.eqb_spec k k0) as [->|Hk]; simpl.
  - destruct (String.eqb_spec k' k0); congruence.
  - destruct (String.eqb_spec k' k0); [done|]. exact IH.
Qed.

Lemma set_fresh k v m : k ∉ keys m -> set k v m = m ++ [(k, v)].
Proof.
  induction m as [|[k' v'] m IH]; simpl; [done|].
  rewrite not_elem_of_cons. intros [Hne Hk].
  destruct (String.eqb_spec k k'); [done|]. by rewrite IH.
Qed.

Lemma ofEntries_from (l acc : list (string * V)) :
  NoDup (keys (acc ++ l)) ->
  fold_left (fun m kv => set (fst kv) (snd kv) m) l acc = acc ++ l.
Proof.
  revert acc. induction l as [|[k v] l IH]; intros acc Hnd; simpl.
  - by rewrite app_nil_r.
  - assert (Hk : k ∉ keys acc).
    { unfold keys in *. rewrite fmap_app in Hnd. apply NoDup_app in Hnd as (_ & Hd & _).
      intros Hin. apply (Hd k Hin). simpl. left. }
    rewrite (set_fresh k v acc Hk). rewrite IH; rewrite <- app_assoc; done.
Qed.

(** Entries with distinct keys make the map that lists them in order. *)
Lemma ofEntries_wf (l : list (string * V)) : wf l -> ofEntries l = l.
Proof. intros H. unfold ofEntries. by rewrite ofEntries_from. Qed.

(** Lookup does not depend on the order of the entries. *)
Lemma get_Permutation k m m' : wf m -> m ≡ₚ m' -> get k m = get k m'.
Proof.
  intros Hwf Hp.
  assert (Hwf' : wf m').
  { unfold wf, keys in *. by rewrite <- Hp. }
  destruct (get k m) as [v|] eqn:E.
  - symmetry. apply In_get; [done|]. rewrite <- Hp. by apply get_In.
  - symmetry. apply get_None_keys. apply get_None_keys in E.
    unfold keys in *. by rewrite <- Hp.
Qed.

Lemma elem_of_set k v m (e : string * V) :
  e ∈ set k v m -> e = (k, v) \/ e ∈ m.
Proof.
  induction m as [|[k' v'] m IH]; simpl.
  - intros H. apply list_elem_of_singleton in H. by left.
  - destruct (String.eqb k k').
    + intros H. apply elem_of_cons in H as [->|H]; [by left|right; by right].
    + intros H. apply elem_of_cons in H as [->|H]; [right; left|].
      destruct (IH H) as [->|H']; [by left|right; by right].
Qed.

Lemma elem_of_remove k m (e : string * V) : e ∈ remove k m -> e ∈ m.
Proof.
  induction m as [|[k' v'] m IH]; simpl; [done|].
  destruct (String.eqb k k').
  - intros H. by right.
  - intros H. apply elem_of_cons in H as [->|H]; [left|right; auto].
Qed.

Lemma elem_of_ofEntries (l : list (string * V)) (e : string * V) :
  e ∈ ofEntries l -> e ∈ l.
Proof.
  unfold ofEntries.
  assert (G : forall acc, e ∈ fold_left (fun m kv => set (fst kv) (snd kv) m) l acc ->
                          e ∈ acc \/ e ∈ l).
  { induction l as [|[k v] l IH]; intros acc H; simpl in *; [by left|].
    destruct (IH _ H) as [H'|H']; [|right; by right].
    destruct (elem_of_set _ _ _ _ H') as [->|H'']; [right; left|by left]. }
  intros H. destruct (G [] H) as [H'|H']; [|done]. by apply elem_of_nil in H'.
Qed.

End Facts.

(** Removing a key only depends on the keys: two maps with the same keys
    keep the same keys. *)
Lemma keys_remove {V W} k (m : JsMap.t V) (m' : JsMap.t W) :
  keys m = keys m' -> keys (remove k m) = keys (remove k m').
Proof.
  revert m'. induction m as [|[k0 v0] m IH]; intros [|[k1 w1] m']; simpl; try done.
  intros [= -> H]. destruct (String.eqb_spec k k1); simpl; [done|].
  f_equal. by apply IH.
Qed.

Lemma has_keys {V W} k (m : JsMap.t V) (m' : JsMap.t W) : keys m = keys m' -> has k m = has k m'.
Proof.
  intros H. destruct (has k m') eqn:E.
  - apply has_true_keys. rewrite H. by apply has_true_keys.
  - apply has_false_keys. rewrite H. by apply has_false_keys.
Qed.

Lemma keys_set_both {V W} k (v : V) (w : W) (m : JsMap.t V) (m' : JsMap.t W) :
  keys m = keys m' -> keys (set k v m) = keys (set k w m').
Proof. intros H. rewrite !keys_set, (has_keys k m m' H), H. done. Qed.

End JsMapFacts.

(** ** Property order: a reordering that only looks at the keys *)

Module PropertyOrderFacts.
Import PropertyOrder.

Lemma insertIndexed_perm {V} (kv : string * V) l : insertIndexed kv l ≡ₚ kv :: l.
Proof.
  induction l as [|kv' l IH]; simpl; [done|].
  destruct (_ <=? _)%N; [done|]. rewrite IH. apply perm_swap.
Qed.

Lemma sortIndexed_perm {V} (l : list (string * V)) : sortIndexed l ≡ₚ l.
Proof.
  induction l as [|kv l IH]; simpl; [done|].
  rewrite insertIndexed_perm. by rewrite IH.
Qed.

Lemma filter_split_perm {X} (p : X -> bool) (l : list X) :
  List.filter p l ++ List.filter (fun x => negb (p x)) l ≡ₚ l.
Proof.
  induction l as [|x l IH]; simpl; [done|].
  destruct (p x); simpl.
  - by rewrite IH.
  - rewrite <- Permutation_middle. by rewrite IH.
Qed.

Lemma ownEntries_perm {V} (l : list (string * V)) : ownEntries l ≡ₚ l.
Proof.
  unfold ownEntries. rewrite sortIndexed_perm.
  apply (filter_split_perm (fun kv => isArrayIndex (fst kv))).
Qed.

Lemma insertIndexed_keys {V W} (kv : string * V) (kw : string * W) l l' :
  fst kv = fst kw -> map fst l = map fst l' ->
  map fst (insertIndexed kv l) = map fst (insertIndexed kw l').
Proof.
  intros Hk. revert l'. induction l as [|a l IH]; intros [|b l']; simpl; try done.
  - intros _. by rewrite Hk.
  - intros [= Hab Hl]. rewrite Hk, Hab. destruct (_ <=? _)%N; simpl.
    + by rewrite Hk, Hab, Hl.
    + rewrite Hab. f_equal. by apply IH.
Qed.

Lemma sortIndexed_keys {V W} (l : list (string * V)) (l' : list (string * W)) :
  map fst l = map fst l' -> map fst (sortIndexed l) = map fst (sortIndexed l').
Proof.
  revert l'. induction l as [|a l IH]; intros [|b l']; simpl; try done.
  intros [= Hab Hl]. apply insertIndexed_keys; [done|]. by apply IH.
Qed.

Lemma filter_keys {V W} (p : string -> bool)
    (l : list (string * V)) (l' : list (string * W)) :
  map fst l = map fst l' ->
  map fst (List.filter (fun kv => p (fst kv)) l)
  = map fst (List.filter (fun kv => p (fst kv)) l').
Proof.
  revert l'. induction l as [|a l IH]; intros [|b l']; simpl; try done.
  intros [= Hab Hl]. rewrite Hab. destruct (p (fst b)); simpl.
  - rewrite Hab. f_equal. by apply IH.
  - by apply IH.
Qed.

(** Two objects created with the same keys in the same order enumerate
    their keys in the same order. *)
Lemma ownEntries_keys {V W} (l : list (string * V)) (l' : list (string * W)) :
  map fst l = map fst l' -> map fst (ownEntries l) = map fst (ownEntries l').
Proof.
  intros H. unfold ownEntries. rewrite !map_app. f_equal.
  - apply sortIndexed_keys. by apply (filter_keys isArrayIndex).
  - by apply (filter_keys (fun k => negb (isArrayIndex k))).
Qed.

Lemma ownEntries_wf {V} (l : list (string * V)) : JsMap.wf l -> JsMap.wf (ownEntries l).
Proof. unfold JsMap.wf, JsMap.keys. by rewrite ownEntries_perm. Qed.

End PropertyOrderFacts.

(** ** The store: invariants of its histories *)

Ltac unfold_monad :=
  unfold save, mkdir, writeFile, readFile, now, setStore, setFile,
         tryCatch, bind, ret, throw, gets, modify in *.

Section StoreFacts.
Context {num : Type}.
Variable zero : num.
Implicit Types (w : @World num) (st : @VectorStore num).

Lemma length_adjust d (v : list num) : length (adjust zero d v) = d.
Proof.
  unfold adjust.
  destruct (Nat.eqb_spec (length v) d) as [Heq|Hne]; simpl; [done|].
  destruct (Nat.ltb_spec (length v) d) as [Hlt|Hge].
  - rewrite length_app, repeat_length. lia.
  - rewrite length_take. lia.
Qed.

Lemma adjust_exact d (v : list num) : length v = d -> adjust zero d v = v.
Proof. intros <-. unfold adjust. by rewrite Nat.eqb_refl. Qed.

Lemma save_ok w : writeFault (disk w) = None -> save w = (Return tt, saved w).
Proof. intros H. unfold_monad. repeat (rewrite H; simpl). reflexivity. Qed.

Lemma save_fault w code :
  writeFault (disk w) = Some code -> save w = (Throw (FsError code), w).
Proof. intros H. unfold_monad. by rewrite H. Qed.

Lemma save_cases w :
  (writeFault (disk w) = None /\ save w = (Return tt, saved w))
  \/ (exists code, writeFault (disk w) = Some code /\ save w = (Throw (FsError code), w)).
Proof.
  destruct (writeFault (disk w)) as [code|] eqn:E.
  - right. exists code. split; [done|]. by apply save_fault.
  - left. split; [done|]. by apply save_ok.
Qed.

Lemma save_store w : store (snd (save w)) = store w.
Proof. destruct (save_cases w) as [[_ ->]|(c & _ & ->)]; done. Qed.

Lemma storeInv_metadata_wf st : storeInv st -> JsMap.wf (metadata st).
Proof. intros [Hwf Hk]. unfold JsMap.wf. by rewrite <- Hk. Qed.

Lemma snapshot_docInv st t : storeInv st -> docInv (snapshotData st t).
Proof.
  intros Hinv. pose proof (storeInv_metadata_wf st Hinv) as Hm.
  destruct Hinv as [Hwf Hk].
  eexists _, _. split; [reflexivity|]. split; [reflexivity|].
  unfold jsonMembers, Object_fromEntries.
  rewrite !JsMapFacts.ofEntries_wf by done. split.
  - by apply PropertyOrderFacts.ownEntries_wf.
  - by apply PropertyOrderFacts.ownEntries_keys.
Qed.

Lemma save_inv w : worldInv w -> worldInv (snd (save w)).
Proof.
  intros [Hs Hf]. destruct (save_cases w) as [[_ ->]|(c & _ & ->)]; simpl.
  - split; [done|]. simpl. by apply snapshot_docInv.
  - done.
Qed.

Lemma setStore_save_inv (f : @VectorStore num -> @VectorStore num) w :
  storeInv (f (store w)) -> fileInv (file (disk w)) ->
  worldInv (snd ((let* _ := setStore f in save) w)).
Proof.
  intros Hs Hf. unfold bind at 1. unfold setStore, modify. simpl.
  apply save_inv. split; done.
Qed.

Lemma storeInv_empty d k ix ids :
  storeInv (mkStore (num:=num) [] [] d k ix ids).
Proof. split; [apply NoDup_nil_2|done]. Qed.

Lemma addVector_inv id vector meta w :
  worldInv w -> worldInv (snd (addVector zero id vector meta w)).
Proof.
  intros [[Hwf Hk] Hf]. unfold addVector.
  destruct id as [id|]; [|by split]. destruct vector as [vector|]; [|by split].
  destruct (String.eqb id EmptyString); [by split|].
  unfold bind at 1. unfold gets at 1. unfold bind at 1. unfold now, gets at 1.
  apply setStore_save_inv; [|done]. split; simpl.
  - by apply JsMapFacts.wf_set.
  - by apply JsMapFacts.keys_set_both.
Qed.

Lemma removeVector_inv id w :
  worldInv w -> worldInv (snd (removeVector id w)).
Proof.
  intros [[Hwf Hk] Hf]. unfold removeVector.
  unfold bind at 1. unfold gets at 1. unfold bind at 1. unfold setStore, modify at 1.
  set (w' := mkWorld _ _ _).
  assert (Hw' : worldInv w').
  { split; [|done]. split; simpl.
    - by apply JsMapFacts.wf_remove.
    - by apply JsMapFacts.keys_remove. }
  unfold bind. destruct (fst (JsMap.delete id (vectors (store w)))).
  - pose proof (save_inv w' Hw') as H. destruct (save w') as [[[]|e] w'']; exact H.
  - exact Hw'.
Qed.

Lemma updateVector_inv id vector meta w :
  worldInv w -> worldInv (snd (updateVector zero id vector meta w)).
Proof.
  intros Hinv. unfold updateVector. unfold bind at 1. unfold gets at 1.
  destruct (negb _); [by apply addVector_inv|].
  destruct id as [id|]; [|done]. destruct vector as [vector|]; [|done].
  destruct Hinv as [[Hwf Hk] Hf].
  unfold bind at 1. unfold gets at 1. unfold bind at 1. unfold now, gets at 1.
  apply setStore_save_inv; [|done]. split; simpl.
  - by apply JsMapFacts.wf_set.
  - by apply JsMapFacts.keys_set_both.
Qed.

Lemma clear_inv w : worldInv w -> worldInv (snd (clear w)).
Proof.
  intros [_ Hf]. unfold clear. apply setStore_save_inv; [|done].
  apply storeInv_empty.
Qed.

Lemma rebuildIndex_inv w : worldInv w -> worldInv (snd (rebuildIndex w)).
Proof.
  intros [Hs Hf]. unfold rebuildIndex. apply setStore_save_inv; [|done].
  exact Hs.
Qed.

Lemma loadedMap_wf {V} (l : list (string * V)) :
  JsMap.wf l -> loadedMap l = PropertyOrder.ownEntries l /\ JsMap.wf (loadedMap l).
Proof.
  intros Hwf. unfold loadedMap, Object_entries, parsedObject.
  rewrite (JsMapFacts.ofEntries_wf l Hwf).
  pose proof (PropertyOrderFacts.ownEntries_wf l Hwf) as Hwf'.
  by rewrite (JsMapFacts.ofEntries_wf _ Hwf').
Qed.

Lemma load_inv w : worldInv w -> worldInv (snd (load w)).
Proof.
  intros Hinv. pose proof Hinv as [Hs Hf]. unfold load. unfold_monad.
  destruct (file (disk w)) as [|code|[d|]] eqn:Ef; simpl.
  - exact Hinv.
  - destruct (String.eqb code "ENOENT"); exact Hinv.
  - split; [|simpl; by rewrite Ef].
    destruct Hf as (vs & ms & -> & -> & Hwf & Hk). simpl.
    assert (Hwfm : JsMap.wf ms) by (unfold JsMap.wf; by rewrite <- Hk).
    fold (loadedMap vs). fold (loadedMap ms).
    destruct (loadedMap_wf vs Hwf) as [-> Hv].
    destruct (loadedMap_wf ms Hwfm) as [-> Hm].
    split; simpl; [done|]. by apply PropertyOrderFacts.ownEntries_keys.
  - exact Hinv.
Qed.

Lemma initialize_inv w : worldInv w -> worldInv (snd (initialize w)).
Proof.
  intros Hinv. unfold initialize, tryCatch, bind.
  unfold mkdir at 1. unfold bind, gets.
  destruct (writeFault (disk w)) as [code|]; simpl.
  - split; [apply storeInv_empty|apply Hinv].
  - pose proof (load_inv w Hinv) as H.
    destruct (load w) as [[[]|e] w']; simpl in *; [done|].
    split; [apply storeInv_empty|apply H].
Qed.

Lemma exec_inv c w : worldInv w -> worldInv (exec zero c w).
Proof.
  intros Hinv. destruct c; simpl.
  - by apply addVector_inv.
  - by apply updateVector_inv.
  - by apply removeVector_inv.
  - by apply clear_inv.
  - by apply save_inv.
  - by apply load_inv.
  - by apply rebuildIndex_inv.
  - apply initialize_inv. split; [apply storeInv_empty|apply Hinv].
  - exact Hinv.
  - exact Hinv.
Qed.

Lemma run_inv cs w : worldInv w -> worldInv (run zero cs w).
Proof.
  revert w. induction cs as [|c cs IH]; intros w Hinv; simpl; [done|].
  apply IH. by apply exec_inv.
Qed.

Lemma freshWorld_inv d k : worldInv (freshWorld (num:=num) d k).
Proof. split; [apply storeInv_empty|done]. Qed.

Lemma reachable_inv cs d k : worldInv (run zero cs (freshWorld d k)).
Proof. apply run_inv, freshWorld_inv. Qed.

End StoreFacts.

(** ** The store: what each edit does *)

Section Edits.
Context {num : Type}.
Variable zero : num.
Implicit Types (w : @World num) (st : @VectorStore num).

Lemma addVector_reject id vector meta w :
  id = None \/ id = Some EmptyString \/ vector = None ->
  addVector zero id vector meta w
  = (Throw (PlainError "ID and vector are required"), w).
Proof.
  intros [-> | [-> | ->]]; unfold addVector, throw; simpl; [done| |].
  - by destruct vector.
  - by destruct id.
Qed.

Lemma addVector_accept i v meta w :
  i <> EmptyString ->
  exists st',
    vectors st' = JsMap.set i (adjust zero (dimension (store w)) v) (vectors (store w)) /\
    metadata st' = JsMap.set i (<["addedAt" := stamp w]> meta) (metadata (store w)) /\
    dimension st' = dimension (store w) /\ topK st' = topK (store w) /\
    addVector zero (Some i) (Some v) meta w = save (mkWorld st' (disk w) (clock w)).
Proof.
  intros Hne. unfold addVector.
  destruct (String.eqb_spec i EmptyString) as [|_]; [done|].
  eexists (mkStore _ _ _ _ _ _). repeat split; reflexivity.
Qed.

Lemma updateVector_absent id vector meta w :
  match id with Some i => JsMap.has i (vectors (store w)) | None => false end = false ->
  updateVector zero id vector meta w = addVector zero id vector meta w.
Proof. intros H. unfold updateVector, bind, gets. by rewrite H. Qed.

Lemma updateVector_present i v meta w :
  JsMap.has i (vectors (store w)) = true ->
  exists st',
    vectors st' = JsMap.set i (adjust zero (dimension (store w)) v) (vectors (store w)) /\
    metadata st'
    = JsMap.set i
        (<["updatedAt" := stamp w]>
           (meta ∪ default ∅ (JsMap.get i (metadata (store w)))))
        (metadata (store w)) /\
    dimension st' = dimension (store w) /\ topK st' = topK (store w) /\
    updateVector zero (Some i) (Some v) meta w = save (mkWorld st' (disk w) (clock w)).
Proof.
  intros H. unfold updateVector. unfold bind at 1. unfold gets at 1. rewrite H. simpl.
  eexists (mkStore _ _ _ _ _ _). repeat split; reflexivity.
Qed.

Lemma removeVector_absent id w :
  storeInv (store w) -> JsMap.has id (vectors (store w)) = false ->
  removeVector id w = (Return false, w).
Proof.
  intros [Hwf Hk] H. unfold removeVector, bind, gets, setStore, modify, ret. simpl.
  rewrite H. f_equal.
  pose proof (proj1 (JsMapFacts.has_false_keys _ _) H) as Hv.
  assert (Hm : id ∉ JsMap.keys (metadata (store w))) by (by rewrite <- Hk).
  rewrite (JsMapFacts.remove_absent _ _ Hv), (JsMapFacts.remove_absent _ _ Hm).
  by destruct w as [[] ? ?].
Qed.

Lemma removeVector_present id w :
  JsMap.has id (vectors (store w)) = true ->
  exists st',
    vectors st' = JsMap.remove id (vectors (store w)) /\
    metadata st' = JsMap.remove id (metadata (store w)) /\
    dimension st' = dimension (store w) /\
    removeVector id w
    = match save (mkWorld st' (disk w) (clock w)) with
      | (Return _, w') => (Return true, w')
      | (Throw e, w') => (Throw e, w')
      end.
Proof.
  intros H. unfold removeVector, bind, gets, setStore, modify, ret. simpl. rewrite H.
  eexists (mkStore _ _ _ _ _ _). repeat split; reflexivity.
Qed.

End Edits.

(** ** The edits of the store *)

Section EditClaims.
Context {num : Type}.
Variable zero : num.
Implicit Types (w : @World num) (st : @VectorStore num).

Lemma save_throw_only_fault w e w' :
  save w = (Throw e, w') -> writeFault (disk w) = Some (default EmptyString (errorCode e))
                            /\ e = FsError (default EmptyString (errorCode e)).
Proof.
  destruct (save_cases w) as [[_ ->]|(c & Hc & ->)]; [discriminate|].
  intros [= <- <-]. simpl. done.
Qed.

(** C4, in the form the code satisfies: [addVector] rejects with a
    validation error, leaving the whole world (store in memory and snapshot
    on disk) as it was, when the id is missing or empty or the vector is
    missing. In every other case -- an empty vector included -- it stores
    the vector adjusted to the configured dimension; it then fails only if
    the snapshot cannot be written, and otherwise returns with the snapshot
    of the new store on disk. *)
Theorem addVector_validation w id vector meta :
  (id = None \/ id = Some EmptyString \/ vector = None ->
     exists e, isValidationError e = true /\
               addVector zero id vector meta w = (Throw e, w))
  /\ (forall i v, id = Some i -> i <> EmptyString -> vector = Some v ->
        let r := addVector zero id vector meta w in
        getVector (store (snd r)) i = Some (adjust zero (dimension (store w)) v)
        /\ length (adjust zero (dimension (store w)) v) = dimension (store w)
        /\ (forall e, fst r = Throw e ->
              exists code, e = FsError code /\ writeFault (disk w) = Some code)
        /\ (writeFault (disk w) = None ->
              fst r = Return tt /\
              file (disk (snd r))
              = Text (Json (snapshotData (store (snd r)) (toISOString (clock w)))))).
Proof.
  split.
  - intros H. eexists. split; [|by apply addVector_reject]. done.
  - intros i v -> Hne -> r. subst r.
    destruct (addVector_accept zero i v meta w Hne) as (st' & Hv & Hm & Hd & Hk & ->).
    set (wm := mkWorld st' (disk w) (clock w)).
    split; [|split; [apply length_adjust|split]].
    + rewrite save_store. unfold getVector. simpl. rewrite Hv.
      apply JsMapFacts.get_set_eq.
    + intros e He. destruct (save wm) as [o w'] eqn:Es. simpl in He. subst o.
      destruct (save_throw_only_fault _ _ _ Es) as [Hf He]. eauto.
    + intros Hf. rewrite (save_ok wm Hf). done.
Qed.

(** C3, in the form the code satisfies: on an id that already has a record,
    [addVector] overwrites the vector and replaces the metadata by the
    supplied metadata with its [addedAt]; [updateVector] overwrites the
    vector and merges the supplied metadata into the existing one (an
    existing key the new metadata does not name keeps its value, [updatedAt]
    apart). Neither adds a record: the keys of both maps stay as they were. *)
Theorem existing_id_overwrite w i v meta :
  i <> EmptyString -> JsMap.has i (vectors (store w)) = true ->
  let old := default ∅ (JsMap.get i (metadata (store w))) in
  let wa := snd (addVector zero (Some i) (Some v) meta w) in
  let wu := snd (updateVector zero (Some i) (Some v) meta w) in
  (getVector (store wa) i = Some (adjust zero (dimension (store w)) v)
   /\ JsMap.get i (metadata (store wa)) = Some (<["addedAt" := stamp w]> meta)
   /\ JsMap.keys (vectors (store wa)) = JsMap.keys (vectors (store w)))
  /\ (getVector (store wu) i = Some (adjust zero (dimension (store w)) v)
      /\ (exists m', JsMap.get i (metadata (store wu)) = Some m'
            /\ m' !! "updatedAt" = Some (stamp w)
            /\ forall key, key <> "updatedAt" ->
                 m' !! key = match meta !! key with
                             | Some x => Some x
                             | None => old !! key
                             end)
      /\ JsMap.keys (vectors (store wu)) = JsMap.keys (vectors (store w))).
Proof.
  intros Hne Hhas old wa wu. split.
  - subst wa. destruct (addVector_accept zero i v meta w Hne) as (st' & Hv & Hm & _ & _ & ->).
    rewrite save_store. unfold getVector. simpl. rewrite Hv, Hm.
    rewrite !JsMapFacts.get_set_eq, JsMapFacts.keys_set, Hhas. done.
  - subst wu. destruct (updateVector_present zero i v meta w Hhas) as (st' & Hv & Hm & _ & _ & ->).
    rewrite save_store. unfold getVector. simpl. rewrite Hv, Hm.
    rewrite !JsMapFacts.get_set_eq, JsMapFacts.keys_set, Hhas.
    split; [done|]. split; [|done].
    eexists. split; [reflexivity|]. split.
    + apply lookup_insert_eq.
    + intros key Hkey. rewrite lookup_insert_ne by done.
      fold old. rewrite lookup_union. destruct (meta !! key), (old !! key); done.
Qed.

(** C9: in every reachable state, [removeVector(id)] on an id the store
    does not hold returns [false] and changes nothing, in memory or on disk
    (no snapshot is written, so its content and [savedAt] stay); on an id
    it holds, the record leaves both maps, the other records stay, and --
    the disk being writable -- it returns [true] with the snapshot of the
    new store written. *)
Theorem removeVector_frame cs d k id :
  let w := run zero cs (freshWorld d k) in
  let r := removeVector id w in
  (JsMap.has id (vectors (store w)) = false -> r = (Return false, w))
  /\ (JsMap.has id (vectors (store w)) = true ->
        getVector (store (snd r)) id = None
        /\ JsMap.get id (metadata (store (snd r))) = None
        /\ (forall j, j <> id ->
              getVector (store (snd r)) j = getVector (store w) j
              /\ JsMap.get j (metadata (store (snd r))) = JsMap.get j (metadata (store w)))
        /\ (writeFault (disk w) = None ->
              fst r = Return true /\
              file (disk (snd r))
              = Text (Json (snapshotData (store (snd r)) (toISOString (clock w)))))).
Proof.
  intros w r. pose proof (reachable_inv zero cs d k) as [Hs _]. fold w in Hs.
  split.
  - intros H. by apply removeVector_absent.
  - intros H. subst r.
    destruct (removeVector_present id w H) as (st' & Hv & Hm & _ & ->).
    set (wm := mkWorld st' (disk w) (clock w)).
    assert (Hst : store (snd (match save wm with
                              | (Return _, w') => (Return true, w')
                              | (Throw e, w') => (Throw e, w')
                              end)) = st').
    { pose proof (save_store wm) as Hss. by destruct (save wm) as [[[]|e] w']. }
    rewrite Hst. unfold getVector. rewrite Hv, Hm.
    split; [by apply JsMapFacts.get_remove_eq, Hs|].
    split; [by apply JsMapFacts.get_remove_eq, storeInv_metadata_wf|].
    split.
    + intros j Hj. by rewrite !JsMapFacts.get_remove_ne.
    + intros Hf. rewrite (save_ok wm Hf). done.
Qed.

End EditClaims.

(** Witness of [addVector_validation]: a valid call on an empty store. *)
Lemma addVector_validation_witness :
  getVector (store (snd (addVector 0%Z (Some "n1") (Some [7%Z]) ∅ Examples.w0))) "n1"
  = Some [7; 0; 0]%Z.
Proof.
  destruct (addVector_validation 0%Z Examples.w0 (Some "n1") (Some [7%Z]) ∅) as [_ H].
  destruct (H "n1" [7%Z] eq_refl ltac:(discriminate) eq_refl) as [Hv _].
  exact Hv.
Defined.

(** An empty vector is not rejected: it is stored as three zeros. *)
Lemma addVector_accepts_empty_vector :
  let r := addVector 0%Z (Some "n1") (Some []) ∅ Examples.w0 in
  fst r = Return tt /\ getVector (store (snd r)) "n1" = Some [0; 0; 0]%Z.
Proof. vm_compute. done. Qed.

(** Witness of [existing_id_overwrite]: the record [n1] of [w1]. *)
Lemma existing_id_overwrite_witness :
  JsMap.get "n1"
    (metadata (store (snd (addVector 0%Z (Some "n1") (Some [9%Z]) ∅ Examples.w1))))
  = Some (<["addedAt" := stamp Examples.w1]> ∅).
Proof.
  destruct (existing_id_overwrite 0%Z Examples.w1 "n1" [9%Z] ∅
              ltac:(discriminate) eq_refl) as [(_ & Hm & _) _].
  exact Hm.
Defined.

(** [addVector] on an existing id drops the metadata the record had. *)
Lemma addVector_drops_existing_metadata :
  let w' := snd (addVector 0%Z (Some "n1") (Some [9%Z]) ∅ Examples.w1) in
  (JsMap.get "n1" (metadata (store Examples.w1)) ≫= (.!! "category")) = Some (JStr "work")
  /\ (JsMap.get "n1" (metadata (store w')) ≫= (.!! "category")) = None.
Proof. vm_compute. done. Qed.

(** Witness of [removeVector_frame]: removing an unknown id from [w1]. *)
Lemma removeVector_frame_witness :
  removeVector "n9" Examples.w1 = (Return false, Examples.w1).
Proof.
  destruct (removeVector_frame 0%Z
              [AddVector (Some "n1") (Some [1; 2]%Z) Examples.work;
               Tick 5;
               AddVector (Some "n2") (Some [1; 2; 3; 4]%Z) ∅]
              (Some 3) None "n9") as [H _].
  exact (H eq_refl).
Defined.

(** ** Saving and loading *)

Section Persistence.
Context {num : Type}.
Variable zero : num.
Implicit Types (w : @World num) (st : @VectorStore num).

Lemma save_writeFault w : writeFault (disk (snd (save w))) = writeFault (disk w).
Proof. destruct (save_cases w) as [[H ->]|(c & _ & ->)]; simpl; done. Qed.

(** The shape of an edit: nothing, or a new store of the same dimension
    followed, or not, by [save()]. *)
Lemma edit_shape c w :
  isEdit c = true ->
  exists st',
    dimension st' = dimension (store w) /\
    (exec zero c w = w
     \/ exec zero c w = snd (save (mkWorld st' (disk w) (clock w)))
     \/ exec zero c w = mkWorld st' (disk w) (clock w)).
Proof.
  assert (Hadd : forall id vec meta,
    exists st', dimension st' = dimension (store w) /\
      (snd (addVector zero id vec meta w) = w
       \/ snd (addVector zero id vec meta w) = snd (save (mkWorld st' (disk w) (clock w)))
       \/ snd (addVector zero id vec meta w) = mkWorld st' (disk w) (clock w))).
  { intros id vec meta.
    destruct id as [i|]; [|exists (store w); split; [done|left];
                            by rewrite addVector_reject by auto].
    destruct vec as [v|]; [|exists (store w); split; [done|left];
                             by rewrite addVector_reject by auto].
    destruct (String.eqb_spec i EmptyString) as [->|Hne].
    - exists (store w). split; [done|left]. by rewrite addVector_reject by auto.
    - destruct (addVector_accept zero i v meta w Hne) as (st' & _ & _ & Hd & _ & ->).
      exists st'. split; [done|]. right. by left. }
  destruct c as [id vec meta|id vec meta|id| | | | | | |]; try discriminate;
    intros _; simpl.
  - apply Hadd.
  - destruct (match id with
              | Some i => JsMap.has i (vectors (store w))
              | None => false
              end) eqn:Hp.
    + destruct id as [i|]; [|discriminate].
      destruct vec as [v|].
      * destruct (updateVector_present zero i v meta w Hp) as (st' & _ & _ & Hd & _ & ->).
        exists st'. split; [done|]. right. by left.
      * exists (store w). split; [done|left].
        unfold updateVector, bind, gets. by rewrite Hp.
    + rewrite updateVector_absent by done. apply Hadd.
  - destruct (JsMap.has id (vectors (store w))) eqn:Hp.
    + destruct (removeVector_present id w Hp) as (st' & _ & _ & Hd & ->).
      exists st'. split; [done|]. right. left.
      by destruct (save _) as [[[]|e] w'].
    + eexists (mkStore _ _ _ _ _ _). split; [|right; right].
      2:{ unfold removeVector, bind, gets, setStore, modify, ret. simpl. rewrite Hp.
          reflexivity. }
      done.
Qed.

Lemma edit_writeFault c w :
  isEdit c = true -> writeFault (disk (exec zero c w)) = writeFault (disk w).
Proof.
  intros H. destruct (edit_shape c w H) as (st' & _ & [->|[->| ->]]); [done| |done].
  by rewrite save_writeFault.
Qed.

Lemma edits_writeFault cs w :
  forallb isEdit cs = true ->
  writeFault (disk (run zero cs w)) = writeFault (disk w).
Proof.
  revert w. induction cs as [|c cs IH]; intros w H; simpl in *; [done|].
  apply andb_prop in H as [Hc Hcs]. rewrite IH by done. by apply edit_writeFault.
Qed.

Lemma edit_dimension c w :
  isEdit c = true -> dimension (store (exec zero c w)) = dimension (store w).
Proof.
  intros H. destruct (edit_shape c w H) as (st' & Hd & [->|[->| ->]]); [done| |done].
  by rewrite save_store.
Qed.

Lemma edits_dimension cs w :
  forallb isEdit cs = true ->
  dimension (store (run zero cs w)) = dimension (store w).
Proof.
  revert w. induction cs as [|c cs IH]; intros w H; simpl in *; [done|].
  apply andb_prop in H as [Hc Hcs]. rewrite IH by done. by apply edit_dimension.
Qed.

(** Loading the snapshot [save()] wrote of a store in its invariant. *)
Lemma load_saved st st0 t f n :
  storeInv st ->
  exists st',
    load (mkWorld st0 (mkDisk (Text (Json (snapshotData st t))) f) n)
    = (Return tt, mkWorld st' (mkDisk (Text (Json (snapshotData st t))) f) n)
    /\ vectors st' ≡ₚ vectors st /\ metadata st' ≡ₚ metadata st
    /\ dimension st' = dimension st0 /\ topK st' = topK st0.
Proof.
  intros Hinv. pose proof (storeInv_metadata_wf st Hinv) as Hwm. destruct Hinv as [Hwv Hk].
  unfold load. unfold_monad. simpl.
  eexists (mkStore _ _ _ _ _ _). split; [reflexivity|]. simpl.
  unfold jsonMembers, Object_fromEntries.
  rewrite (JsMapFacts.ofEntries_wf (vectors st) Hwv).
  rewrite (JsMapFacts.ofEntries_wf (metadata st) Hwm).
  fold (loadedMap (PropertyOrder.ownEntries (vectors st))).
  fold (loadedMap (PropertyOrder.ownEntries (metadata st))).
  destruct (loadedMap_wf _ (PropertyOrderFacts.ownEntries_wf _ Hwv)) as [-> _].
  destruct (loadedMap_wf _ (PropertyOrderFacts.ownEntries_wf _ Hwm)) as [-> _].
  rewrite !PropertyOrderFacts.ownEntries_perm. done.
Qed.

(** C5: for every state reached by [addVector], [updateVector] and
    [removeVector] calls, [save()] succeeds and [load()] on a fresh store
    of the same dimension then succeeds and holds the same ids, with the
    same vector and the same metadata under each id.  [load()] on an absent
    file returns normally and leaves the store as it is (empty, for a fresh
    one); a read that fails otherwise, or text that does not parse, makes
    [load()] throw that error. *)
Theorem save_load_roundtrip cs d k k' :
  forallb isEdit cs = true ->
  let w := run zero cs (freshWorld d k) in
  let restarted := mkWorld (newVectorStore d k') (disk (snd (save w))) (clock w) in
  let r := load restarted in
  (fst (save w) = Return tt /\ fst r = Return tt
   /\ JsMap.keys (vectors (store (snd r))) ≡ₚ JsMap.keys (vectors (store w))
   /\ (forall id,
         getVector (store (snd r)) id = getVector (store w) id
         /\ JsMap.get id (metadata (store (snd r))) = JsMap.get id (metadata (store w)))
   /\ dimension (store (snd r)) = dimension (store w))
  /\ (forall (st : @VectorStore num) f n,
        load (mkWorld st (mkDisk Missing f) n)
        = (Return tt, mkWorld st (mkDisk Missing f) n))
  /\ (forall (st : @VectorStore num) code f n,
        code <> "ENOENT" ->
        load (mkWorld st (mkDisk (Faulty code) f) n)
        = (Throw (FsError code), mkWorld st (mkDisk (Faulty code) f) n))
  /\ (forall (st : @VectorStore num) f n,
        load (mkWorld st (mkDisk (Text Malformed) f) n)
        = (Throw SyntaxError, mkWorld st (mkDisk (Text Malformed) f) n)).
Proof.
  intros Hcs w restarted r. split; [|split; [|split]].
  - pose proof (reachable_inv zero cs d k) as [Hs _]. fold w in Hs.
    assert (Hf : writeFault (disk w) = None).
    { unfold w. by rewrite edits_writeFault. }
    assert (Hd : dimension (store w) = envOr d 1024).
    { unfold w. by rewrite edits_dimension. }
    subst r restarted. rewrite (save_ok w Hf). unfold saved. cbn [snd fst disk].
    destruct (load_saved (store w) (newVectorStore d k') (toISOString (clock w))
                None (clock w) Hs) as (st' & -> & Hpv & Hpm & Hdim & _).
    simpl. split; [done|]. split; [done|]. split; [|split].
    + unfold JsMap.keys. by rewrite Hpv.
    + intros id. unfold getVector. split; symmetry.
      * apply JsMapFacts.get_Permutation; [apply Hs|done].
      * apply JsMapFacts.get_Permutation; [by apply storeInv_metadata_wf|done].
    + by rewrite Hdim, Hd.
  - intros st f n. reflexivity.
  - intros st code f n Hne. unfold load. unfold_monad. simpl.
    destruct (String.eqb_spec code "ENOENT"); done.
  - intros st f n. reflexivity.
Qed.

End Persistence.

(** Witness of [save_load_roundtrip]: a store of two records survives a
    restart. *)
Lemma save_load_roundtrip_witness :
  let w := run 0%Z [AddVector (Some "n1") (Some [1; 2]%Z) Examples.work;
                    AddVector (Some "n2") (Some [1; 2; 3; 4]%Z) ∅]
               (freshWorld (Some 3) None) in
  let restarted := mkWorld (newVectorStore (Some 3) None) (disk (snd (save w))) (clock w) in
  getVector (store (snd (load restarted))) "n2" = Some [1; 2; 3]%Z.
Proof.
  intros w restarted.
  destruct (save_load_roundtrip 0%Z
              [AddVector (Some "n1") (Some [1; 2]%Z) Examples.work;
               AddVector (Some "n2") (Some [1; 2; 3; 4]%Z) ∅]
              (Some 3) None None eq_refl) as [(_ & _ & _ & H & _) _].
  destruct (H "n2") as [Hv _]. exact Hv.
Defined.

(** ** The dimension of the stored vectors *)

Section Dimension.
Context {num : Type}.
Variable zero : num.
Implicit Types (w : @World num) (st : @VectorStore num).

Lemma snapshot_members st t d :
  (forall i v, (i, v) ∈ vectors st -> length v = d) ->
  forall vs i v, doc_vectors (snapshotData st t) = Some vs -> (i, v) ∈ vs -> length v = d.
Proof.
  intros H vs i v [= <-] Hin. apply (H i).
  unfold jsonMembers, Object_fromEntries in Hin.
  rewrite PropertyOrderFacts.ownEntries_perm in Hin.
  by apply JsMapFacts.elem_of_ofEntries.
Qed.

Lemma save_dimInv d w : dimInv d w -> dimInv d (snd (save w)).
Proof.
  intros (Hd & Hv & Hf). destruct (save_cases w) as [[_ ->]|(c & _ & ->)]; simpl.
  - split; [done|]. split; [done|]. simpl.
    by apply (snapshot_members (store w) (toISOString (clock w)) d).
  - done.
Qed.

Lemma setStore_save_dimInv d (f : @VectorStore num -> @VectorStore num) w :
  dimInv d w -> dimension (f (store w)) = d ->
  (forall i v, (i, v) ∈ vectors (f (store w)) -> length v = d) ->
  dimInv d (snd ((let* _ := setStore f in save) w)).
Proof.
  intros (_ & _ & Hf) Hd Hv. unfold bind at 1. unfold setStore, modify. simpl.
  apply save_dimInv. split; [done|]. split; done.
Qed.

Lemma set_adjusted_dim d i (v : list num) (m : JsMap.t (list num)) :
  (forall j x, (j, x) ∈ m -> length x = d) ->
  forall j x, (j, x) ∈ JsMap.set i (adjust zero d v) m -> length x = d.
Proof.
  intros H j x Hin. destruct (JsMapFacts.elem_of_set _ _ _ _ Hin) as [[= -> ->]|Hin'].
  - apply length_adjust.
  - by apply (H j).
Qed.

Lemma addVector_dimInv d id vec meta w :
  dimInv d w -> dimInv d (snd (addVector zero id vec meta w)).
Proof.
  intros Hinv. unfold addVector.
  destruct id as [i|]; [|done]. destruct vec as [v|]; [|done].
  destruct (String.eqb i EmptyString); [done|].
  unfold bind at 1. unfold gets at 1. unfold bind at 1. unfold now, gets at 1.
  pose proof Hinv as (Hd & Hv & _).
  apply setStore_save_dimInv; [done|done|]. simpl. rewrite Hd.
  by apply set_adjusted_dim.
Qed.

Lemma updateVector_dimInv d id vec meta w :
  dimInv d w -> dimInv d (snd (updateVector zero id vec meta w)).
Proof.
  intros Hinv. unfold updateVector. unfold bind at 1. unfold gets at 1.
  destruct (negb _); [by apply addVector_dimInv|].
  destruct id as [i|]; [|done]. destruct vec as [v|]; [|done].
  unfold bind at 1. unfold gets at 1. unfold bind at 1. unfold now, gets at 1.
  pose proof Hinv as (Hd & Hv & _).
  apply setStore_save_dimInv; [done|done|]. simpl. rewrite Hd.
  by apply set_adjusted_dim.
Qed.

Lemma removeVector_dimInv d id w :
  dimInv d w -> dimInv d (snd (removeVector id w)).
Proof.
  intros (Hd & Hv & Hf). unfold removeVector.
  unfold bind at 1. unfold gets at 1. unfold bind at 1. unfold setStore, modify at 1.
  set (w' := mkWorld _ _ _).
  assert (Hw' : dimInv d w').
  { split; [done|]. split; [|done]. simpl. intros i v Hin.
    apply (Hv i). by apply JsMapFacts.elem_of_remove in Hin. }
  unfold bind. destruct (fst (JsMap.delete id (vectors (store w)))).
  - pose proof (save_dimInv d w' Hw') as H. destruct (save w') as [[[]|e] w'']; exact H.
  - exact Hw'.
Qed.

Lemma load_dimInv d w : dimInv d w -> dimInv d (snd (load w)).
Proof.
  intros Hinv. pose proof Hinv as (Hd & Hv & Hf). unfold load. unfold_monad.
  destruct (file (disk w)) as [|code|[doc|]] eqn:Ef; simpl.
  - exact Hinv.
  - destruct (String.eqb code "ENOENT"); exact Hinv.
  - split; [done|]. split; [|simpl; by rewrite Ef]. simpl.
    intros i v Hin. apply JsMapFacts.elem_of_ofEntries in Hin.
    unfold Object_entries, parsedObject in Hin.
    rewrite PropertyOrderFacts.ownEntries_perm in Hin.
    apply JsMapFacts.elem_of_ofEntries in Hin.
    destruct (doc_vectors doc) as [vs|] eqn:Ev; simpl in Hin.
    + by apply (Hf vs i).
    + by apply elem_of_nil in Hin.
  - exact Hinv.
Qed.

Lemma emptied_dimInv d w ix ids :
  dimInv d w ->
  dimInv d (mkWorld (mkStore [] [] (dimension (store w)) (topK (store w)) ix ids)
                    (disk w) (clock w)).
Proof.
  intros (Hd & _ & Hf). split; [done|]. split; [|done].
  intros i v Hin. by apply elem_of_nil in Hin.
Qed.

Lemma initialize_dimInv d w : dimInv d w -> dimInv d (snd (initialize w)).
Proof.
  intros Hinv. unfold initialize, tryCatch, bind.
  unfold mkdir at 1. unfold bind, gets.
  destruct (writeFault (disk w)) as [code|]; simpl.
  - by apply emptied_dimInv.
  - pose proof (load_dimInv d w Hinv) as H.
    destruct (load w) as [[[]|e] w']; simpl in *; [done|].
    by apply emptied_dimInv.
Qed.

Lemma exec_dimInv d c w :
  keepsDimension d c -> dimInv d w -> dimInv d (exec zero c w).
Proof.
  intros Hc Hinv. destruct c as [id vec meta|id vec meta|id| | | | |ed ek|n|fault]; simpl.
  - by apply addVector_dimInv.
  - by apply updateVector_dimInv.
  - by apply removeVector_dimInv.
  - unfold clear. destruct Hinv as (Hd & Hv & Hf).
    apply setStore_save_dimInv; [done|done|].
    intros i v Hin. by apply elem_of_nil in Hin.
  - by apply save_dimInv.
  - by apply load_dimInv.
  - unfold rebuildIndex. destruct Hinv as (Hd & Hv & Hf).
    apply setStore_save_dimInv; done.
  - apply initialize_dimInv. destruct Hinv as (Hd & Hv & Hf).
    split; [exact Hc|]. split; [|done].
    intros i v Hin. by apply elem_of_nil in Hin.
  - exact Hinv.
  - exact Hinv.
Qed.

(** As long as the process is not restarted with another dimension,
    every vector of the store has the configured dimension. *)
Lemma run_dimInv cs (d k : option nat) :
  Forall (keepsDimension (envOr d 1024)) cs ->
  let w := run zero cs (freshWorld d k) in
  dimension (store w) = envOr d 1024
  /\ forall i v, getVector (store w) i = Some v -> length v = envOr d 1024.
Proof.
  intros Hcs w.
  assert (Hinv : dimInv (envOr d 1024) w).
  { unfold w. clear w.
    assert (G : forall w0 : @World num,
               dimInv (envOr d 1024) w0 -> dimInv (envOr d 1024) (run zero cs w0)).
    { induction Hcs as [|c cs Hc _ IH]; intros w0 Hw0; simpl; [done|].
      apply IH. by apply exec_dimInv. }
    apply G. split; [done|]. split; [|done].
    intros i v Hin. by apply elem_of_nil in Hin. }
  destruct Hinv as (Hd & Hv & _). split; [done|].
  intros i v Hget. apply (Hv i). by apply JsMapFacts.get_In.
Qed.

End Dimension.

(** ** The stable sort *)

Section SortFacts.
Context {A : Type}.
Variable after : A -> A -> bool.
Implicit Types (l s : list A) (x y a b : A).

Lemma insertStable_perm x s : insertStable after x s ≡ₚ x :: s.
Proof.
  induction s as [|y s IH]; simpl; [done|].
  destruct (after x y); [|done]. rewrite IH. apply perm_swap.
Qed.

Lemma sortStable_perm l : sortStable after l ≡ₚ l.
Proof.
  induction l as [|x l IH]; simpl; [done|].
  rewrite insertStable_perm. by rewrite IH.
Qed.

Lemma length_sortStable l : length (sortStable after l) = length l.
Proof. by rewrite sortStable_perm. Qed.

Section Sorted.
Variable rel : A -> A -> Prop.
Hypothesis rel_keep : forall x y, after x y = false -> rel x y.
Hypothesis rel_swap : forall x y, after x y = true -> rel y x.
Hypothesis rel_trans : forall x y z, rel x y -> rel y z -> rel x z.

Lemma insertStable_sorted x s :
  StronglySorted rel s -> StronglySorted rel (insertStable after x s).
Proof.
  induction 1 as [|y s Hs IH Hy]; simpl.
  - repeat constructor.
  - destruct (after x y) eqn:E.
    + constructor; [done|]. rewrite insertStable_perm. constructor; [|done].
      by apply rel_swap.
    + constructor; [by constructor|]. constructor; [by apply rel_keep|].
      eapply Forall_impl; [exact Hy|]. intros z Hz. simpl in *.
      eapply rel_trans; [|exact Hz]. by apply rel_keep.
Qed.

Lemma sortStable_sorted l : StronglySorted rel (sortStable after l).
Proof.
  induction l as [|x l IH]; simpl; [constructor|]. by apply insertStable_sorted.
Qed.
End Sorted.

(** The same, for a comparator that is only known to be consistent on the
    elements that satisfy [P]. *)
Section SortedOn.
Variable rel : A -> A -> Prop.
Variable P : A -> Prop.
Hypothesis rel_keep : forall x y, P x -> P y -> after x y = false -> rel x y.
Hypothesis rel_swap : forall x y, P x -> P y -> after x y = true -> rel y x.
Hypothesis rel_trans : forall x y z, P x -> P y -> P z -> rel x y -> rel y z -> rel x z.

Lemma insertStable_sorted_on x s :
  P x -> Forall P s -> StronglySorted rel s ->
  StronglySorted rel (insertStable after x s).
Proof.
  intros Hx Hall Hs. induction Hs as [|y s Hs IH Hy]; simpl.
  - repeat constructor.
  - apply Forall_cons in Hall as [Hpy Hall].
    destruct (after x y) eqn:E.
    + constructor; [by apply IH|]. rewrite insertStable_perm. constructor; [|done].
      by apply rel_swap.
    + constructor; [by constructor|]. constructor; [by apply rel_keep|].
      rewrite Forall_forall in Hy, Hall. apply Forall_forall. intros z Hz.
      apply (rel_trans x y z); auto.
Qed.

Lemma sortStable_sorted_on l :
  Forall P l -> StronglySorted rel (sortStable after l).
Proof.
  induction l as [|x l IH]; simpl; [constructor|]. intros Hall.
  apply Forall_cons in Hall as [Hx Hall].
  apply insertStable_sorted_on; [done| |by apply IH].
  by rewrite sortStable_perm.
Qed.
End SortedOn.

Lemma StronglySorted_take (rel : A -> A -> Prop) n l :
  StronglySorted rel l -> StronglySorted rel (take n l).
Proof.
  intros H. revert n. induction H as [|x l Hl IH Hx]; intros [|n]; simpl;
    try constructor; [apply IH|].
  apply Forall_forall. intros y Hy. rewrite Forall_forall in Hx. apply Hx.
  by apply (subseteq_take n l).
Qed.

Lemma precedes_elem a b l : precedes a b l -> a ∈ l /\ b ∈ l.
Proof.
  induction 1 as [l Hb|x l _ [Ha Hb]].
  - split; [left|by right].
  - split; by right.
Qed.

Lemma precedes_insertStable a b x s :
  precedes a b (insertStable after x s) ->
  precedes a b s \/ (a = x /\ b ∈ s) \/ (b = x /\ a ∈ s /\ after x a = true).
Proof.
  induction s as [|y s IH]; simpl.
  - inversion 1 as [l Hb|z l Hp]; subst.
    + by apply elem_of_nil in Hb.
    + inversion Hp.
  - destruct (after x y) eqn:E.
    + inversion 1 as [l Hb|z l Hp]; subst.
      * rewrite insertStable_perm in Hb. apply elem_of_cons in Hb as [->|Hb].
        -- right. right. split; [done|]. split; [left|done].
        -- left. by constructor.
      * destruct (IH Hp) as [H1|[[-> H2]|(-> & H3 & H4)]].
        -- left. by apply precedes_later.
        -- right. left. split; [done|]. by right.
        -- right. right. split; [done|]. split; [by right|done].
    + inversion 1 as [l Hb|z l Hp]; subst.
      * right. left. done.
      * by left.
Qed.

(** Stability: an element that comes out before another without the
    comparator asking for it was already before it. *)
Lemma precedes_sortStable a b l :
  precedes a b (sortStable after l) -> after b a = false -> precedes a b l.
Proof.
  induction l as [|x l IH]; simpl; [done|].
  intros Hp Hba. destruct (precedes_insertStable _ _ _ _ Hp) as [H1|[[-> H2]|(-> & H3 & H4)]].
  - apply precedes_later. by apply IH.
  - apply precedes_here. by rewrite sortStable_perm in H2.
  - congruence.
Qed.

Lemma precedes_take a b n l : precedes a b (take n l) -> precedes a b l.
Proof.
  revert n. induction l as [|x l IH]; intros [|n]; simpl; try (by inversion 1).
  inversion 1 as [l' Hb|z l' Hp]; subst.
  - apply precedes_here. by apply (subseteq_take n l).
  - apply precedes_later. by eapply IH.
Qed.

End SortFacts.

(** ** [search] *)

Module SearchFacts.
Import Similarity Search.

Section Scan.
Variable st : @VectorStore R.
Variable filter : Filter.
Variable nq : Vec.

Lemma scan_elem r entries :
  r ∈ scan st filter nq entries ->
  exists v,
    (id r, v) ∈ entries
    /\ excluded filter (id r) = false
    /\ categoryMismatch filter (JsMap.get (id r) (metadata st)) = false
    /\ score r = dotProduct nq (normalizeVector v)
    /\ meta r = default ∅ (JsMap.get (id r) (metadata st)).
Proof.
  induction entries as [|[i v] entries IH]; simpl.
  - intros H. by apply elem_of_nil in H.
  - destruct (excluded filter i) eqn:Ex.
    { intros H. destruct (IH H) as (v' & Hin & Hrest). exists v'. split; [by right|done]. }
    destruct (categoryMismatch filter (JsMap.get i (metadata st))) eqn:Ec.
    { intros H. destruct (IH H) as (v' & Hin & Hrest). exists v'. split; [by right|done]. }
    intros H. apply elem_of_cons in H as [->|H].
    + exists v. simpl. split; [left|done].
    + destruct (IH H) as (v' & Hin & Hrest). exists v'. split; [by right|done].
Qed.

Lemma scan_ids r entries :
  r ∈ scan st filter nq entries -> id r ∈ map fst entries.
Proof.
  intros H. destruct (scan_elem r entries H) as (v & Hin & _).
  by apply (list_elem_of_fmap_2 fst) in Hin.
Qed.

(** [scan] keeps the order of the entries. *)
Lemma precedes_scan a b entries :
  precedes a b (scan st filter nq entries) ->
  precedes (id a) (id b) (map fst entries).
Proof.
  induction entries as [|[i v] entries IH]; simpl; [by inversion 1|].
  destruct (excluded filter i).
  { intros H. apply precedes_later. by apply IH. }
  destruct (categoryMismatch filter (JsMap.get i (metadata st))).
  { intros H. apply precedes_later. by apply IH. }
  inversion 1 as [l Hb|z l Hp]; subst; simpl.
  - apply precedes_here. by apply scan_ids.
  - apply precedes_later. by apply IH.
Qed.

Lemma length_scan entries : length (scan st filter nq entries) <= length entries.
Proof.
  induction entries as [|[i v] entries IH]; simpl; [done|].
  destruct (excluded filter i); [lia|].
  destruct (categoryMismatch filter _); simpl; lia.
Qed.

End Scan.

Lemma scan_ids_sublist st filter nq entries :
  map id (scan st filter nq entries) `sublist_of` map fst entries.
Proof.
  induction entries as [|[i v] entries IH]; simpl; [constructor|].
  destruct (excluded filter i); [by constructor|].
  destruct (categoryMismatch filter _); simpl; by constructor.
Qed.

(** No id is returned twice. *)
Lemma search_ids_NoDup st q k filter results :
  JsMap.wf (vectors st) -> search st q k filter = Return results ->
  NoDup (map id results).
Proof.
  intros Hwf Hs. destruct q as [[|q0 qs]|]; try discriminate. injection Hs as <-.
  eapply sublist_NoDup; [|apply (fmap_sublist id), sublist_take].
  rewrite sortStable_perm.
  eapply sublist_NoDup; [exact Hwf|apply scan_ids_sublist].
Qed.

Lemma length_scan_noFilter st nq entries :
  length (scan st noFilter nq entries) = length entries.
Proof. induction entries as [|[i v] entries IH]; simpl; [done|]. by rewrite IH. Qed.

Lemma positive_true x : positive x = true <-> (0 < x)%R.
Proof. unfold positive. destruct (Rlt_dec 0 x); split; (done || congruence). Qed.

Lemma positive_false x : positive x = false <-> (x <= 0)%R.
Proof.
  unfold positive. destruct (Rlt_dec 0 x); split; try done; try lra.
Qed.

Lemma search_sorted l :
  StronglySorted descending (sortStable (fun a b => positive (byScoreDesc a b)) l).
Proof.
  apply sortStable_sorted; unfold descending, byScoreDesc.
  - intros x y H. apply positive_false in H. lra.
  - intros x y H. apply positive_true in H. lra.
  - intros x y z. lra.
Qed.

Lemma excluded_false filter i ids :
  excluded filter i = false -> excludeIds filter = Some ids -> i ∉ ids.
Proof.
  unfold excluded. intros H E Hin. rewrite E in H.
  assert (existsb (String.eqb i) ids = true); [|congruence].
  apply existsb_exists. exists i. split; [by apply list_elem_of_In|apply String.eqb_refl].
Qed.

Lemma categoryMismatch_false filter m c :
  categoryMismatch filter m = false -> category filter = Some c -> truthy c = true ->
  m ≫= (.!! "category") = Some c.
Proof.
  unfold categoryMismatch. intros H E Ht. rewrite E, Ht in H. simpl in H.
  apply negb_false_iff, bool_decide_eq_true in H. exact H.
Qed.

(** The number of results: [k], or the configured default when [k] is 0
    or missing, unless fewer records are eligible. *)
Lemma search_length st q qs k filter :
  exists results,
    search st (Some (q :: qs)) k filter = Return results /\
    length results
    = Nat.min (effectiveK st k)
        (length (scan st filter (normalizeVector (q :: qs)) (vectors st))).
Proof.
  eexists. split; [reflexivity|]. unfold slice0.
  by rewrite length_take, length_sortStable.
Qed.

(** C1, in the form the code satisfies: a missing or empty query is rejected
    with a validation error. For a non-empty query the call returns at most
    [k] results when [k] is positive, and at most the configured default
    when [k] is 0 or missing; the results are in descending order of score;
    none has an id of [filter.excludeIds], and each has the category of a
    (non-empty) [filter.category]; each is a record of the store with, as
    score, the dot product of the normalised query and the normalised stored
    vector, and with the metadata of the record; and of two results with the
    same score the one listed first was inserted first. *)
Theorem search_ranked (st : @VectorStore R) (k : option nat) (filter : Filter) :
  JsMap.wf (vectors st) ->
  (exists e, isValidationError e = true /\
             search st None k filter = Throw e /\ search st (Some []) k filter = Throw e)
  /\ forall q, q <> [] ->
       exists results,
         search st (Some q) k filter = Return results
         /\ length results <= effectiveK st k
         /\ (forall n, k = Some (S n) -> length results <= S n)
         /\ ((k = None \/ k = Some 0) -> length results <= topK st)
         /\ StronglySorted descending results
         /\ (forall r, r ∈ results ->
               (forall ids, excludeIds filter = Some ids -> id r ∉ ids)
               /\ (forall c, category filter = Some c -> truthy c = true ->
                     JsMap.get (id r) (metadata st) ≫= (.!! "category") = Some c)
               /\ (exists v, JsMap.get (id r) (vectors st) = Some v
                     /\ score r = dotProduct (normalizeVector q) (normalizeVector v))
               /\ meta r = default ∅ (JsMap.get (id r) (metadata st)))
         /\ (forall a b, precedes a b results -> score a = score b ->
               precedes (id a) (id b) (JsMap.keys (vectors st))).
Proof.
  intros Hwf. split.
  - eexists. split; [|split; reflexivity]. done.
  - intros [|q0 qs] Hq; [done|]. clear Hq.
    eexists. split; [reflexivity|].
    set (nq := normalizeVector (q0 :: qs)).
    set (sorted := sortStable _ _).
    assert (Hlen : length (slice0 (effectiveK st k) sorted) <= effectiveK st k).
    { unfold slice0. rewrite length_take. lia. }
    split; [exact Hlen|]. split; [|split; [|split; [|split]]].
    + intros n ->. exact Hlen.
    + intros [->| ->]; exact Hlen.
    + apply StronglySorted_take, search_sorted.
    + intros r Hr. apply (subseteq_take (effectiveK st k) sorted) in Hr.
      unfold sorted in Hr. rewrite sortStable_perm in Hr.
      destruct (scan_elem st filter nq r _ Hr) as (v & Hin & Hex & Hcat & Hscore & Hmeta).
      split; [|split; [|split]].
      * intros ids. by apply excluded_false.
      * intros c. by apply categoryMismatch_false.
      * exists v. split; [by apply JsMapFacts.In_get|done].
      * done.
    + intros a b Hp Hscore. apply precedes_take in Hp.
      apply precedes_sortStable in Hp.
      * by apply precedes_scan in Hp.
      * apply positive_false. unfold byScoreDesc. lra.
Qed.

End SearchFacts.

(** Witness of [search_ranked]: a query on [unitStore]. *)
Lemma search_ranked_witness :
  exists results,
    Search.search unitStore (Some [1%R]) (Some 3) Search.noFilter = Return results
    /\ length results <= 3.
Proof.
  assert (Hwf : JsMap.wf (vectors unitStore)).
  { apply NoDup_cons. split; [apply not_elem_of_nil|apply NoDup_nil_2]. }
  destruct (SearchFacts.search_ranked unitStore (Some 3) Search.noFilter Hwf) as [_ H].
  destruct (H [1%R] ltac:(discriminate)) as (results & Hr & Hlen & _).
  exists results. split; [exact Hr|exact Hlen].
Defined.

(** Asked for at most 0 results, [search] falls back to the default count
    and returns the one record the store holds. *)
Lemma search_zero_k_returns_results :
  exists results,
    Search.search unitStore (Some [1%R]) (Some 0) Search.noFilter = Return results
    /\ length results = 1.
Proof.
  destruct (SearchFacts.search_length unitStore 1%R [] (Some 0) Search.noFilter)
    as (results & Hr & Hlen).
  exists results. split; [exact Hr|].
  rewrite Hlen, SearchFacts.length_scan_noFilter. reflexivity.
Qed.

(** ** Similarity: dot product of unit vectors and cosine similarity *)

Module SimilarityFacts.
Import Similarity.
Local Open Scope R_scope.

(** The unrolled loop adds the same products in the same order as the
    plain loop. *)
Lemma dotUnrolled_dotTail_upto n :
  forall sum vecA vecB, (length vecA <= n)%nat ->
    dotUnrolled sum vecA vecB = dotTail sum vecA vecB.
Proof.
  induction n as [n IH] using lt_wf_ind. intros sum vecA vecB Hn.
  destruct vecA as [|a0 [|a1 [|a2 [|a3 vecA]]]]; try reflexivity;
    destruct vecB as [|b0 [|b1 [|b2 [|b3 vecB]]]]; try reflexivity.
  simpl in *. apply (IH (length vecA)); lia.
Qed.

Lemma dotUnrolled_dotTail sum vecA vecB :
  dotUnrolled sum vecA vecB = dotTail sum vecA vecB.
Proof. by apply (dotUnrolled_dotTail_upto (length vecA)). Qed.

Lemma dotTail_scaled ma mb sum vecA vecB :
  ma <> 0 -> mb <> 0 ->
  dotTail (sum / (ma * mb)) (map (fun v => v / ma) vecA) (map (fun v => v / mb) vecB)
  = dotTail sum vecA vecB / (ma * mb).
Proof.
  intros Ha Hb. revert sum vecB.
  induction vecA as [|a vecA IH]; intros sum [|b vecB]; simpl; try reflexivity.
  rewrite <- IH. f_equal. field. done.
Qed.

Lemma cosineLoop_equal_length dot normA normB vecA vecB :
  length vecA = length vecB ->
  cosineLoop dot normA normB vecA vecB
  = (dotTail dot vecA vecB,
     fold_left (fun m x => m + x * x) vecA normA,
     fold_left (fun m x => m + x * x) vecB normB).
Proof.
  revert dot normA normB vecB.
  induction vecA as [|a vecA IH]; intros dot normA normB [|b vecB]; simpl;
    try done.
  intros [= H]. by apply IH.
Qed.

(** C8, in the form the code satisfies: for two vectors of the same length,
    both of non-zero magnitude, the dot product of their normalised forms is
    their cosine similarity. *)
Theorem dotProduct_normalized_cosine (vecA vecB : Vec) :
  length vecA = length vecB ->
  magnitude vecA <> 0 -> magnitude vecB <> 0 ->
  dotProduct (normalizeVector vecA) (normalizeVector vecB)
  = cosineSimilarity vecA vecB.
Proof.
  intros Hlen Ha Hb. unfold cosineSimilarity.
  rewrite (cosineLoop_equal_length 0 0 0 vecA vecB Hlen).
  fold (sumSquares vecA). fold (sumSquares vecB).
  fold (magnitude vecA). fold (magnitude vecB).
  unfold normalizeVector, dotProduct.
  destruct (Req_dec_T (magnitude vecA) 0) as [|_]; [done|].
  destruct (Req_dec_T (magnitude vecB) 0) as [|_]; [done|].
  rewrite dotUnrolled_dotTail.
  replace 0 with (0 / (magnitude vecA * magnitude vecB)) at 1 by (field; done).
  by apply dotTail_scaled.
Qed.

Lemma sqrt_of_square x y : 0 <= y -> x = y * y -> sqrt x = y.
Proof. intros Hy ->. by apply sqrt_square. Qed.

Lemma magnitude_3_4 : magnitude [3; 4] = 5.
Proof. unfold magnitude, sumSquares. simpl. apply sqrt_of_square; lra. Qed.

Lemma magnitude_4_3 : magnitude [4; 3] = 5.
Proof. unfold magnitude, sumSquares. simpl. apply sqrt_of_square; lra. Qed.

Lemma magnitude_1 : magnitude [1] = 1.
Proof. unfold magnitude, sumSquares. simpl. apply sqrt_of_square; lra. Qed.

End SimilarityFacts.

(** Witness of [dotProduct_normalized_cosine]: the vectors (3, 4) and
    (4, 3), both of magnitude 5. *)
Lemma dotProduct_normalized_cosine_witness :
  Similarity.dotProduct (Similarity.normalizeVector [3; 4]%R)
                        (Similarity.normalizeVector [4; 3]%R)
  = Similarity.cosineSimilarity [3; 4]%R [4; 3]%R.
Proof.
  apply SimilarityFacts.dotProduct_normalized_cosine.
  - reflexivity.
  - rewrite SimilarityFacts.magnitude_3_4. lra.
  - rewrite SimilarityFacts.magnitude_4_3. lra.
Defined.

(** With vectors of different lengths the two differ: for (1) and (3, 4)
    the dot product of the unit vectors is 3/5, the cosine similarity,
    taken over the shared first position, is 1. *)
Lemma dotProduct_cosine_differ_on_lengths :
  Similarity.magnitude [1]%R <> 0%R /\ Similarity.magnitude [3; 4]%R <> 0%R
  /\ Similarity.dotProduct (Similarity.normalizeVector [1]%R)
                           (Similarity.normalizeVector [3; 4]%R) = (3 / 5)%R
  /\ Similarity.cosineSimilarity [1]%R [3; 4]%R = 1%R
  /\ Similarity.dotProduct (Similarity.normalizeVector [1]%R)
                           (Similarity.normalizeVector [3; 4]%R)
     <> Similarity.cosineSimilarity [1]%R [3; 4]%R.
Proof.
  assert (H1 : Similarity.magnitude [1]%R = 1%R) by apply SimilarityFacts.magnitude_1.
  assert (H5 : Similarity.magnitude [3; 4]%R = 5%R) by apply SimilarityFacts.magnitude_3_4.
  assert (Hd : Similarity.dotProduct (Similarity.normalizeVector [1]%R)
                 (Similarity.normalizeVector [3; 4]%R) = (3 / 5)%R).
  { unfold Similarity.normalizeVector. rewrite H1, H5.
    destruct (Req_dec_T 1 0) as [|_]; [lra|]. destruct (Req_dec_T 5 0) as [|_]; [lra|].
    unfold Similarity.dotProduct. simpl. field. }
  assert (Hc : Similarity.cosineSimilarity [1]%R [3; 4]%R = 1%R).
  { unfold Similarity.cosineSimilarity. simpl.
    rewrite (SimilarityFacts.sqrt_of_square (0 + 1 * 1) 1) by lra.
    rewrite (SimilarityFacts.sqrt_of_square (0 + 3 * 3) 3) by lra.
    destruct (Req_dec_T 1 0) as [|_]; [lra|]. destruct (Req_dec_T 3 0) as [|_]; [lra|].
    field. }
  repeat split; try done.
  - rewrite H1. lra.
  - rewrite H5. lra.
  - rewrite Hd, Hc. lra.
Qed.

(** ** Hybrid ranking *)

Lemma sliceTo_count {A} (n : nat) (l : list A) :
  sliceTo (Some (Z.of_nat n)) l = take n l.
Proof.
  unfold sliceTo. destruct (Z.leb_spec 0 (Z.of_nat n)); [|lia].
  by rewrite Nat2Z.id.
Qed.

Lemma sliceTo_sublist {A} (e : option Z) (l : list A) : sliceTo e l `sublist_of` l.
Proof.
  destruct e as [z|]; simpl; [|apply sublist_nil_l].
  destruct (0 <=? z)%Z; apply sublist_take.
Qed.

Lemma sliceTo_subseteq {A} (e : option Z) (l : list A) : sliceTo e l ⊆ l.
Proof. apply sublist_subseteq, sliceTo_sublist. Qed.

Lemma sliceTo_length {A} (z : Z) (l : list A) :
  (0 <= z)%Z -> length (sliceTo (Some z) l) <= Z.to_nat z.
Proof.
  intros Hz. unfold sliceTo. destruct (Z.leb_spec 0 z); [|lia].
  rewrite length_take. lia.
Qed.

Lemma StronglySorted_sublist {A} (rel : A -> A -> Prop) (l k : list A) :
  l `sublist_of` k -> StronglySorted rel k -> StronglySorted rel l.
Proof.
  intros Hsub Hk. revert l Hsub.
  induction Hk as [|x k Hk IH Hx]; intros l Hsub.
  - apply sublist_nil_r in Hsub as ->. constructor.
  - inversion Hsub as [|y l1 k1 Hs|y l1 k1 Hs]; subst.
    + constructor; [by apply IH|].
      rewrite Forall_forall in Hx. apply Forall_forall. intros z Hz. apply Hx.
      by apply (sublist_subseteq _ _ Hs).
    + by apply IH.
Qed.

Lemma StronglySorted_precedes {A} (rel : A -> A -> Prop) (l : list A) a b :
  StronglySorted rel l -> precedes a b l -> rel a b.
Proof.
  intros Hs Hab. induction Hab as [l Hb|x l Hab IH].
  - apply StronglySorted_inv in Hs as [_ Hall].
    rewrite Forall_forall in Hall. exact (Hall b Hb).
  - apply StronglySorted_inv in Hs as [Hl _]. by apply IH.
Qed.

Lemma List_filter_sublist_of {A} (p : A -> bool) (l : list A) :
  List.filter p l `sublist_of` l.
Proof.
  induction l as [|x l IH]; simpl; [constructor|].
  destruct (p x); by constructor.
Qed.

Lemma elem_of_List_filter {A} (p : A -> bool) (l : list A) (x : A) :
  x ∈ List.filter p l <-> x ∈ l /\ p x = true.
Proof. rewrite !list_elem_of_In. apply filter_In. Qed.

Lemma existsb_eqb_elem (i : string) (ids : list string) :
  existsb (String.eqb i) ids = true <-> i ∈ ids.
Proof.
  rewrite existsb_exists. split.
  - intros (x & Hx & He). apply String.eqb_eq in He. subst. by apply list_elem_of_In.
  - intros H. exists i. split; [by apply list_elem_of_In|apply String.eqb_refl].
Qed.

Lemma existsb_eqb_not_elem (i : string) (ids : list string) :
  existsb (String.eqb i) ids = false <-> i ∉ ids.
Proof.
  rewrite <- existsb_eqb_elem. by destruct (existsb (String.eqb i) ids).
Qed.

(** ** The order of the doubles

    Subtraction and comparison of doubles other than NaN follow their
    values: [y - x] is positive exactly when the value of [x] is below
    that of [y], and [x <= y] exactly when the value of [x] is at most
    that of [y]. *)

Module Binary64Facts.
Import SpecFloat Binary64.

Local Open Scope Z_scope.

Local Abbreviation prec := FloatOps.prec.
Local Abbreviation emax := FloatOps.emax.

Lemma iter_pos_nat {A} (f : A -> A) (n : positive) : forall x,
  iter_pos f n x = Nat.iter (Pos.to_nat n) f x.
Proof.
  induction n as [n IH|n IH|]; intros x; cbn [iter_pos].
  - rewrite !IH, Pos2Nat.inj_xI, Nat.iter_succ_r.
    replace (2 * Pos.to_nat n)%nat with (Pos.to_nat n + Pos.to_nat n)%nat by lia.
    by rewrite Nat.iter_add.
  - rewrite !IH, Pos2Nat.inj_xO.
    replace (2 * Pos.to_nat n)%nat with (Pos.to_nat n + Pos.to_nat n)%nat by lia.
    by rewrite Nat.iter_add.
  - reflexivity.
Qed.

Lemma iter_shr_1_pos k : forall p r s,
  (k < Pos.to_nat (digits2_pos p))%nat ->
  exists p' r' s',
    Nat.iter k shr_1 (Build_shr_record (Zpos p) r s) = Build_shr_record (Zpos p') r' s'.
Proof.
  induction k as [|k IH]; intros p r s Hk.
  - by eexists _, _, _.
  - rewrite Nat.iter_succ_r. destruct p as [q|q|]; simpl in Hk.
    + apply IH. lia.
    + apply IH. lia.
    + lia.
Qed.

Lemma shr_fexp_pos p e l :
  emin <= e ->
  exists p' r' s' e',
    shr_fexp prec emax (Zpos p) e l = (Build_shr_record (Zpos p') r' s', e')
    /\ emin <= e'.
Proof.
  intros He. unfold shr_fexp, shr. cbn [Zdigits2].
  assert (Hrec : exists r s, shr_record_of_loc (Zpos p) l = Build_shr_record (Zpos p) r s).
  { destruct l as [|[]]; by eexists _, _. }
  destruct Hrec as (r & s & ->).
  destruct (fexp prec emax (Z.pos (digits2_pos p) + e) - e) as [|q|q] eqn:En.
  - by eexists _, _, _, _.
  - rewrite iter_pos_nat.
    assert (Hq : (Pos.to_nat q < Pos.to_nat (digits2_pos p))%nat).
    { unfold fexp, SpecFloat.emin, emin, SpecFloat.emin, FloatOps.prec, FloatOps.emax in *. lia. }
    destruct (iter_shr_1_pos _ p r s Hq) as (p' & r' & s' & ->).
    eexists _, _, _, _. split; [reflexivity|]. lia.
  - by eexists _, _, _, _.
Qed.

Lemma binary_round_aux_pos p e l :
  emin <= e -> positiveSF (binary_round_aux prec emax false (Zpos p) e l).
Proof.
  intros He. unfold binary_round_aux.
  destruct (shr_fexp_pos p e l He) as (p1 & r1 & s1 & e1 & -> & He1).
  cbn [shr_m].
  assert (Hround : exists p2, round_nearest_even (Z.pos p1)
                                (loc_of_shr_record (Build_shr_record (Z.pos p1) r1 s1))
                              = Zpos p2).
  { unfold round_nearest_even. destruct r1, s1; cbn [loc_of_shr_record];
      try (destruct (Z.even (Z.pos p1))); cbn [Z.add]; by eexists. }
  destruct Hround as (p2 & ->).
  destruct (shr_fexp_pos p2 e1 loc_Exact He1) as (p3 & r3 & s3 & e3 & -> & He3).
  cbn [shr_m]. destruct (e3 <=? emax - prec); constructor.
Qed.

Lemma binary_round_pos p e :
  emin <= e -> positiveSF (binary_round prec emax false p e).
Proof.
  intros He. unfold binary_round.
  destruct (shl_align p e (fexp prec emax (Z.pos (digits2_pos p) + e))) as [mz ez] eqn:Es.
  apply binary_round_aux_pos.
  unfold shl_align in Es.
  destruct (fexp prec emax (Z.pos (digits2_pos p) + e) - e) eqn:Ed;
    injection Es as <- <-; try done.
  unfold fexp, emin, SpecFloat.emin, FloatOps.prec, FloatOps.emax in *. lia.
Qed.

(** A rounded negative number is not positive. *)
Lemma binary_round_aux_neg m e l :
  SFltb (S754_zero false) (binary_round_aux prec emax true m e l) = false.
Proof.
  unfold binary_round_aux.
  destruct (shr_fexp prec emax m e l) as [mrs' e'].
  destruct (shr_fexp prec emax _ e' loc_Exact) as [mrs'' e''].
  destruct (shr_m mrs''); try done.
  by destruct (e'' <=? emax - prec).
Qed.

Lemma binary_round_neg p e :
  SFltb (S754_zero false) (binary_round prec emax true p e) = false.
Proof.
  unfold binary_round. destruct (shl_align _ _ _). apply binary_round_aux_neg.
Qed.

Lemma positiveSF_ltb r : positiveSF r -> SFltb (S754_zero false) r = true.
Proof. by destruct 1. Qed.


Lemma digits2_bound m : Zpos m < 2 ^ Zpos (digits2_pos m).
Proof.
  induction m as [m IH|m IH|]; cbn [digits2_pos]; [| |done];
    rewrite Pos2Z.inj_succ, Z.pow_succ_r by lia; lia.
Qed.

Lemma valid_finite s m e :
  valid_binary prec emax (S754_finite s m e) = true ->
  emin <= e <= emax - prec /\ Zpos (digits2_pos m) <= prec.
Proof.
  unfold valid_binary, bounded, canonical_mantissa. intros H.
  apply andb_true_iff in H as [Hc He].
  apply Z.eqb_eq in Hc. apply Z.leb_le in He.
  unfold fexp, emin, SpecFloat.emin, FloatOps.prec, FloatOps.emax in *. lia.
Qed.

Lemma finite_below_bound s m e :
  valid_binary prec emax (S754_finite s m e) = true ->
  0 < Zpos m * 2 ^ (e - emin) < bound.
Proof.
  intros H. apply valid_finite in H as [He Hd].
  pose proof (digits2_bound m) as Hm.
  assert (H1 : 2 ^ Zpos (digits2_pos m) <= 2 ^ prec) by (apply Z.pow_le_mono_r; lia).
  assert (H2 : 2 ^ (e - emin) <= 2 ^ (emax - prec - emin)) by (apply Z.pow_le_mono_r; lia).
  assert (H3 : 0 < 2 ^ (e - emin)) by (apply Z.pow_pos_nonneg; lia).
  assert (H4 : 2 ^ prec * 2 ^ (emax - prec - emin) = bound).
  { unfold bound.
    rewrite <- Z.pow_add_r
      by (unfold emin, SpecFloat.emin, FloatOps.prec, FloatOps.emax; lia).
    f_equal; lia. }
  split; [lia|]. rewrite <- H4. nia.
Qed.

Lemma iter_xO m d : Zpos (Pos.iter xO m d) = Zpos m * 2 ^ Zpos d.
Proof.
  induction d as [|d IH] using Pos.peano_ind.
  - simpl. lia.
  - rewrite Pos.iter_succ, Pos2Z.inj_succ, Z.pow_succ_r by lia.
    rewrite Pos2Z.inj_xO, IH. lia.
Qed.

Lemma shl_align_value m e ez :
  ez <= e -> Zpos (fst (shl_align m e ez)) = Zpos m * 2 ^ (e - ez).
Proof.
  intros He. unfold shl_align. destruct (ez - e) as [|d|d] eqn:Ed; cbn [fst].
  - replace (e - ez) with 0 by lia. simpl. lia.
  - lia.
  - rewrite iter_xO. f_equal. f_equal. lia.
Qed.

(** The difference of the aligned mantissas has the sign of the difference
    of the values. *)
Lemma aligned_difference sy my ey sx mx ex :
  emin <= ex -> emin <= ey ->
  let ez := Z.min ey ex in
  (cond_Zopp sy (Zpos (fst (shl_align my ey ez)))
   - cond_Zopp sx (Zpos (fst (shl_align mx ex ez)))) * 2 ^ (ez - emin)
  = scaled (S754_finite sy my ey) - scaled (S754_finite sx mx ex).
Proof.
  intros Hx Hy ez. rewrite !shl_align_value by lia. cbn [scaled].
  assert (Hpy : 2 ^ (ey - ez) * 2 ^ (ez - emin) = 2 ^ (ey - emin)).
  { rewrite <- Z.pow_add_r by lia. f_equal. lia. }
  assert (Hpx : 2 ^ (ex - ez) * 2 ^ (ez - emin) = 2 ^ (ex - emin)).
  { rewrite <- Z.pow_add_r by lia. f_equal. lia. }
  destruct sy, sx; cbn [cond_Zopp]; nia.
Qed.

(** [y - x] is positive exactly when [x] is below [y]. *)
Lemma sub_positive x y :
  valid_binary prec emax x = true -> valid_binary prec emax y = true ->
  x <> S754_nan -> y <> S754_nan ->
  SFltb (S754_zero false) (SFsub prec emax y x) = true <-> scaled x < scaled y.
Proof.
  intros Vx Vy Nx Ny.
  assert (Hb : 0 < bound) by (unfold bound; apply Z.pow_pos_nonneg; [lia|done]).
  destruct y as [sy|sy| |sy my ey], x as [sx|sx| |sx mx ex]; try done.
  - destruct sy, sx; simpl; split; (done || lia).
  - destruct sx; simpl; split; (done || lia).
  - pose proof (finite_below_bound _ _ _ Vx). destruct sx; simpl; split; (done || lia).
  - destruct sy; simpl; split; (done || lia).
  - destruct sy, sx; simpl; split; (done || lia).
  - pose proof (finite_below_bound _ _ _ Vx).
    destruct sy, sx; simpl; split; (done || lia).
  - pose proof (finite_below_bound _ _ _ Vy). destruct sy; simpl; split; (done || lia).
  - pose proof (finite_below_bound _ _ _ Vy).
    destruct sy, sx; simpl; split; (done || lia).
  - pose proof (valid_finite _ _ _ Vx) as [Hex _].
    pose proof (valid_finite _ _ _ Vy) as [Hey _].
    pose proof (aligned_difference sy my ey sx mx ex ltac:(lia) ltac:(lia)) as Hd.
    cbv zeta in Hd. cbn [SFsub].
    set (D := cond_Zopp sy _ - cond_Zopp sx _) in *.
    assert (Hp : 0 < 2 ^ (Z.min ey ex - emin)) by (apply Z.pow_pos_nonneg; lia).
    destruct D as [|d|d] eqn:ED; cbn [binary_normalize].
    + split; [done|]. intros Hlt. nia.
    + split; [intros _; nia|]. intros _.
      apply positiveSF_ltb, binary_round_pos. lia.
    + rewrite binary_round_neg. split; [done|]. intros Hlt. nia.
Qed.


Lemma digits2_lower m : 2 ^ (Zpos (digits2_pos m) - 1) <= Zpos m.
Proof.
  induction m as [m IH|m IH|]; cbn [digits2_pos]; [| |done];
    rewrite Pos2Z.inj_succ;
    replace (Z.succ (Zpos (digits2_pos m)) - 1) with (Z.succ (Zpos (digits2_pos m) - 1))
      by lia;
    rewrite Z.pow_succ_r by lia; lia.
Qed.

(** Among valid numbers, the smaller exponent gives the smaller magnitude. *)
Lemma exponent_orders s1 m1 e1 s2 m2 e2 :
  valid_binary prec emax (S754_finite s1 m1 e1) = true ->
  valid_binary prec emax (S754_finite s2 m2 e2) = true ->
  e1 < e2 -> Zpos m1 * 2 ^ (e1 - emin) < Zpos m2 * 2 ^ (e2 - emin).
Proof.
  intros V1 V2 He.
  pose proof (valid_finite _ _ _ V1) as [H1 D1].
  pose proof (valid_finite _ _ _ V2) as [H2 D2].
  assert (Hd : Zpos (digits2_pos m2) = prec).
  { unfold valid_binary, bounded, canonical_mantissa in V2.
    apply andb_true_iff in V2 as [Hc _]. apply Z.eqb_eq in Hc.
    unfold fexp, emin, SpecFloat.emin, FloatOps.prec, FloatOps.emax in *. lia. }
  pose proof (digits2_bound m1) as Hm1. pose proof (digits2_lower m2) as Hm2.
  rewrite Hd in Hm2.
  assert (Hp1 : 2 ^ Zpos (digits2_pos m1) <= 2 ^ prec) by (apply Z.pow_le_mono_r; lia).
  assert (Hp2 : 2 ^ (e1 + 1 - emin) <= 2 ^ (e2 - emin)) by (apply Z.pow_le_mono_r; lia).
  assert (Hp3 : 2 ^ (e1 + 1 - emin) = 2 * 2 ^ (e1 - emin)).
  { replace (e1 + 1 - emin) with (Z.succ (e1 - emin)) by lia.
    rewrite Z.pow_succ_r by lia. done. }
  assert (Hp4 : 2 ^ prec = 2 * 2 ^ (prec - 1)) by done.
  assert (Hp5 : 0 < 2 ^ (e1 - emin)) by (apply Z.pow_pos_nonneg; lia).
  assert (Hp6 : 0 < 2 ^ (prec - 1)) by done.
  nia.
Qed.

(** Comparing two numbers other than NaN compares their values. *)
Lemma compare_key x y :
  valid_binary prec emax x = true -> valid_binary prec emax y = true ->
  x <> S754_nan -> y <> S754_nan ->
  SFcompare x y = Some (scaled x ?= scaled y).
Proof.
  intros Vx Vy Nx Ny.
  assert (Hb : 0 < bound) by (unfold bound; apply Z.pow_pos_nonneg; [lia|done]).
  assert (Hlt : forall a b, a < b -> (a ?= b) = Lt) by (intros; by apply Z.compare_lt_iff).
  assert (Hgt : forall a b, b < a -> (a ?= b) = Gt) by (intros; by apply Z.compare_gt_iff).
  destruct x as [sx|sx| |sx mx ex], y as [sy|sy| |sy my ey]; try done.
  - destruct sx, sy; cbn [SFcompare scaled cond_Zopp]; f_equal; symmetry;
      (apply Hlt; lia) || (apply Hgt; lia) || apply Z.compare_refl.
  - pose proof (finite_below_bound _ _ _ Vy).
    destruct sy; cbn [SFcompare scaled cond_Zopp]; f_equal; symmetry;
      (apply Hlt; lia) || (apply Hgt; lia).
  - destruct sx; cbn [SFcompare scaled cond_Zopp]; f_equal; symmetry;
      (apply Hlt; lia) || (apply Hgt; lia).
  - destruct sx, sy; cbn [SFcompare scaled cond_Zopp]; f_equal; symmetry;
      (apply Hlt; lia) || (apply Hgt; lia) || apply Z.compare_refl.
  - pose proof (finite_below_bound _ _ _ Vy).
    destruct sx, sy; cbn [SFcompare scaled cond_Zopp]; f_equal; symmetry;
      (apply Hlt; lia) || (apply Hgt; lia).
  - pose proof (finite_below_bound _ _ _ Vx).
    destruct sx; cbn [SFcompare scaled cond_Zopp]; f_equal; symmetry;
      (apply Hlt; lia) || (apply Hgt; lia).
  - pose proof (finite_below_bound _ _ _ Vx).
    destruct sx, sy; cbn [SFcompare scaled cond_Zopp]; f_equal; symmetry;
      (apply Hlt; lia) || (apply Hgt; lia).
  - pose proof (finite_below_bound _ _ _ Vx). pose proof (finite_below_bound _ _ _ Vy).
    assert (Hsame : ex = ey ->
              (Zpos mx * 2 ^ (ex - emin) ?= Zpos my * 2 ^ (ey - emin))
              = Pos.compare_cont Eq mx my).
    { intros ->. pose proof (valid_finite _ _ _ Vy) as [? _].
      assert (Hp : 0 < 2 ^ (ey - emin)) by (apply Z.pow_pos_nonneg; lia).
      change (Pos.compare_cont Eq mx my) with (Zpos mx ?= Zpos my).
      destruct (Z.compare_spec (Zpos mx) (Zpos my)) as [E|L|G].
      - rewrite E. apply Z.compare_refl.
      - apply Hlt. nia.
      - apply Hgt. nia. }
    cbn [SFcompare scaled]. f_equal.
    destruct sx, sy; cbn [cond_Zopp]; symmetry.
    + rewrite Z.compare_opp. destruct (Z.compare_spec ex ey) as [He|He|He].
      * rewrite Z.compare_antisym. f_equal. by apply Hsame.
      * apply Hgt. by apply (exponent_orders true mx ex true my ey).
      * apply Hlt. by apply (exponent_orders true my ey true mx ex).
    + apply Hlt. lia.
    + apply Hgt. lia.
    + destruct (Z.compare_spec ex ey) as [He|He|He].
      * by apply Hsame.
      * apply Hlt. by apply (exponent_orders false mx ex false my ey).
      * apply Hgt. by apply (exponent_orders false my ey false mx ex).
Qed.

Lemma is_nan_spec x : PrimFloat.is_nan x = false -> FloatOps.Prim2SF x <> S754_nan.
Proof.
  unfold PrimFloat.is_nan. rewrite FloatAxioms.eqb_spec. intros H E.
  rewrite E in H. done.
Qed.

Lemma positive_difference x y :
  PrimFloat.is_nan x = false -> PrimFloat.is_nan y = false ->
  PrimFloat.ltb (PrimFloat.of_uint63 (Uint63.of_Z 0)) (PrimFloat.sub y x) = true
  <-> value x < value y.
Proof.
  intros Hx Hy. rewrite FloatAxioms.ltb_spec, FloatAxioms.of_uint63_spec, FloatAxioms.sub_spec.
  change (binary_normalize FloatOps.prec FloatOps.emax _ 0 false) with (S754_zero false).
  apply sub_positive; auto using FloatAxioms.Prim2SF_valid, is_nan_spec.
Qed.


(** [x <= y] on numbers other than NaN is the order of their values. *)
Lemma leb_value x y :
  PrimFloat.is_nan x = false -> PrimFloat.is_nan y = false ->
  PrimFloat.leb x y = true <-> value x <= value y.
Proof.
  intros Hx Hy. rewrite FloatAxioms.leb_spec. unfold SFleb, value.
  rewrite compare_key by auto using FloatAxioms.Prim2SF_valid, is_nan_spec.
  destruct (Z.compare_spec (scaled (FloatOps.Prim2SF x)) (scaled (FloatOps.Prim2SF y)));
    split; (done || lia).
Qed.

End Binary64Facts.

Module HybridFacts.
Import JsNumber Hybrid.

Lemma positionFrom_None start i l : positionFrom start i l = None <-> i ∉ l.
Proof.
  revert start. induction l as [|x l IH]; intros start; simpl.
  - split; [intros _; apply not_elem_of_nil|done].
  - rewrite not_elem_of_cons. destruct (String.eqb_spec i x) as [->|Hne].
    + split; [discriminate|intros [? _]; congruence].
    + rewrite IH. tauto.
Qed.

Lemma positionFrom_lookup start i l p :
  NoDup l -> l !! p = Some i -> positionFrom start i l = Some (start + p)%nat.
Proof.
  revert start p. induction l as [|x l IH]; intros start p Hnd; [done|].
  apply NoDup_cons in Hnd as [Hx Hnd]. destruct p as [|p]; simpl.
  - intros [= ->]. rewrite String.eqb_refl. f_equal. lia.
  - intros Hp. destruct (String.eqb_spec i x) as [->|Hne].
    + exfalso. apply Hx. by eapply list_elem_of_lookup_2.
    + rewrite (IH (S start) p Hnd Hp). f_equal. lia.
Qed.

Lemma candidates_elem sem lex i : i ∈ candidates sem lex <-> i ∈ sem \/ i ∈ lex.
Proof.
  unfold candidates. rewrite elem_of_app, elem_of_List_filter, negb_true_iff,
    existsb_eqb_not_elem.
  destruct (decide (i ∈ sem)); tauto.
Qed.

Section Facts.
Context {num : Type} {arith : Arith num}.
Implicit Types (weight scale : num) (m : JsMap.t (@Combined num)).

Lemma forEach_semantic_get weight n l : forall start m i,
  NoDup l ->
  JsMap.get i (forEachIndexed (addSemantic weight n) start l m)
  = match positionFrom start i l with
    | Some p => Some (mkCombined i (mul (normalizedScore p n) weight) (ofNat 0))
    | None => JsMap.get i m
    end.
Proof.
  induction l as [|x l IH]; intros start m i Hnd; simpl; [done|].
  apply NoDup_cons in Hnd as [Hx Hnd]. rewrite IH by done.
  destruct (String.eqb_spec i x) as [->|Hne].
  - rewrite (proj2 (positionFrom_None (S start) x l) Hx).
    unfold addSemantic. by rewrite JsMapFacts.get_set_eq.
  - destruct (positionFrom (S start) i l); [done|].
    unfold addSemantic. by rewrite JsMapFacts.get_set_ne.
Qed.

Lemma addKeyword_get weight n x index m i :
  JsMap.get i (addKeyword weight n x index m)
  = if String.eqb i x
    then Some (mkCombined
                 (match JsMap.get x m with Some c => id c | None => x end)
                 (match JsMap.get x m with Some c => semanticScore c | None => ofNat 0 end)
                 (mul (normalizedScore index n) (sub (ofNat 1) weight)))
    else JsMap.get i m.
Proof.
  unfold addKeyword. destruct (String.eqb_spec i x) as [->|Hne].
  - destruct (JsMap.get x m); by rewrite JsMapFacts.get_set_eq.
  - destruct (JsMap.get x m); by rewrite JsMapFacts.get_set_ne.
Qed.

Lemma forEach_keyword_get weight n l : forall start m i,
  NoDup l ->
  JsMap.get i (forEachIndexed (addKeyword weight n) start l m)
  = match positionFrom start i l with
    | Some p =>
        Some (mkCombined
                (match JsMap.get i m with Some c => id c | None => i end)
                (match JsMap.get i m with Some c => semanticScore c | None => ofNat 0 end)
                (mul (normalizedScore p n) (sub (ofNat 1) weight)))
    | None => JsMap.get i m
    end.
Proof.
  induction l as [|x l IH]; intros start m i Hnd; simpl; [done|].
  apply NoDup_cons in Hnd as [Hx Hnd]. rewrite IH by done.
  rewrite addKeyword_get.
  destruct (String.eqb_spec i x) as [->|Hne].
  - by rewrite (proj2 (positionFrom_None (S start) x l) Hx).
  - done.
Qed.

(** The entry of each id in [combinedScores]. *)
Lemma combinedScores_get weight sem lex i :
  NoDup sem -> NoDup lex ->
  JsMap.get i (combinedScores weight sem lex)
  = match position i sem, position i lex with
    | None, None => None
    | _, _ => Some (mkCombined i (contribution weight sem i)
                               (contribution (sub (ofNat 1) weight) lex i))
    end.
Proof.
  intros Hs Hl. unfold combinedScores, contribution, position, normalizedScore.
  rewrite forEach_keyword_get, forEach_semantic_get by done. simpl.
  destruct (positionFrom 0 i sem), (positionFrom 0 i lex); done.
Qed.

Lemma forEach_wf {X} (f : X -> nat -> JsMap.t (@Combined num) -> JsMap.t (@Combined num)) l :
  (forall x n m, JsMap.wf m -> JsMap.wf (f x n m)) ->
  forall start m, JsMap.wf m -> JsMap.wf (forEachIndexed f start l m).
Proof.
  intros Hf. induction l as [|x l IH]; intros start m Hm; simpl; [done|].
  apply IH. by apply Hf.
Qed.

Lemma combinedScores_wf weight sem lex : JsMap.wf (combinedScores weight sem lex).
Proof.
  unfold combinedScores. apply forEach_wf.
  - intros x n m Hm. unfold addKeyword. destruct (JsMap.get x m); by apply JsMapFacts.wf_set.
  - apply forEach_wf; [|apply NoDup_nil_2].
    intros x n m Hm. by apply JsMapFacts.wf_set.
Qed.

(** The entries are created in the order of the candidates. *)
Lemma forEach_semantic_keys weight n l : forall start m,
  NoDup l -> (forall x, x ∈ l -> x ∉ JsMap.keys m) ->
  JsMap.keys (forEachIndexed (addSemantic weight n) start l m) = JsMap.keys m ++ l.
Proof.
  induction l as [|x l IH]; intros start m Hnd Hfresh; simpl.
  - by rewrite app_nil_r.
  - apply NoDup_cons in Hnd as [Hx Hnd].
    assert (Hk : JsMap.keys (addSemantic weight n x start m) = JsMap.keys m ++ [x]).
    { unfold addSemantic. rewrite JsMapFacts.keys_set.
      rewrite (proj2 (JsMapFacts.has_false_keys _ _)); [done|]. apply Hfresh. left. }
    rewrite IH; [|done|].
    + by rewrite Hk, <- app_assoc.
    + intros y Hy. rewrite Hk, elem_of_app, list_elem_of_singleton.
      intros [Hin| ->]; [|done]. apply (Hfresh y); [by right|done].
Qed.

Lemma addKeyword_keys weight n x index m :
  JsMap.keys (addKeyword weight n x index m)
  = if JsMap.has x m then JsMap.keys m else JsMap.keys m ++ [x].
Proof.
  unfold addKeyword, JsMap.has.
  destruct (JsMap.get x m) eqn:E; rewrite JsMapFacts.keys_set; unfold JsMap.has;
    by rewrite E.
Qed.

Lemma filter_fresh_ext (ks : list string) (x : string) (l : list string) :
  x ∉ l ->
  List.filter (fun i => negb (existsb (String.eqb i) (ks ++ [x]))) l
  = List.filter (fun i => negb (existsb (String.eqb i) ks)) l.
Proof.
  intros Hx. apply filter_ext_in. intros i Hi. f_equal.
  rewrite existsb_app. simpl. rewrite orb_false_r.
  destruct (String.eqb_spec i x) as [->|_]; [|by rewrite orb_false_r].
  exfalso. apply Hx. by apply list_elem_of_In.
Qed.

Lemma forEach_keyword_keys weight n l : forall start m,
  NoDup l ->
  JsMap.keys (forEachIndexed (addKeyword weight n) start l m)
  = JsMap.keys m
    ++ List.filter (fun i => negb (existsb (String.eqb i) (JsMap.keys m))) l.
Proof.
  induction l as [|x l IH]; intros start m Hnd; simpl.
  - by rewrite app_nil_r.
  - apply NoDup_cons in Hnd as [Hx Hnd]. rewrite IH by done.
    rewrite addKeyword_keys. destruct (JsMap.has x m) eqn:Eh.
    + apply JsMapFacts.has_true_keys, existsb_eqb_elem in Eh. by rewrite Eh.
    + apply JsMapFacts.has_false_keys, existsb_eqb_not_elem in Eh. rewrite Eh. simpl.
      rewrite filter_fresh_ext by done. by rewrite <- app_assoc.
Qed.

Lemma combinedScores_keys weight sem lex :
  NoDup sem -> NoDup lex ->
  JsMap.keys (combinedScores weight sem lex) = candidates sem lex.
Proof.
  intros Hs Hl. unfold combinedScores, candidates.
  rewrite forEach_keyword_keys by done.
  rewrite forEach_semantic_keys; [done|done|].
  intros x _. apply not_elem_of_nil.
Qed.

Lemma contribution_lookup scale l i p :
  NoDup l -> l !! p = Some i ->
  contribution scale l i
  = mul (sub (ofNat 1) (div (ofNat p) (ofNat (length l)))) scale.
Proof.
  intros Hnd Hp. unfold contribution, position.
  by rewrite (positionFrom_lookup 0 i l p Hnd Hp).
Qed.

Lemma contribution_absent scale l i : i ∉ l -> contribution scale l i = ofNat 0.
Proof.
  intros H. unfold contribution, position.
  by rewrite (proj2 (positionFrom_None 0 i l) H).
Qed.

Lemma combinedScores_entry weight sem lex i c :
  NoDup sem -> NoDup lex ->
  (i, c) ∈ combinedScores weight sem lex ->
  c = mkCombined i (contribution weight sem i)
                 (contribution (sub (ofNat 1) weight) lex i).
Proof.
  intros Hs Hl Hin.
  apply (JsMapFacts.In_get _ _ _ (combinedScores_wf weight sem lex)) in Hin.
  rewrite combinedScores_get in Hin by done.
  destruct (position i sem), (position i lex); congruence.
Qed.

Lemma ranking_scoredAll weight sem lex :
  NoDup sem -> NoDup lex ->
  ranking (scoredAll weight sem lex) = candidates sem lex.
Proof.
  intros Hs Hl. rewrite <- (combinedScores_keys weight) by done.
  unfold ranking, scoredAll, JsMap.values, JsMap.keys. rewrite !map_map. simpl.
  apply map_ext_in. intros [k c] Hin. simpl.
  apply list_elem_of_In in Hin.
  by rewrite (combinedScores_entry _ _ _ _ _ Hs Hl Hin).
Qed.

(** An entry of [scoredAll] carries the scores of the specification. *)
Lemma scoredAll_entry weight sem lex r :
  NoDup sem -> NoDup lex ->
  r ∈ scoredAll weight sem lex ->
  let i := id (item r) in
  (i ∈ sem \/ i ∈ lex)
  /\ semanticScore (item r) = contribution weight sem i
  /\ keywordScore (item r) = contribution (sub (ofNat 1) weight) lex i
  /\ totalScore r = add (semanticScore (item r)) (keywordScore (item r)).
Proof.
  intros Hs Hl Hr i.
  assert (Hi : i ∈ candidates sem lex).
  { rewrite <- (ranking_scoredAll weight) by done. unfold ranking, i.
    by apply (list_elem_of_fmap_2 (fun r : Scored => id (item r))). }
  apply candidates_elem in Hi. split; [done|].
  unfold scoredAll in Hr. apply list_elem_of_fmap in Hr as (c & -> & Hc).
  apply list_elem_of_fmap in Hc as ([k c'] & -> & Hin). simpl in *.
  pose proof (combinedScores_entry _ _ _ _ _ Hs Hl Hin) as ->. done.
Qed.

(** Where the comparator is consistent on the totals, the sort orders
    them. *)
Lemma ranking_sorted (l : list (@Scored num)) :
  consistentOn (map totalScore l) ->
  StronglySorted descending (sortStable (fun a b => isPositive (byTotalDesc a b)) l).
Proof.
  intros [Hasym Htrans].
  apply (sortStable_sorted_on _ descending (fun r => r ∈ l)).
  - intros x y _ _ H. exact H.
  - intros x y Hx Hy H. unfold descending, byTotalDesc in *.
    apply Hasym; [by apply list_elem_of_fmap_2..|done].
  - intros x y z Hx Hy Hz. unfold descending, byTotalDesc.
    apply Htrans; by apply list_elem_of_fmap_2.
  - by apply Forall_forall.
Qed.

Lemma scoredResults_sorted weight (e : option Z) sem lex :
  consistentOn (map totalScore (scoredAll weight sem lex)) ->
  StronglySorted descending (scoredResults weight e sem lex).
Proof.
  intros Hc. apply (StronglySorted_sublist _ _ _ (sliceTo_sublist e _)).
  by apply ranking_sorted.
Qed.

End Facts.

(** The comparator is consistent on any rationals. *)
Lemma exact_consistent (l : list Q) : consistentOn (H:=exact) l.
Proof.
  split.
  - intros x y _ _. simpl.
    destruct (Qlt_le_dec 0 (y - x)), (Qlt_le_dec 0 (x - y)); try done.
    exfalso. Lqa.lra.
  - intros x y z _ _ _. simpl.
    destruct (Qlt_le_dec 0 (y - x)), (Qlt_le_dec 0 (z - y)), (Qlt_le_dec 0 (z - x));
      try done.
    exfalso. Lqa.lra.
Qed.

(** The comparator is consistent on any doubles other than NaN. *)
Lemma binary64_consistent (l : list PrimFloat.float) :
  Forall (fun x => PrimFloat.is_nan x = false) l -> consistentOn (H:=binary64) l.
Proof.
  rewrite Forall_forall. intros Hl. split.
  - intros x y Hx Hy Hp. apply not_true_is_false. revert Hp. cbn [isPositive sub binary64].
    rewrite !Binary64Facts.positive_difference by auto. lia.
  - intros x y z Hx Hy Hz Hxy Hyz. apply not_true_is_false.
    apply not_true_iff_false in Hxy, Hyz. revert Hxy Hyz.
    cbn [isPositive sub binary64].
    rewrite !Binary64Facts.positive_difference by auto. lia.
Qed.

(** On doubles other than NaN, [descending] is the order of the totals. *)
Lemma binary64_descending (a b : @Scored PrimFloat.float) :
  PrimFloat.is_nan (totalScore a) = false -> PrimFloat.is_nan (totalScore b) = false ->
  descending a b <-> PrimFloat.leb (totalScore b) (totalScore a) = true.
Proof.
  intros Ha Hb. unfold descending, byTotalDesc.
  rewrite <- not_true_iff_false. cbn [isPositive sub binary64].
  rewrite Binary64Facts.positive_difference, Binary64Facts.leb_value by done. lia.
Qed.

(** On the rationals, [descending] is the order of the totals. *)
Lemma exact_descending (a b : @Scored Q) :
  descending a b <-> (totalScore b <= totalScore a)%Q.
Proof.
  unfold descending, byTotalDesc. simpl.
  destruct (Qlt_le_dec 0 (totalScore b - totalScore a)); split; intros H; try done.
  - exfalso. Lqa.lra.
  - Lqa.lra.
Qed.

End HybridFacts.

Module HybridClaims.
Import JsNumber Hybrid HybridFacts.

(** C7: with each list free of repetitions, the ids ranked are the ids of
    the two lists, each once.  The semantic score of an entry is
    [(1 - p/N1) * w] when its id is at position [p] of the semantic list of
    size [N1], and 0 when the id is not in that list; the keyword score is
    [(1 - p/N2) * (1 - w)] or 0 likewise; the total is their sum.  The
    entries are sorted by the comparator on the totals, wherever it orders
    them consistently, as it does for all numbers but NaN: no entry comes
    after one that the comparator puts behind it.  The answer for a
    requested size is the first that many entries of the sorted list.  All
    this holds in any arithmetic, that of the rationals and that of doubles
    alike; over the rationals the totals descend, and in doubles they
    descend whenever no total is NaN.  For the semantic list
    A, B, C, the lexical list B, D and w = 0.7 the ranking is B, A, C, D in
    both: A is above D, and B is above every id found in one list only. *)
Theorem hybrid_ranking {num : Type} {arith : Arith num} (weight : num) (limit : nat)
    (sem lex : list string) :
  NoDup sem -> NoDup lex ->
  let full :=
    scoredResults weight (Some (Z.of_nat (length (candidates sem lex)))) sem lex in
  let rs := scoredResults weight (Some (Z.of_nat limit)) sem lex in
  rs = take limit full
  /\ (length rs <= limit)%nat
  /\ ranking full ≡ₚ candidates sem lex
  /\ NoDup (ranking full)
  /\ (forall i, i ∈ ranking full <-> i ∈ sem \/ i ∈ lex)
  /\ (forall r, r ∈ full ->
        let i := id (item r) in
        (forall p, sem !! p = Some i ->
           semanticScore (item r)
           = mul (sub (ofNat 1) (div (ofNat p) (ofNat (length sem)))) weight)
        /\ (i ∉ sem -> semanticScore (item r) = ofNat 0)
        /\ (forall p, lex !! p = Some i ->
              keywordScore (item r)
              = mul (sub (ofNat 1) (div (ofNat p) (ofNat (length lex))))
                    (sub (ofNat 1) weight))
        /\ (i ∉ lex -> keywordScore (item r) = ofNat 0)
        /\ totalScore r = add (semanticScore (item r)) (keywordScore (item r)))
  /\ (consistentOn (map totalScore full) ->
      forall a b, precedes a b full ->
        isPositive (sub (totalScore b) (totalScore a)) = false)
  /\ (forall (w : Q) a b,
        precedes a b (scoredResults (arith:=exact) w (Some (Z.of_nat limit)) sem lex) ->
        (totalScore b <= totalScore a)%Q)
  /\ (forall (w : PrimFloat.float),
        (forall r,
           r ∈ scoredResults (arith:=binary64) w
                 (Some (Z.of_nat (length (candidates sem lex)))) sem lex ->
           PrimFloat.is_nan (totalScore r) = false) ->
        forall a b,
          precedes a b
            (scoredResults (arith:=binary64) w (Some (Z.of_nat limit)) sem lex) ->
          PrimFloat.leb (totalScore b) (totalScore a) = true)
  /\ ranking (scoredResults (arith:=exact) (7 # 10)%Q (Some 10%Z)
                ["A"; "B"; "C"] ["B"; "D"])
     = ["B"; "A"; "C"; "D"]
  /\ ranking (scoredResults (arith:=binary64) (div (ofNat 7) (ofNat 10)) (Some 10%Z)
                ["A"; "B"; "C"] ["B"; "D"])
     = ["B"; "A"; "C"; "D"].
Proof.
  intros Hs Hl full rs.
  set (sorted := sortStable (fun a b => isPositive (byTotalDesc a b))
                   (scoredAll weight sem lex)).
  assert (Hlen : length sorted = length (candidates sem lex)).
  { unfold sorted. rewrite length_sortStable.
    rewrite <- (ranking_scoredAll weight) by done. unfold ranking.
    by rewrite length_map. }
  assert (Hfull : full = sorted).
  { unfold full, scoredResults. fold sorted. rewrite sliceTo_count.
    apply take_ge. lia. }
  assert (Hperm : full ≡ₚ scoredAll weight sem lex).
  { rewrite Hfull. apply sortStable_perm. }
  assert (Hrank : ranking full ≡ₚ candidates sem lex).
  { rewrite <- (ranking_scoredAll weight) by done. unfold ranking. by rewrite Hperm. }
  split; [|split; [|split; [|split; [|split; [|split; [|split; [|split; [|split; [|split]]]]]]]]].
  - unfold rs, scoredResults. fold sorted. by rewrite sliceTo_count, Hfull.
  - unfold rs, scoredResults. rewrite sliceTo_count, length_take. lia.
  - exact Hrank.
  - rewrite Hrank, <- (combinedScores_keys weight) by done. apply combinedScores_wf.
  - intros i. rewrite Hrank. apply candidates_elem.
  - intros r Hr i. rewrite Hperm in Hr.
    destruct (scoredAll_entry weight sem lex r Hs Hl Hr) as (_ & Hsem & Hkw & Htot).
    fold i in Hsem, Hkw. rewrite Hsem, Hkw.
    split; [|split; [|split; [|split]]].
    + intros p Hp. by apply contribution_lookup.
    + apply contribution_absent.
    + intros p Hp. by apply contribution_lookup.
    + apply contribution_absent.
    + by rewrite Htot, Hsem, Hkw.
  - intros Hc a b Hab.
    assert (Hsorted : StronglySorted descending full).
    { rewrite Hfull. apply ranking_sorted.
      destruct Hc as [Ha Ht]. split.
      - intros x y Hx Hy. apply Ha; by rewrite Hperm.
      - intros x y z Hx Hy Hz. apply Ht; by rewrite Hperm. }
    exact (StronglySorted_precedes _ _ _ _ Hsorted Hab).
  - intros w a b Hab. apply exact_descending.
    refine (StronglySorted_precedes _ _ _ _ _ Hab).
    apply scoredResults_sorted, exact_consistent.
  - intros w Hnum a b Hab.
    set (all64 := scoredAll (arith:=binary64) w sem lex).
    assert (Hall : forall r, r ∈ all64 -> PrimFloat.is_nan (totalScore r) = false).
    { intros r Hr. apply Hnum. unfold scoredResults. rewrite sliceTo_count.
      rewrite take_ge.
      - by rewrite sortStable_perm.
      - rewrite length_sortStable. fold all64.
        rewrite <- (ranking_scoredAll (arith:=binary64) w) by done.
        unfold ranking. rewrite length_map. fold all64. lia. }
    assert (Hin : forall r,
              r ∈ scoredResults (arith:=binary64) w (Some (Z.of_nat limit)) sem lex ->
              r ∈ all64).
    { intros r Hr. unfold scoredResults in Hr.
      apply (sliceTo_subseteq (Some (Z.of_nat limit)) _ r) in Hr.
      by rewrite sortStable_perm in Hr. }
    destruct (precedes_elem _ _ _ Hab) as [Ha Hb].
    apply binary64_descending.
    + by apply Hall, Hin.
    + by apply Hall, Hin.
    + refine (StronglySorted_precedes _ _ _ _ _ Hab).
      apply scoredResults_sorted, binary64_consistent.
      apply Forall_forall. intros x Hx.
      apply (list_elem_of_fmap totalScore) in Hx as (r & -> & Hr). by apply Hall.
  - vm_compute. reflexivity.
  - vm_compute. reflexivity.
Qed.

End HybridClaims.

(** Witness of [hybrid_ranking]: the lists of the specification's example,
    asked for two entries, over the rationals and in doubles: the answer is
    B, A, the first two of the four ranked, and the totals descend, in the
    order of the rationals and in that of the doubles. *)
Lemma hybrid_ranking_witness :
  let rs := Hybrid.scoredResults (arith:=JsNumber.exact) (7 # 10)%Q (Some 2%Z)
              ["A"; "B"; "C"] ["B"; "D"] in
  let rs64 := Hybrid.scoredResults (arith:=JsNumber.binary64)
                (JsNumber.div (JsNumber.ofNat 7) (JsNumber.ofNat 10)) (Some 2%Z)
                ["A"; "B"; "C"] ["B"; "D"] in
  (Hybrid.ranking rs = ["B"; "A"]
   /\ forall a b, precedes a b rs -> (Hybrid.totalScore b <= Hybrid.totalScore a)%Q)
  /\ (Hybrid.ranking rs64 = ["B"; "A"]
      /\ forall a b, precedes a b rs64 ->
           PrimFloat.leb (Hybrid.totalScore b) (Hybrid.totalScore a) = true).
Proof.
  intros rs rs64.
  assert (H1 : NoDup ["A"; "B"; "C"]) by (apply (bool_decide_unpack _); vm_compute; exact I).
  assert (H2 : NoDup ["B"; "D"]) by (apply (bool_decide_unpack _); vm_compute; exact I).
  split.
  - destruct (HybridClaims.hybrid_ranking (arith:=JsNumber.exact) (7 # 10)%Q 2
                ["A"; "B"; "C"] ["B"; "D"] H1 H2)
      as (Hrs & _ & _ & _ & _ & _ & Hsorted & _ & _ & _).
    split; [vm_compute; reflexivity|].
    intros a b Hab. apply HybridFacts.exact_descending.
    apply Hsorted; [apply HybridFacts.exact_consistent|].
    change (precedes a b (Hybrid.scoredResults (arith:=JsNumber.exact) (7 # 10)%Q
                            (Some (Z.of_nat 2)) ["A"; "B"; "C"] ["B"; "D"])) in Hab.
    rewrite Hrs in Hab. by apply precedes_take in Hab.
  - destruct (HybridClaims.hybrid_ranking (arith:=JsNumber.binary64)
                (JsNumber.div (JsNumber.ofNat 7) (JsNumber.ofNat 10)) 2
                ["A"; "B"; "C"] ["B"; "D"] H1 H2)
      as (_ & _ & _ & _ & _ & _ & _ & _ & Hsorted & _).
    split; [vm_compute; reflexivity|].
    intros a b Hab.
    apply (Hsorted (JsNumber.div (JsNumber.ofNat 7) (JsNumber.ofNat 10))); [|exact Hab].
    apply Forall_forall. vm_compute. repeat constructor.
Defined.

(** The two arithmetics can order a tie differently.  At the weight 0.7
    the fifth of seven semantic ids and the only keyword id both total 3/10
    over the rationals, and the sort keeps them in the order of their
    entries; in doubles the keyword id totals 0.30000000000000004, the
    semantic one 0.3, and the keyword id comes first. *)
Lemma rounding_orders_a_tie :
  let sem := ["s0"; "s1"; "s2"; "s3"; "s4"; "s5"; "s6"] in
  Hybrid.ranking
    (Hybrid.scoredResults (arith:=JsNumber.exact) (7 # 10)%Q (Some 10%Z) sem ["k"])
  = ["s0"; "s1"; "s2"; "s3"; "s4"; "k"; "s5"; "s6"]
  /\ Hybrid.ranking
       (Hybrid.scoredResults (arith:=JsNumber.binary64)
          (JsNumber.div (JsNumber.ofNat 7) (JsNumber.ofNat 10)) (Some 10%Z) sem ["k"])
     = ["s0"; "s1"; "s2"; "s3"; "k"; "s4"; "s5"; "s6"].
Proof. split; vm_compute; reflexivity. Qed.

(** ** [reindexAll] *)

Module ReindexFacts.
Import Reindex.

Section Facts.
Context {num : Type}.
Variable zero : num.
Variable embedding : string -> list num.
Variable md5 : string -> string.
Variable upsertFails : string -> bool.
Variable updateFails : string -> bool.

Local Abbreviation App := (@App num).
Local Abbreviation reindexNote := (reindexNote zero embedding md5 upsertFails updateFails).
Local Abbreviation reindexBatch := (reindexBatch zero embedding md5 upsertFails updateFails).
Local Abbreviation reindexBatches := (reindexBatches zero embedding md5 upsertFails updateFails).
Local Abbreviation reindexAll := (reindexAll zero embedding md5 upsertFails updateFails).
Local Abbreviation succeeds := (succeeds upsertFails updateFails).
Local Abbreviation countOk := (countOk upsertFails updateFails).
Local Abbreviation countFailed := (countFailed upsertFails updateFails).

Lemma liftWorld_addVector i v (a : App) :
  i <> EmptyString -> writable a ->
  exists w',
    liftWorld (addVector zero (Some i) (Some v) ∅) a
    = (Return tt, mkApp w' (notes a) (embeddings a))
    /\ writeFault (disk w') = None
    /\ vectors (store w')
       = JsMap.set i (adjust zero (dimension (store (world a))) v)
           (vectors (store (world a)))
    /\ dimension (store w') = dimension (store (world a)).
Proof.
  intros Hne Hw. unfold liftWorld.
  destruct (addVector_accept zero i v ∅ (world a) Hne) as (st' & Hv & _ & Hd & _ & ->).
  rewrite save_ok by exact Hw. eexists. split; [reflexivity|]. split; [done|].
  split; [exact Hv|exact Hd].
Qed.

Lemma generateEmbedding_ok text (a : App) :
  text <> EmptyString ->
  exists v, generateEmbedding embedding text a = (Return v, a).
Proof.
  intros H. unfold generateEmbedding.
  destruct (String.eqb_spec text EmptyString); [done|]. by eexists.
Qed.

Lemma reindexNote_embeddingFails n c (a : App) :
  embeddingFails n = true -> reindexNote n c a = (Return (fst c, S (snd c)), a).
Proof.
  unfold embeddingFails. intros H.
  unfold Reindex.reindexNote, tryCatch, bind, generateEmbedding. by rewrite H.
Qed.

Lemma reindexNote_succeeds n c (a : App) :
  writable a -> succeeds n = true ->
  exists a' v,
    reindexNote n c a = (Return (S (fst c), snd c), a')
    /\ writable a'
    /\ vectors (store (world a'))
       = JsMap.set (_id n) (adjust zero (dimension (store (world a))) v)
           (vectors (store (world a)))
    /\ dimension (store (world a')) = dimension (store (world a)).
Proof.
  intros Hw Hok. unfold succeeds, embeddingFails in Hok.
  apply andb_prop in Hok as [Hok H4]. apply andb_prop in Hok as [Hok H3].
  apply andb_prop in Hok as [H1 H2].
  apply negb_true_iff in H1, H2, H3, H4.
  apply String.eqb_neq in H1, H2.
  destruct (generateEmbedding_ok (content n) a H1) as [v Hg].
  destruct (liftWorld_addVector (_id n) v a H2 Hw) as (w' & Hadd & Hf & Hv & Hdim).
  eexists _, v. unfold Reindex.reindexNote, tryCatch, bind.
  rewrite Hg, Hadd. unfold upsertEmbedding, markEmbedded. rewrite H3. simpl.
  rewrite H4. simpl. split; [reflexivity|]. simpl. done.
Qed.

Lemma reindexNote_fails n c (a : App) :
  writable a -> succeeds n = false ->
  exists a',
    reindexNote n c a = (Return (fst c, S (snd c)), a') /\ writable a'
    /\ dimension (store (world a')) = dimension (store (world a)).
Proof.
  intros Hw Hbad.
  destruct (embeddingFails n) eqn:E1.
  { exists a. split; [by apply reindexNote_embeddingFails|done]. }
  assert (H1 : content n <> EmptyString) by (by apply String.eqb_neq).
  destruct (generateEmbedding_ok (content n) a H1) as [v Hg].
  unfold Reindex.reindexNote, tryCatch, bind. rewrite Hg.
  destruct (String.eqb_spec (_id n) EmptyString) as [E2|E2].
  { unfold liftWorld. rewrite addVector_reject by (rewrite E2; auto).
    eexists. split; [reflexivity|]. by destruct a. }
  destruct (liftWorld_addVector (_id n) v a E2 Hw) as (w' & -> & Hf & _ & Hd).
  unfold upsertEmbedding, markEmbedded.
  destruct (upsertFails (_id n)) eqn:E3; simpl.
  { eexists. split; [reflexivity|]. done. }
  destruct (updateFails (_id n)) eqn:E4; simpl.
  { eexists. split; [reflexivity|]. done. }
  exfalso. unfold succeeds in Hbad. rewrite E1, E3, E4 in Hbad.
  apply String.eqb_neq in E2. rewrite E2 in Hbad. discriminate.
Qed.

Lemma counts_total ns : countOk ns + countFailed ns = length ns.
Proof.
  unfold countOk, countFailed. induction ns as [|n ns IH]; simpl; [done|].
  destruct (succeeds n); simpl; lia.
Qed.

(** A batch never throws; it counts every note once. *)
Lemma reindexBatch_counts ns : forall c (a : App),
  writable a ->
  exists a',
    reindexBatch ns c a
    = (Return (fst c + countOk ns, snd c + countFailed ns), a')
    /\ writable a'
    /\ dimension (store (world a')) = dimension (store (world a))
    /\ ((forall n, n ∈ ns -> succeeds n = true \/ embeddingFails n = true) ->
        NoDup (JsMap.keys (vectors (store (world a)))
               ++ map _id (List.filter succeeds ns)) ->
        JsMap.keys (vectors (store (world a')))
        = JsMap.keys (vectors (store (world a))) ++ map _id (List.filter succeeds ns)).
Proof.
  unfold countOk, countFailed.
  induction ns as [|n ns IH]; intros c a Hw; simpl.
  - exists a. rewrite !Nat.add_0_r, !app_nil_r. split; [by destruct c|done].
  - unfold bind. destruct (succeeds n) eqn:Hn; simpl.
    + destruct (reindexNote_succeeds n c a Hw Hn) as (a1 & v & -> & Hw1 & Hv & Hd).
      destruct (IH (S (fst c), snd c) a1 Hw1) as (a' & -> & Hw' & Hd' & Hkeys).
      exists a'. simpl. split; [do 3 f_equal; lia|]. split; [done|].
      split; [by rewrite Hd', Hd|].
      intros Hall Hnd.
      assert (Hfresh : _id n ∉ JsMap.keys (vectors (store (world a)))).
      { apply NoDup_app in Hnd as (_ & Hdis & _). intros Hin.
        apply (Hdis _ Hin). left. }
      assert (Hk1 : JsMap.keys (vectors (store (world a1)))
                    = JsMap.keys (vectors (store (world a))) ++ [_id n]).
      { rewrite Hv, JsMapFacts.keys_set.
        by rewrite (proj2 (JsMapFacts.has_false_keys _ _) Hfresh). }
      rewrite Hkeys.
      * rewrite Hk1, <- app_assoc. done.
      * intros m Hm. apply Hall. by right.
      * rewrite Hk1, <- app_assoc. exact Hnd.
    + destruct (embeddingFails n) eqn:He.
      * rewrite (reindexNote_embeddingFails n c a He).
        destruct (IH (fst c, S (snd c)) a Hw) as (a' & -> & Hw' & Hd' & Hkeys).
        exists a'. simpl. split; [do 3 f_equal; lia|]. split; [done|]. split; [done|].
        intros Hall Hnd. apply Hkeys; [|done]. intros m Hm. apply Hall. by right.
      * destruct (reindexNote_fails n c a Hw Hn) as (a1 & -> & Hw1 & Hd1).
        destruct (IH (fst c, S (snd c)) a1 Hw1) as (a' & -> & Hw' & Hd' & _).
        exists a'. simpl. split; [do 3 f_equal; lia|]. split; [done|].
        split; [by rewrite Hd', Hd1|].
        intros Hall _. exfalso. destruct (Hall n ltac:(left)); congruence.
Qed.

Lemma List_filter_sublist {X} (p : X -> bool) (l : list X) :
  List.filter p l `sublist_of` l.
Proof.
  induction l as [|x l IH]; simpl; [constructor|].
  destruct (p x); by constructor.
Qed.

Lemma concat_batches {X} size fuel : forall (l : list X),
  0 < size -> length l <= fuel -> concat (batches fuel size l) = l.
Proof.
  induction fuel as [|fuel IH]; intros [|x l] Hs Hl; simpl in *; try done; [lia|].
  destruct size as [|size]; [lia|]. simpl. f_equal.
  rewrite IH; [apply take_drop|lia|].
  rewrite length_drop. lia.
Qed.

Lemma reindexBatch_app l1 l2 : forall c (a : App),
  reindexBatch (l1 ++ l2) c a
  = (let* c' := reindexBatch l1 c in reindexBatch l2 c') a.
Proof.
  induction l1 as [|n l1 IH]; intros c a; simpl; [done|].
  unfold bind at 1 2 3. destruct (reindexNote n c a) as [[c1|e] a1]; [|done].
  rewrite IH. reflexivity.
Qed.

(** Batching does not change what is done, only when. *)
Lemma reindexBatches_concat bs : forall c (a : App),
  reindexBatches bs c a = reindexBatch (concat bs) c a.
Proof.
  induction bs as [|b bs IH]; intros c a; simpl; [done|].
  rewrite reindexBatch_app. unfold bind.
  destruct (reindexBatch b c a) as [[c1|e] a1]; [|done]. apply IH.
Qed.

Lemma liftWorld_clear (a : App) :
  writable a ->
  exists w',
    liftWorld clear a = (Return tt, mkApp w' (notes a) (embeddings a))
    /\ writeFault (disk w') = None /\ vectors (store w') = []
    /\ dimension (store w') = dimension (store (world a)).
Proof.
  intros Hw. unfold liftWorld, clear. unfold bind at 1. unfold setStore, modify.
  rewrite save_ok by exact Hw. eexists. split; [reflexivity|]. done.
Qed.

(** C6, in the form the code satisfies: with at least one note and a
    writable disk, [reindexAll] does not fail on the failure of a note; it
    reports the total, [processed] = the number of notes every step of whose
    pipeline went through, [errors] = the number of the others, and the two
    add up to the total. When the ids are distinct and the only failures are
    failures to generate the embedding, the store afterwards holds exactly
    the processed notes; so 25 notes of which 3 have no embedding give
    processed = 22, errors = 3 and 22 records. *)
Theorem reindexAll_report (a : App) :
  notes a <> [] -> writable a ->
  let ns := notes a in
  let r := reindexAll a in
  fst r = Return (Reindexed (length ns) (countOk ns) (countFailed ns))
  /\ countOk ns + countFailed ns = length ns
  /\ (NoDup (map _id ns) ->
      (forall n, n ∈ ns -> succeeds n = true \/ embeddingFails n = true) ->
      JsMap.keys (vectors (store (world (snd r)))) = map _id (List.filter succeeds ns)
      /\ getCount (store (world (snd r))) = countOk ns
      /\ (length ns = 25 -> length (List.filter embeddingFails ns) = 3 ->
          fst r = Return (Reindexed 25 22 3)
          /\ getCount (store (world (snd r))) = 22)).
Proof.
  intros Hne Hw ns r.
  assert (Hlen : (length ns =? 0)%nat = false).
  { apply Nat.eqb_neq. destruct ns eqn:E; [done|simpl; lia]. }
  destruct (liftWorld_clear a Hw) as (w0 & Hclear & Hf0 & Hv0 & _).
  set (a0 := mkApp w0 (notes a) (embeddings a)) in *.
  destruct (reindexBatch_counts ns (0, 0) a0 Hf0) as (a' & Hrun & Hw' & _ & Hkeys).
  assert (Hr : r = (Return (Reindexed (length ns) (countOk ns) (countFailed ns)), a')).
  { unfold r, Reindex.reindexAll, tryCatch. unfold bind at 1. unfold gets at 1.
    fold ns. rewrite Hlen. unfold bind at 1. rewrite Hclear.
    unfold bind at 1. rewrite reindexBatches_concat.
    rewrite concat_batches by lia. fold a0. rewrite Hrun. reflexivity. }
  rewrite Hr. simpl. split; [done|]. split; [apply counts_total|].
  intros Hnd Hall.
  assert (Hk : JsMap.keys (vectors (store (world a'))) = map _id (List.filter succeeds ns)).
  { assert (Hk0 : JsMap.keys (vectors (store (world a0))) = []).
    { unfold a0. simpl. by rewrite Hv0. }
    rewrite Hkeys; rewrite ?Hk0; simpl; [done|done|].
    eapply sublist_NoDup; [exact Hnd|].
    apply (fmap_sublist _id). apply List_filter_sublist. }
  assert (Hc : getCount (store (world a')) = countOk ns).
  { unfold getCount, countOk.
    rewrite <- (length_map fst (vectors _)). fold (JsMap.keys (vectors (store (world a')))).
    by rewrite Hk, length_map. }
  split; [done|]. split; [done|].
  intros H25 H3.
  assert (Hfail : countFailed ns = 3).
  { rewrite <- H3. unfold countFailed. f_equal.
    apply List.filter_ext_in. intros n Hn. apply list_elem_of_In in Hn.
    destruct (Hall n Hn) as [Hs|He].
    - rewrite Hs. simpl. unfold succeeds in Hs.
      destruct (embeddingFails n); [done|done].
    - rewrite He. unfold succeeds. by rewrite He. }
  pose proof (counts_total ns) as Ht.
  assert (Hok : countOk ns = 22) by lia.
  rewrite Hc, Hok, Hfail, H25. done.
Qed.

End Facts.
End ReindexFacts.

(** Witness of [reindexAll_report]: the scenario of the specification. *)
Lemma reindexAll_report_witness :
  let r := Reindex.reindexAll 0%Z (fun _ => [1%Z]) (fun s => s)
             (fun _ => false) (fun _ => false) app25 in
  fst r = Return (Reindex.Reindexed 25 22 3)
  /\ getCount (store (Reindex.world (snd r))) = 22.
Proof.
  intros r.
  destruct (ReindexFacts.reindexAll_report 0%Z (fun _ => [1%Z]) (fun s => s)
              (fun _ => false) (fun _ => false) app25
              ltac:(discriminate) eq_refl) as (_ & _ & H).
  assert (Hnd : NoDup (map Reindex._id (Reindex.notes app25)))
    by (apply (bool_decide_unpack _); vm_compute; exact I).
  assert (Hall : Forall (fun n => Reindex.succeeds (fun _ => false) (fun _ => false) n = true
                                  \/ Reindex.embeddingFails n = true)
                        (Reindex.notes app25))
    by (apply (bool_decide_unpack _); vm_compute; exact I).
  rewrite Forall_forall in Hall.
  destruct (H Hnd Hall) as (_ & _ & H25).
  exact (H25 eq_refl eq_refl).
Defined.

(** With no note at all there is no report of counts, and the store is
    left as it was, stale vectors included. *)
Lemma reindexAll_without_notes :
  let a := Reindex.mkApp Examples.w1 [] [] in
  Reindex.reindexAll 0%Z (fun _ => [1%Z]) (fun s => s) (fun _ => false) (fun _ => false) a
  = (Return Reindex.NoNotes, a)
  /\ getCount (store (Reindex.world a)) = 2.
Proof. split; reflexivity. Qed.

(** ** The two maps of the store have the same keys *)

(** C10: in every state reached from an empty store on an empty disk by
    calls of the store's methods (restarts of the process included), the
    vector map and the metadata map have the same keys, in the same order;
    hence every record [search] returns carries the metadata entry the
    metadata map holds under its id. *)
Theorem keys_in_step (cs : list (@Command R)) (d k : option nat) :
  let st := store (run 0%R cs (freshWorld d k)) in
  JsMap.keys (vectors st) = JsMap.keys (metadata st)
  /\ (forall q topK filter results r,
        Search.search st q topK filter = Return results -> r ∈ results ->
        JsMap.get (Search.id r) (metadata st) = Some (Search.meta r)).
Proof.
  intros st. pose proof (reachable_inv 0%R cs d k) as [[Hwf Hk] _]. fold st in Hwf, Hk.
  split; [exact Hk|].
  intros q topK filter results r Hs Hr.
  destruct q as [[|q0 qs]|]; try discriminate. injection Hs as <-.
  apply (subseteq_take _ _) in Hr. rewrite sortStable_perm in Hr.
  destruct (SearchFacts.scan_elem _ _ _ _ _ Hr) as (v & _ & _ & _ & _ & Hmeta).
  assert (Hin : Search.id r ∈ JsMap.keys (vectors st))
    by exact (SearchFacts.scan_ids _ _ _ _ _ Hr).
  rewrite Hk in Hin.
  destruct (JsMap.get (Search.id r) (metadata st)) as [m|] eqn:E.
  - by rewrite Hmeta.
  - apply JsMapFacts.get_None_keys in E. done.
Qed.

(** ** Loading a snapshot written under another dimension *)

(** C2 fails on [load()]: the vector loaded from the snapshot keeps its
    length 2 in a store whose dimension is 3, although [load()] announces
    that the vectors will be adjusted. *)
Theorem load_keeps_foreign_dimension :
  dimension (store staleWorld) = 3
  /\ getVector (store staleWorld) "n1" = Some [1; 2]%Z
  /\ (getVector (store staleWorld) "n1" ≫= (fun v => Some (length v))) = Some 2.
Proof. vm_compute. done. Qed.

(** What does hold of C2: [addVector] and [updateVector] store a vector
    of exactly the configured dimension, whatever the length they are
    given. *)
Lemma edits_store_dimension {num} (zero : num) (w : @World num) i v meta :
  i <> EmptyString ->
  (exists v', getVector (store (snd (addVector zero (Some i) (Some v) meta w))) i = Some v'
              /\ length v' = dimension (store w))
  /\ (exists v', getVector (store (snd (updateVector zero (Some i) (Some v) meta w))) i = Some v'
                 /\ length v' = dimension (store w)).
Proof.
  intros Hne.
  assert (Hadd : exists v',
             getVector (store (snd (addVector zero (Some i) (Some v) meta w))) i = Some v'
             /\ length v' = dimension (store w)).
  { destruct (addVector_accept zero i v meta w Hne) as (st' & Hv & _ & _ & _ & ->).
    rewrite save_store. unfold getVector. simpl. rewrite Hv, JsMapFacts.get_set_eq.
    eexists. split; [done|]. apply length_adjust. }
  split; [exact Hadd|].
  destruct (JsMap.has i (vectors (store w))) eqn:Hp.
  - destruct (updateVector_present zero i v meta w Hp) as (st' & Hv & _ & _ & _ & ->).
    rewrite save_store. unfold getVector. simpl. rewrite Hv, JsMapFacts.get_set_eq.
    eexists. split; [done|]. apply length_adjust.
  - rewrite updateVector_absent by done. exact Hadd.
Qed.

(** The property order: array indices first, ascending; then the other
    keys as created. *)
Example ownEntries_order :
  PropertyOrder.ownEntries [("b", 1); ("10", 2); ("2", 3); ("01", 4); ("a", 5)]
  = [("2", 3); ("10", 2); ("b", 1); ("01", 4); ("a", 5)].
Proof. reflexivity. Qed.

(** * Further properties of the code *)

(** ** Laws of the similarity functions *)

Module SimilarityLaws.
Import Similarity.
Local Open Scope R_scope.

Local Abbreviation addSquare := (fun m x : R => m + x * x).

Lemma fold_squares_above a v : a <= fold_left addSquare v a.
Proof.
  revert a. induction v as [|x v IH]; intros a; simpl; [lra|].
  specialize (IH (a + x * x)). nra.
Qed.

Lemma sumSquares_nonneg v : 0 <= sumSquares v.
Proof. apply fold_squares_above. Qed.

Lemma magnitude_nonneg v : 0 <= magnitude v.
Proof. apply sqrt_pos. Qed.

Lemma magnitude_square v : magnitude v * magnitude v = sumSquares v.
Proof. apply sqrt_sqrt, sumSquares_nonneg. Qed.

Lemma fold_squares_elem x v : forall a, x ∈ v -> a + x * x <= fold_left addSquare v a.
Proof.
  induction v as [|y v IH]; intros a Hx; [by apply elem_of_nil in Hx|].
  simpl. apply elem_of_cons in Hx as [->|Hx].
  - apply fold_squares_above.
  - specialize (IH (a + y * y) Hx). nra.
Qed.

(** No component exceeds the magnitude. *)
Lemma component_within_magnitude x v : x ∈ v -> - magnitude v <= x <= magnitude v.
Proof.
  intros Hx. pose proof (fold_squares_elem x v 0 Hx) as Hle.
  fold (sumSquares v) in Hle. rewrite <- magnitude_square in Hle.
  pose proof (magnitude_nonneg v). nra.
Qed.

(** X1.  [normalizeVector] returns its argument itself when the magnitude
    is zero, so it never divides by zero.  It keeps the length, and each
    component of the result has the sign of the component it comes from
    and lies between -1 and 1. *)
Theorem normalizeVector_unit (v : Vec) :
  (magnitude v = 0 -> normalizeVector v = v)
  /\ length (normalizeVector v) = length v
  /\ (forall j x, v !! j = Some x ->
        exists y, normalizeVector v !! j = Some y
                  /\ -1 <= y <= 1
                  /\ (0 <= x -> 0 <= y) /\ (x <= 0 -> y <= 0)
                  /\ (x = 0 -> y = 0)).
Proof.
  unfold normalizeVector.
  destruct (Req_dec_T (magnitude v) 0) as [Hz|Hnz].
  - split; [done|]. split; [done|]. intros j x Hj. exists x. split; [done|].
    pose proof (component_within_magnitude x v (list_elem_of_lookup_2 _ _ _ Hj)).
    repeat split; lra.
  - split; [done|]. split; [by rewrite length_map|]. intros j x Hj.
    exists (x / magnitude v). split.
    { pose proof (list_lookup_fmap (fun v0 : R => v0 / magnitude v) v j) as H.
      unfold Vec in *. rewrite Hj in H. exact H. }
    pose proof (component_within_magnitude x v (list_elem_of_lookup_2 _ _ _ Hj)) as Hb.
    pose proof (magnitude_nonneg v) as Hm.
    assert (Hpos : 0 < magnitude v) by lra.
    assert (Hinv : 0 < / magnitude v) by (by apply Rinv_0_lt_compat).
    assert (H1 : magnitude v * / magnitude v = 1) by (by apply Rinv_r).
    unfold Rdiv. repeat split; nra.
Qed.

(** *** The dot product *)

Lemma dotTail_comm sum a b : dotTail sum a b = dotTail sum b a.
Proof.
  revert sum b. induction a as [|x a IH]; intros sum [|y b]; simpl; try done.
  rewrite (Rmult_comm x y). apply IH.
Qed.

Lemma dotTail_excess sum a b extra :
  length a = length b -> dotTail sum (a ++ extra) b = dotTail sum a b.
Proof.
  revert sum b. induction a as [|x a IH]; intros sum [|y b]; simpl; try done.
  - intros _. by destruct extra.
  - intros [= H]. by apply IH.
Qed.

Lemma dotTail_sum sum a b :
  dotTail sum a b = sum + fold_right Rplus 0 (zip_with Rmult a b).
Proof.
  revert sum b. induction a as [|x a IH]; intros sum [|y b]; simpl; try lra.
  rewrite IH. lra.
Qed.

(** X2.  [dotProduct], for all its unrolled loop, is the sum of the
    products of the components at the same position; it is symmetric, and
    the components of the longer vector beyond the length of the shorter one
    do not count. *)
Theorem dotProduct_pairwise (a b : Vec) :
  dotProduct a b = fold_right Rplus 0 (zip_with Rmult a b)
  /\ dotProduct a b = dotProduct b a
  /\ (forall extra, length a = length b ->
        dotProduct (a ++ extra) b = dotProduct a b
        /\ dotProduct a (b ++ extra) = dotProduct a b).
Proof.
  unfold dotProduct. split; [|split].
  - rewrite SimilarityFacts.dotUnrolled_dotTail, dotTail_sum. lra.
  - rewrite !SimilarityFacts.dotUnrolled_dotTail. apply dotTail_comm.
  - intros extra Hlen. rewrite !SimilarityFacts.dotUnrolled_dotTail. split.
    + by apply dotTail_excess.
    + rewrite (dotTail_comm 0 a (b ++ extra)), (dotTail_comm 0 a b).
      by apply dotTail_excess.
Qed.

(** *** Cosine similarity *)

(** The three sums of the loop of [cosineSimilarity]. *)
Lemma cosineLoop_swap dot nA nB a b :
  cosineLoop dot nA nB a b
  = (let '(d, x, y) := cosineLoop dot nB nA b a in (d, y, x)).
Proof.
  revert dot nA nB b. induction a as [|x a IH]; intros dot nA nB [|y b]; simpl;
    try done.
  rewrite IH, (Rmult_comm x y). done.
Qed.

Lemma cosineLoop_nonneg a : forall b dot nA nB,
  0 <= nA -> 0 <= nB ->
  0 <= snd (fst (cosineLoop dot nA nB a b)) /\ 0 <= snd (cosineLoop dot nA nB a b).
Proof.
  induction a as [|p a IH]; intros [|q b] dot nA nB HA HB; simpl; try done.
  apply IH; nra.
Qed.

Lemma cosineLoop_dot a : forall b dot nA nB,
  fst (fst (cosineLoop dot nA nB a b)) = dotTail dot a b.
Proof.
  induction a as [|p a IH]; intros [|q b] dot nA nB; simpl; first [done|apply IH].
Qed.

(** The sums of squares of the loop stay below those of the whole
    vectors. *)
Lemma cosineLoop_below a : forall b dot nA nB,
  snd (fst (cosineLoop dot nA nB a b)) <= fold_left addSquare a nA
  /\ snd (cosineLoop dot nA nB a b) <= fold_left addSquare b nB.
Proof.
  induction a as [|p a IH]; intros [|q b] dot nA nB; simpl.
  - lra.
  - split; [lra|]. pose proof (fold_squares_above (nB + q * q) b). nra.
  - split; [|lra]. pose proof (fold_squares_above (nA + p * p) a). nra.
  - apply IH.
Qed.

Lemma cosineLoop_excess a : forall b extra dot nA nB,
  length a = length b ->
  cosineLoop dot nA nB (a ++ extra) b = cosineLoop dot nA nB a b.
Proof.
  induction a as [|p a IH]; intros [|q b] extra dot nA nB Hlen; simpl; try done.
  - by destruct extra.
  - injection Hlen as Hlen. by apply IH.
Qed.

(** X3.  [cosineSimilarity] is symmetric.  It is 0, and nothing is
    divided, as soon as one vector is empty or has magnitude zero.  Only the
    components up to the length of the shorter vector count.  Its sign is
    that of [dotProduct] on the same vectors. *)
Theorem cosineSimilarity_laws (a b : Vec) :
  cosineSimilarity a b = cosineSimilarity b a
  /\ cosineSimilarity a [] = 0
  /\ (magnitude a = 0 -> cosineSimilarity a b = 0)
  /\ (forall extra, length a = length b ->
        cosineSimilarity (a ++ extra) b = cosineSimilarity a b)
  /\ (0 <= dotProduct a b -> 0 <= cosineSimilarity a b)
  /\ (dotProduct a b <= 0 -> cosineSimilarity a b <= 0).
Proof.
  assert (Hsign : forall d x y, 0 <= x -> 0 <= y ->
            let c := if Req_dec_T (sqrt x) 0 then 0
                     else if Req_dec_T (sqrt y) 0 then 0
                     else d / (sqrt x * sqrt y) in
            (0 <= d -> 0 <= c) /\ (d <= 0 -> c <= 0)).
  { intros d x y Hx Hy c. unfold c.
    destruct (Req_dec_T (sqrt x) 0); [lra|].
    destruct (Req_dec_T (sqrt y) 0); [lra|].
    pose proof (sqrt_pos x). pose proof (sqrt_pos y).
    assert (Hs : 0 < sqrt x * sqrt y) by nra.
    assert (Hi : 0 < / (sqrt x * sqrt y)) by (by apply Rinv_0_lt_compat).
    unfold Rdiv. split; nra. }
  split; [|split; [|split; [|split]]].
  - unfold cosineSimilarity. rewrite (cosineLoop_swap 0 0 0 a b).
    destruct (cosineLoop 0 0 0 b a) as [[d y] x].
    destruct (Req_dec_T (sqrt x) 0), (Req_dec_T (sqrt y) 0); try done.
    by rewrite (Rmult_comm (sqrt x)).
  - unfold cosineSimilarity. destruct a; simpl; rewrite sqrt_0;
      destruct (Req_dec_T 0 0); try done; by destruct (Req_dec_T _ _).
  - intros Hz. unfold cosineSimilarity.
    pose proof (cosineLoop_below a b 0 0 0) as [Hle _].
    pose proof (cosineLoop_nonneg a b 0 0 0) as [Hx _]; [lra|lra|].
    destruct (cosineLoop 0 0 0 a b) as [[d x] y]. simpl in Hle, Hx.
    assert (Hs : sumSquares a = 0).
    { rewrite <- magnitude_square, Hz. lra. }
    unfold sumSquares in Hs. assert (x = 0) by lra. subst x. rewrite sqrt_0.
    by destruct (Req_dec_T 0 0).
  - intros extra Hlen. unfold cosineSimilarity. by rewrite cosineLoop_excess.
  - unfold cosineSimilarity, dotProduct.
    rewrite SimilarityFacts.dotUnrolled_dotTail, <- (cosineLoop_dot a b 0 0 0).
    pose proof (cosineLoop_nonneg a b 0 0 0) as [Hx Hy]; [lra|lra|].
    destruct (cosineLoop 0 0 0 a b) as [[d x] y]. simpl in *.
    exact (Hsign d x y Hx Hy).
Qed.

(** *** Euclidean distance *)

Lemma distanceLoop_comm sum a b : distanceLoop sum a b = distanceLoop sum b a.
Proof.
  revert sum b. induction a as [|x a IH]; intros sum [|y b]; simpl; try done.
  replace ((y - x) * (y - x)) with ((x - y) * (x - y)) by ring. apply IH.
Qed.

Lemma distanceLoop_above sum a b : sum <= distanceLoop sum a b.
Proof.
  revert sum b. induction a as [|x a IH]; intros sum [|y b]; simpl; try lra.
  specialize (IH (sum + (x - y) * (x - y)) b).
  pose proof (Rle_0_sqr (x - y)) as Hsq. unfold Rsqr in Hsq. lra.
Qed.

Lemma distanceLoop_self sum a : distanceLoop sum a a = sum.
Proof.
  revert sum. induction a as [|x a IH]; intros sum; simpl; [done|].
  rewrite IH. ring.
Qed.

Lemma distanceLoop_zero a : forall b sum,
  0 <= sum -> length a = length b -> distanceLoop sum a b = 0 -> a = b.
Proof.
  induction a as [|x a IH]; intros [|y b] sum Hs Hlen Hz; simpl in *; try done.
  injection Hlen as Hlen.
  pose proof (distanceLoop_above (sum + (x - y) * (x - y)) a b) as Hab.
  pose proof (Rle_0_sqr (x - y)) as Hsq. unfold Rsqr in Hsq.
  assert (Hxy : (x - y) * (x - y) = 0) by lra.
  assert (x = y).
  { apply Rmult_integral in Hxy. lra. }
  subst y. f_equal.
  apply (IH b (sum + (x - x) * (x - x))); [lra|done|done].
Qed.

(** X4.  [euclideanDistance] is symmetric and never negative; it is 0
    from a vector to itself, and two vectors of the same length at distance
    0 are the same vector. *)
Theorem euclideanDistance_laws (a b : Vec) :
  euclideanDistance a b = euclideanDistance b a
  /\ 0 <= euclideanDistance a b
  /\ euclideanDistance a a = 0
  /\ (length a = length b -> euclideanDistance a b = 0 -> a = b).
Proof.
  unfold euclideanDistance. split; [|split; [|split]].
  - by rewrite distanceLoop_comm.
  - apply sqrt_pos.
  - rewrite distanceLoop_self. apply sqrt_0.
  - intros Hlen Hz. apply (distanceLoop_zero a b 0); [lra|done|].
    apply sqrt_eq_0; [|done]. apply distanceLoop_above.
Qed.

End SimilarityLaws.

(** ** Further properties of [search] and [batchSearch] *)

Module SearchLaws.
Import Similarity Search.
Local Open Scope R_scope.

(** A record that passes the filter is scored. *)
Lemma scan_complete st filter nq entries i v :
  (i, v) ∈ entries ->
  excluded filter i = false ->
  categoryMismatch filter (JsMap.get i (metadata st)) = false ->
  mkResult i (dotProduct nq (normalizeVector v))
           (default ∅ (JsMap.get i (metadata st)))
  ∈ scan st filter nq entries.
Proof.
  intros Hin Hex Hcat. induction entries as [|[j u] entries IH]; simpl.
  - by apply elem_of_nil in Hin.
  - apply elem_of_cons in Hin as [[= <- <-]|Hin].
    + rewrite Hex, Hcat. left.
    + destruct (excluded filter j); [auto|].
      destruct (categoryMismatch filter (JsMap.get j (metadata st))); [auto|].
      right. auto.
Qed.

Lemma StronglySorted_app_cross {A} (rel : A -> A -> Prop) (l1 l2 : list A) :
  StronglySorted rel (l1 ++ l2) -> forall x y, x ∈ l1 -> y ∈ l2 -> rel x y.
Proof.
  induction l1 as [|a l1 IH]; simpl; intros Hs x y Hx Hy.
  - by apply elem_of_nil in Hx.
  - apply StronglySorted_inv in Hs as [Hs Ha].
    apply elem_of_cons in Hx as [->|Hx]; [|by apply IH].
    rewrite Forall_forall in Ha. apply Ha. apply elem_of_app. by right.
Qed.

(** [slice(0, end)] keeps the first entries, however many. *)
Lemma sliceTo_take {A} (z : Z) (l : list A) :
  exists n, sliceTo (Some z) l = take n l
            /\ n = if (0 <=? z)%Z then Z.to_nat z else (length l - Z.to_nat (- z))%nat.
Proof. unfold sliceTo. destruct (0 <=? z)%Z; by eexists. Qed.

(** For a count, [searchInt] is [search]. *)
Lemma search_searchInt st q (k : option nat) filter :
  search st q k filter = searchInt st q (Z.of_nat <$> k) filter.
Proof.
  destruct q as [[|q0 qs]|]; try done. unfold search, searchInt. do 2 f_equal.
  assert (He : effectiveKInt st (Z.of_nat <$> k) = Z.of_nat (effectiveK st k)).
  { destruct k as [[|n]|]; simpl; try done. }
  rewrite He. unfold slice0. by rewrite sliceTo_count.
Qed.

Lemma searchInt_ids st q k filter results r :
  searchInt st q k filter = Return results -> r ∈ results ->
  id r ∈ JsMap.keys (vectors st).
Proof.
  destruct q as [[|q0 qs]|]; try discriminate. unfold searchInt. intros [= <-] Hr.
  apply (sliceTo_subseteq (Some _)) in Hr. rewrite sortStable_perm in Hr.
  by apply SearchFacts.scan_ids in Hr.
Qed.

Lemma searchInt_ids_NoDup st q k filter results :
  JsMap.wf (vectors st) -> searchInt st q k filter = Return results ->
  NoDup (map id results).
Proof.
  intros Hwf. destruct q as [[|q0 qs]|]; try discriminate. unfold searchInt.
  intros [= <-].
  eapply sublist_NoDup; [|apply (fmap_sublist id), (sliceTo_sublist (Some _))].
  rewrite sortStable_perm.
  eapply sublist_NoDup; [exact Hwf|apply SearchFacts.scan_ids_sublist].
Qed.

(** X6.  [search] returns the best records, for every number it is given
    as [topK].  For a positive [k] it returns [k] results, or all the
    records that pass the filter when they are fewer; for 0, NaN or no [k]
    the configured default takes the place of [k]; for a negative [k] it
    returns all the records that pass the filter but the last [-k] of the
    ranking.  In each case a record that passes the filter and is not
    returned scores no more than any result. *)
Theorem search_top (st : @VectorStore R) (q : Vec) (k : option Z)
    (filter : Filter) (results : list Result) :
  searchInt st (Some q) k filter = Return results ->
  let eligible := scan st filter (normalizeVector q) (vectors st) in
  (forall n : option nat, k = Z.of_nat <$> n ->
     search st (Some q) n filter = Return results)
  /\ (forall n, k = Some (Z.pos n) ->
        length results = Nat.min (Pos.to_nat n) (length eligible))
  /\ (k = None \/ k = Some 0%Z ->
        length results = Nat.min (topK st) (length eligible))
  /\ (forall n, k = Some (Z.neg n) ->
        length results = (length eligible - Pos.to_nat n)%nat)
  /\ (forall i v,
        (i, v) ∈ vectors st ->
        excluded filter i = false ->
        categoryMismatch filter (JsMap.get i (metadata st)) = false ->
        let c := mkResult i (dotProduct (normalizeVector q) (normalizeVector v))
                          (default ∅ (JsMap.get i (metadata st))) in
        c ∈ results \/ (forall r, r ∈ results -> score c <= score r)).
Proof.
  intros Hs eligible.
  split.
  { intros n ->. by rewrite search_searchInt. }
  destruct q as [|q0 qs]; [discriminate|]. injection Hs as <-.
  set (nq := normalizeVector (q0 :: qs)) in *.
  set (sorted := sortStable _ _).
  assert (Hlen : length sorted = length eligible).
  { unfold sorted. by rewrite length_sortStable. }
  split; [|split; [|split]].
  - intros n ->. simpl. destruct (Z.leb_spec 0 (Z.pos n)); [|lia].
    rewrite length_take, Hlen. lia.
  - intros Hk. assert (He : effectiveKInt st k = Z.of_nat (topK st)).
    { destruct Hk as [->| ->]; done. }
    rewrite He. destruct (Z.leb_spec 0 (Z.of_nat (topK st))); [|lia].
    rewrite Nat2Z.id, length_take, Hlen. done.
  - intros n ->. simpl. rewrite length_take, Hlen. lia.
  - intros i v Hin Hex Hcat c.
    assert (Hcs : c ∈ sorted).
    { unfold sorted. rewrite sortStable_perm. by apply scan_complete. }
    change (c ∈ sliceTo (Some (effectiveKInt st k)) sorted
            \/ (forall r, r ∈ sliceTo (Some (effectiveKInt st k)) sorted ->
                   score c <= score r)).
    destruct (sliceTo_take (effectiveKInt st k) sorted) as (n & -> & _).
    rewrite <- (take_drop n sorted) in Hcs.
    apply elem_of_app in Hcs as [Hc|Hc]; [by left|right].
    intros r Hr.
    pose proof (SearchFacts.search_sorted (scan st filter nq (vectors st))) as Hsorted.
    fold sorted in Hsorted. rewrite <- (take_drop n sorted) in Hsorted.
    exact (StronglySorted_app_cross _ _ _ Hsorted r c Hr Hc).
Qed.

(** X7.  [batchSearch] answers every query as [search] without filter
    does, in the order of the queries; it fails exactly when one of the
    queries is missing or empty. *)
Theorem batchSearch_pointwise (st : @VectorStore R) (qs : list (option Vec))
    (k : option nat) :
  (forall rss, batchSearch st qs k = Return rss <->
               Forall2 (fun q rs => search st q k noFilter = Return rs) qs rss)
  /\ ((exists e, batchSearch st qs k = Throw e)
      <-> exists q, q ∈ qs /\ (q = None \/ q = Some [])).
Proof.
  split.
  - induction qs as [|q qs IH]; intros rss; simpl.
    + split; [intros [= <-]; constructor|]. by inversion 1.
    + destruct (search st q k noFilter) as [r|e] eqn:Es.
      * destruct (batchSearch st qs k) as [rs|e] eqn:Eb.
        -- split.
           ++ intros [= <-]. constructor; [done|]. by apply IH.
           ++ inversion 1 as [|? rs0 ? rss0 Hq Hrest]; subst.
              rewrite Es in Hq. injection Hq as <-.
              apply IH in Hrest. by injection Hrest as <-.
        -- split; [done|]. inversion 1 as [|? rs0 ? rss0 Hq Hrest]; subst.
           apply IH in Hrest. done.
      * split; [done|]. inversion 1 as [|? rs0 ? rss0 Hq Hrest]; subst.
        rewrite Es in Hq. done.
  - induction qs as [|q qs IH]; simpl.
    + split; [by intros [e ?]|]. intros (q & Hq & _). by apply elem_of_nil in Hq.
    + destruct q as [[|q0 q1]|]; simpl.
      * split; [|by eauto]. intros _. exists (Some []). split; [left|by right].
      * destruct (batchSearch st qs k) as [rs|e].
        -- split; [by intros [e ?]|]. intros (q & Hq & Hbad).
           apply elem_of_cons in Hq as [->|Hq]; [by destruct Hbad|].
           destruct (proj2 IH) as [e He]; [by eauto|done].
        -- split; [|by eauto]. intros _.
           destruct (proj1 IH) as (q & Hq & Hbad); [by eauto|].
           exists q. split; [by right|done].
      * split; [|by eauto]. intros _. exists None. split; [left|by left].
Qed.

End SearchLaws.

(** Witness of [search_top]: of the three records of [triStore], two are
    returned for [topK] = 2 and also for [topK] = -1. *)
Lemma search_top_witness :
  (exists results,
     Search.searchInt triStore (Some [1%R; 0%R]) (Some 2%Z) Search.noFilter
     = Return results /\ length results = 2)
  /\ (exists results,
        Search.searchInt triStore (Some [1%R; 0%R]) (Some (-1)%Z) Search.noFilter
        = Return results /\ length results = 2).
Proof.
  split.
  - eexists. split; [reflexivity|].
    destruct (SearchLaws.search_top triStore [1%R; 0%R] (Some 2%Z) Search.noFilter
                _ eq_refl) as (_ & H & _).
    exact (H 2%positive eq_refl).
  - eexists. split; [reflexivity|].
    destruct (SearchLaws.search_top triStore [1%R; 0%R] (Some (-1)%Z) Search.noFilter
                _ eq_refl) as (_ & _ & _ & H & _).
    exact (H 1%positive eq_refl).
Defined.

(** ** Further properties of the store *)

Section StoreLaws.
Context {num : Type}.
Variable zero : num.
Implicit Types (w : @World num) (st : @VectorStore num).

(** *** The index mappings *)

Lemma indexMappings_from (ids : list string) : forall (m0 : JsMap.t nat) (l0 : list string),
  (forall id n, JsMap.get id m0 = Some n -> l0 !! n = Some id) ->
  let r := fold_left
             (fun acc id => (JsMap.set id (length (snd acc)) (fst acc), snd acc ++ [id]))
             ids (m0, l0) in
  snd r = l0 ++ ids
  /\ (forall id n, JsMap.get id (fst r) = Some n -> snd r !! n = Some id)
  /\ (forall id, id ∈ ids -> JsMap.has id (fst r) = true)
  /\ (forall id, JsMap.has id m0 = true -> JsMap.has id (fst r) = true).
Proof.
  induction ids as [|i ids IH]; intros m0 l0 H0; simpl.
  - rewrite app_nil_r. split; [done|]. split; [done|]. split; [|done].
    intros id Hid. by apply elem_of_nil in Hid.
  - destruct (IH (JsMap.set i (length l0) m0) (l0 ++ [i])) as (H1 & H2 & H3 & H4).
    { intros id n. destruct (decide (i = id)) as [->|Hne].
      - rewrite JsMapFacts.get_set_eq. intros [= <-].
        rewrite lookup_app_r by lia. by rewrite Nat.sub_diag.
      - rewrite JsMapFacts.get_set_ne by done. intros Hg.
        apply H0 in Hg. rewrite lookup_app_l; [done|]. by eapply lookup_lt_Some. }
    split; [by rewrite H1, <- app_assoc|]. split; [done|].
    assert (Hset : forall id, id = i \/ JsMap.has id m0 = true ->
                     JsMap.has id (JsMap.set i (length l0) m0) = true).
    { intros id Hid. unfold JsMap.has. destruct (decide (i = id)) as [->|Hne].
      - by rewrite JsMapFacts.get_set_eq.
      - rewrite JsMapFacts.get_set_ne by done. destruct Hid as [->|Hid]; done. }
    split.
    + intros id Hid. apply elem_of_cons in Hid as [->|Hid]; [|by apply H3].
      apply H4, Hset. by left.
    + intros id Hid. apply H4, Hset. by right.
Qed.

Lemma indexMappings_spec (ids : list string) :
  snd (indexMappings ids) = ids
  /\ (forall id n, JsMap.get id (fst (indexMappings ids)) = Some n -> ids !! n = Some id)
  /\ (forall id, id ∈ ids -> JsMap.has id (fst (indexMappings ids)) = true).
Proof.
  destruct (indexMappings_from ids [] []) as (H1 & H2 & H3 & _); [done|].
  fold (indexMappings ids) in H1, H2, H3. simpl in H1.
  split; [done|]. split; [|done]. intros id n Hg. rewrite <- H1. by apply H2.
Qed.

Lemma indexInv_rebuilt (vs : JsMap.t (list num)) ms d k :
  indexInv (mkStore vs ms d k (fst (indexMappings (JsMap.keys vs)))
                    (snd (indexMappings (JsMap.keys vs)))).
Proof.
  destruct (indexMappings_spec (JsMap.keys vs)) as (H1 & H2 & H3).
  split; simpl; [|done]. intros id n Hg. rewrite H1. by apply H2.
Qed.

Lemma save_indexInv w : indexInv (store w) -> indexInv (store (snd (save w))).
Proof. by rewrite save_store. Qed.

Lemma addVector_indexInv id vec meta w :
  indexInv (store w) -> indexInv (store (snd (addVector zero id vec meta w))).
Proof.
  intros [Hi Hk]. unfold addVector.
  destruct id as [i|]; [|done]. destruct vec as [v|]; [|done].
  destruct (String.eqb i EmptyString); [done|].
  unfold bind at 1. unfold gets at 1. unfold bind at 1. unfold now, gets at 1.
  unfold bind at 1. unfold setStore, modify. rewrite save_store. simpl.
  destruct (JsMap.has i (idToIndex (store w))) eqn:Hhas.
  - split; simpl; [done|]. intros id. rewrite JsMapFacts.keys_set.
    destruct (JsMap.has i (vectors (store w))); [by apply Hk|].
    intros Hid. apply elem_of_app in Hid as [Hid|Hid]; [by apply Hk|].
    apply list_elem_of_singleton in Hid. by subst.
  - split; simpl.
    + intros id n. destruct (decide (i = id)) as [->|Hne].
      * rewrite JsMapFacts.get_set_eq. intros [= <-].
        rewrite lookup_app_r by lia. by rewrite Nat.sub_diag.
      * rewrite JsMapFacts.get_set_ne by done. intros Hg. apply Hi in Hg.
        rewrite lookup_app_l; [done|]. by eapply lookup_lt_Some.
    + intros id Hid. unfold JsMap.has. destruct (decide (i = id)) as [->|Hne].
      * by rewrite JsMapFacts.get_set_eq.
      * rewrite JsMapFacts.get_set_ne by done. rewrite JsMapFacts.keys_set in Hid.
        assert (Hin : id ∈ JsMap.keys (vectors (store w))).
        { destruct (JsMap.has i (vectors (store w))); [done|].
          apply elem_of_app in Hid as [Hid|Hid]; [done|].
          apply list_elem_of_singleton in Hid. congruence. }
        apply Hk in Hin. exact Hin.
Qed.

Lemma updateVector_indexInv id vec meta w :
  indexInv (store w) -> indexInv (store (snd (updateVector zero id vec meta w))).
Proof.
  intros Hinv. unfold updateVector. unfold bind at 1. unfold gets at 1.
  destruct (match id with Some i => JsMap.has i (vectors (store w)) | None => false end)
    eqn:Hp; simpl; [|by apply addVector_indexInv].
  destruct id as [i|]; [|done]. destruct vec as [v|]; [|done].
  unfold bind at 1. unfold gets at 1. unfold bind at 1. unfold now, gets at 1.
  unfold bind at 1. unfold setStore, modify. rewrite save_store. simpl.
  destruct Hinv as [Hi Hk]. split; simpl; [done|].
  intros id. rewrite JsMapFacts.keys_set, Hp. apply Hk.
Qed.

Lemma removeVector_indexInv id w :
  indexInv (store w) -> indexInv (store (snd (removeVector id w))).
Proof.
  intros [Hi Hk]. unfold removeVector, bind, gets, setStore, modify, ret. simpl.
  set (w' := mkWorld _ _ _).
  assert (Hw' : indexInv (store w')).
  { split; simpl; [done|]. intros i Hin. apply Hk.
    by apply (JsMapFacts.keys_remove_subseteq id (vectors (store w))). }
  destruct (JsMap.has id (vectors (store w))); [|done].
  pose proof (save_store w') as Hs. destruct (save w') as [[[]|e] w'']; simpl in *;
    by rewrite Hs.
Qed.

Lemma load_indexInv w : indexInv (store w) -> indexInv (store (snd (load w))).
Proof.
  intros Hinv. unfold load. unfold_monad.
  destruct (file (disk w)) as [|code|[doc|]]; simpl; try done.
  - destruct (String.eqb code "ENOENT"); done.
  - apply indexInv_rebuilt.
Qed.

Lemma emptied_indexInv st :
  indexInv st ->
  indexInv (mkStore (num:=num) [] [] (dimension st) (topK st)
                   (idToIndex st) (indexToId st)).
Proof.
  intros [Hi _]. split; simpl; [done|]. intros id Hid. by apply elem_of_nil in Hid.
Qed.

Lemma initialize_indexInv w :
  indexInv (store w) -> indexInv (store (snd (initialize w))).
Proof.
  intros Hinv. unfold initialize, tryCatch, bind.
  unfold mkdir at 1. unfold bind, gets.
  destruct (writeFault (disk w)) as [code|]; simpl.
  - by apply emptied_indexInv.
  - pose proof (load_indexInv w Hinv) as H.
    destruct (load w) as [[[]|e] w']; simpl in *; [done|].
    by apply emptied_indexInv.
Qed.

Lemma exec_indexInv c w : indexInv (store w) -> indexInv (store (exec zero c w)).
Proof.
  intros Hinv. destruct c as [id vec meta|id vec meta|id| | | | |ed ek|n|fault]; simpl.
  - by apply addVector_indexInv.
  - by apply updateVector_indexInv.
  - by apply removeVector_indexInv.
  - unfold clear, bind, setStore, modify. rewrite save_store. simpl.
    split; simpl; [done|]. intros id Hid. by apply elem_of_nil in Hid.
  - by apply save_indexInv.
  - by apply load_indexInv.
  - unfold rebuildIndex, bind, setStore, modify. rewrite save_store. simpl.
    apply indexInv_rebuilt.
  - apply initialize_indexInv. split; simpl; [done|].
    intros id Hid. by apply elem_of_nil in Hid.
  - exact Hinv.
  - exact Hinv.
Qed.

(** X8.  In every state the store reaches, the two index mappings agree
    ([indexToId] holds, at the index [idToIndex] gives an id, that id) and
    every id of the vector map has an index.  After [rebuildIndex()],
    whether or not its [save()] succeeds, [indexToId] is exactly the list of
    the ids of the vector map, in its order. *)
Theorem index_consistent (cs : list (@Command num)) (d k : option nat) :
  let w := run zero cs (freshWorld d k) in
  indexInv (store w)
  /\ indexToId (store (snd (rebuildIndex w))) = JsMap.keys (vectors (store w))
  /\ vectors (store (snd (rebuildIndex w))) = vectors (store w).
Proof.
  intros w. split; [|split].
  - unfold w. clear w.
    assert (G : forall w0 : @World num,
               indexInv (store w0) -> indexInv (store (run zero cs w0))).
    { induction cs as [|c cs' IH]; intros w0 Hw0; simpl; [done|].
      apply IH. by apply exec_indexInv. }
    apply G. split; simpl; [done|]. intros id Hid. by apply elem_of_nil in Hid.
  - unfold rebuildIndex, bind, setStore, modify. rewrite save_store. simpl.
    apply indexMappings_spec.
  - unfold rebuildIndex, bind, setStore, modify. by rewrite save_store.
Qed.

(** *** [initialize] and [clear] *)

(** X9.  [initialize()] never throws and leaves the disk as it is.  When
    the storage directory cannot be made, the snapshot cannot be read or its
    text does not parse, the store starts with both maps empty; when there is
    no snapshot file it starts with the maps it had. *)
Theorem initialize_recovers w :
  fst (initialize w) = Return tt
  /\ disk (snd (initialize w)) = disk w
  /\ ((writeFault (disk w) <> None \/ file (disk w) = Text Malformed
       \/ exists code, file (disk w) = Faulty code /\ code <> "ENOENT") ->
      vectors (store (snd (initialize w))) = []
      /\ metadata (store (snd (initialize w))) = [])
  /\ (writeFault (disk w) = None -> file (disk w) = Missing ->
      snd (initialize w) = w).
Proof.
  unfold initialize, tryCatch, bind. unfold mkdir at 1 2 3 4 5. unfold bind, gets.
  destruct (writeFault (disk w)) as [code|] eqn:Ef; simpl.
  - split; [done|]. split; [done|]. split; [done|]. done.
  - unfold load. unfold_monad.
    destruct (file (disk w)) as [|code|[doc|]] eqn:Efile; simpl.
    + split; [done|]. split; [done|]. split; [|done].
      intros [H|[H|(c & H & _)]]; done.
    + destruct (String.eqb_spec code "ENOENT") as [->|Hne]; simpl.
      * split; [done|]. split; [done|]. split; [|done].
        intros [H|[H|(c & [= <-] & Hc)]]; done.
      * split; [done|]. split; [done|]. split; [done|]. done.
    + split; [done|]. split; [done|]. split; [|done].
      intros [H|[H|(c & H & _)]]; done.
    + split; [done|]. split; [done|]. split; [done|]. done.
Qed.

(** X10.  [clear()] empties both maps and both index mappings in memory,
    whatever becomes of the snapshot.  With a writable disk it returns and a
    process restarted on that disk starts empty; with a disk that cannot be
    written it throws the file-system error and the old snapshot stays on
    disk. *)
Theorem clear_empties w :
  let r := clear w in
  vectors (store (snd r)) = [] /\ metadata (store (snd r)) = []
  /\ idToIndex (store (snd r)) = [] /\ indexToId (store (snd r)) = []
  /\ dimension (store (snd r)) = dimension (store w)
  /\ (writeFault (disk w) = None ->
      fst r = Return tt
      /\ forall ed ek, vectors (store (exec zero (Restart ed ek) (snd r))) = []
                       /\ metadata (store (exec zero (Restart ed ek) (snd r))) = [])
  /\ (forall code, writeFault (disk w) = Some code ->
      fst r = Throw (FsError code) /\ disk (snd r) = disk w).
Proof.
  intros r. subst r. unfold clear, bind, setStore, modify. simpl.
  set (w' := mkWorld _ _ _).
  rewrite save_store. simpl. do 5 (split; [done|]). split.
  - intros Hf. rewrite (save_ok w' Hf). split; [done|]. intros ed ek. done.
  - intros code Hf. rewrite (save_fault w' code Hf). done.
Qed.

(** *** Counting and reading back *)

Lemma length_remove {V} k (m : JsMap.t V) :
  length (JsMap.remove k m)
  = if JsMap.has k m then Nat.pred (length m) else length m.
Proof.
  induction m as [|[k' v'] m IH]; simpl; [done|].
  unfold JsMap.has in *. simpl. destruct (String.eqb k k'); simpl; [done|].
  rewrite IH. destruct (JsMap.get k m) eqn:E; [|done].
  destruct m; [done|]. done.
Qed.

(** X11.  [getCount()] goes up by one when [addVector] or [updateVector]
    is given a new id, stays when the id is known, and goes down by one when
    [removeVector] is given a known id (it stays otherwise), whether or not
    the snapshot can be written. *)
Theorem getCount_steps w i v meta :
  i <> EmptyString ->
  let n := getCount (store w) in
  let known := JsMap.has i (vectors (store w)) in
  getCount (store (snd (addVector zero (Some i) (Some v) meta w)))
  = (if known then n else S n)
  /\ getCount (store (snd (updateVector zero (Some i) (Some v) meta w)))
     = (if known then n else S n)
  /\ getCount (store (snd (removeVector i w)))
     = (if known then Nat.pred n else n).
Proof.
  intros Hne n known.
  assert (Hadd : getCount (store (snd (addVector zero (Some i) (Some v) meta w)))
                 = (if known then n else S n)).
  { destruct (addVector_accept zero i v meta w Hne) as (st' & Hv & _ & _ & _ & ->).
    rewrite save_store. unfold getCount. simpl. rewrite Hv.
    apply JsMapFacts.length_set. }
  split; [exact Hadd|]. split.
  - destruct known eqn:Hk; subst known.
    + destruct (updateVector_present zero i v meta w Hk) as (st' & Hv & _ & _ & _ & ->).
      rewrite save_store. unfold getCount. simpl. rewrite Hv.
      rewrite JsMapFacts.length_set, Hk. done.
    + rewrite updateVector_absent by done. exact Hadd.
  - unfold removeVector, bind, gets, setStore, modify, ret. simpl.
    set (w' := mkWorld _ _ _).
    assert (Hw' : getCount (store w') = (if known then Nat.pred n else n)).
    { unfold getCount. simpl. apply length_remove. }
    destruct (JsMap.has i (vectors (store w))); [|exact Hw'].
    pose proof (save_store w') as Hs. destruct (save w') as [[[]|e] w'']; simpl in *;
      by rewrite Hs.
Qed.

Lemma repeat_lookup {X} (x : X) k n : n < k -> repeat x k !! n = Some x.
Proof.
  revert n. induction k as [|k IH]; intros [|n] Hn; simpl; try lia; [done|].
  apply IH. lia.
Qed.

Lemma adjust_lookup d (v : list num) n :
  n < d -> adjust zero d v !! n = Some (default zero (v !! n)).
Proof.
  intros Hn. unfold adjust.
  destruct (Nat.eqb_spec (length v) d) as [Heq|Hne]; simpl.
  - destruct (v !! n) eqn:E; [done|]. apply lookup_ge_None in E. lia.
  - destruct (Nat.ltb_spec (length v) d) as [Hlt|Hge].
    + destruct (decide (n < length v)) as [Hin|Hout].
      * rewrite lookup_app_l by done.
        destruct (v !! n) eqn:E; [done|]. apply lookup_ge_None in E. lia.
      * rewrite lookup_app_r by lia.
        rewrite (proj2 (lookup_ge_None v n)) by lia. simpl.
        apply repeat_lookup. lia.
    + rewrite lookup_take_lt by done.
      destruct (v !! n) eqn:E; [done|]. apply lookup_ge_None in E. lia.
Qed.

(** X12.  The vector [getVector] reads back after [addVector] has the
    configured dimension; below it, its component at each position is that
    of the vector given, or 0 where the vector given is too short. *)
Theorem addVector_reads_back w i v meta :
  i <> EmptyString ->
  exists v',
    getVector (store (snd (addVector zero (Some i) (Some v) meta w))) i = Some v'
    /\ length v' = dimension (store w)
    /\ forall n, n < dimension (store w) -> v' !! n = Some (default zero (v !! n)).
Proof.
  intros Hne.
  destruct (addVector_accept zero i v meta w Hne) as (st' & Hv & _ & _ & _ & ->).
  rewrite save_store. unfold getVector. simpl. rewrite Hv, JsMapFacts.get_set_eq.
  eexists. split; [done|]. split; [apply length_adjust|]. apply adjust_lookup.
Qed.

End StoreLaws.

(** Witness of [getCount_steps]: a second record for [w0]. *)
Lemma getCount_steps_witness :
  getCount (store (snd (addVector 0%Z (Some "n1") (Some [7%Z]) ∅ Examples.w0))) = 1.
Proof.
  destruct (getCount_steps 0%Z Examples.w0 "n1" [7%Z] ∅ ltac:(discriminate)) as [H _].
  exact H.
Defined.

(** Witness of [addVector_reads_back]: a vector of one component in a
    store of dimension 3. *)
Lemma addVector_reads_back_witness :
  exists v',
    getVector (store (snd (addVector 0%Z (Some "n1") (Some [7%Z]) ∅ Examples.w0))) "n1"
    = Some v'
    /\ v' !! 2 = Some 0%Z.
Proof.
  destruct (addVector_reads_back 0%Z Examples.w0 "n1" [7%Z] ∅ ltac:(discriminate))
    as (v' & Hv & _ & Hn).
  exists v'. split; [exact Hv|]. apply (Hn 2). simpl. lia.
Defined.

(** ** A reload is stable *)

Module ReloadLaws.
Import PropertyOrder.

Lemma insertIndexed_keeps_sorted {V} (x : string * V) l :
  StronglySorted byIndex l -> StronglySorted byIndex (insertIndexed x l).
Proof.
  induction 1 as [|y l Hl IH Hy]; simpl; [repeat constructor|].
  destruct (N.leb_spec (indexOf (fst x)) (indexOf (fst y))) as [Hle|Hgt].
  - constructor; [by constructor|]. constructor; [done|].
    eapply Forall_impl; [exact Hy|]. intros z Hz. unfold byIndex in *. lia.
  - constructor; [done|]. rewrite PropertyOrderFacts.insertIndexed_perm.
    constructor; [unfold byIndex; lia|done].
Qed.

Lemma sortIndexed_sorted {V} (l : list (string * V)) :
  StronglySorted byIndex (sortIndexed l).
Proof.
  induction l as [|x l IH]; simpl; [constructor|]. by apply insertIndexed_keeps_sorted.
Qed.

Lemma sortIndexed_of_sorted {V} (l : list (string * V)) :
  StronglySorted byIndex l -> sortIndexed l = l.
Proof.
  induction 1 as [|x l Hl IH Hx]; simpl; [done|]. rewrite IH.
  destruct l as [|y l]; simpl; [done|].
  apply Forall_cons in Hx as [Hxy _]. unfold byIndex in Hxy.
  by rewrite (proj2 (N.leb_le _ _) Hxy).
Qed.

Lemma filter_all {X} (p : X -> bool) (l : list X) :
  Forall (fun x => p x = true) l -> List.filter p l = l.
Proof. induction 1 as [|x l Hx _ IH]; simpl; [done|]. by rewrite Hx, IH. Qed.

Lemma filter_none {X} (p : X -> bool) (l : list X) :
  Forall (fun x => p x = false) l -> List.filter p l = [].
Proof. induction 1 as [|x l Hx _ IH]; simpl; [done|]. by rewrite Hx, IH. Qed.

Lemma filter_Forall {X} (p : X -> bool) (l : list X) :
  Forall (fun x => p x = true) (List.filter p l).
Proof.
  induction l as [|x l IH]; simpl; [constructor|].
  destruct (p x) eqn:E; [by constructor|done].
Qed.

Lemma filter_app_list {X} (p : X -> bool) (l1 l2 : list X) :
  List.filter p (l1 ++ l2) = List.filter p l1 ++ List.filter p l2.
Proof.
  induction l1 as [|x l1 IH]; simpl; [done|]. destruct (p x); simpl; by rewrite IH.
Qed.

(** Enumerating the properties of an object created in property order
    gives that order again. *)
Lemma ownEntries_idempotent {V} (l : list (string * V)) :
  ownEntries (ownEntries l) = ownEntries l.
Proof.
  pose (isIdx := fun kv : string * V => isArrayIndex (fst kv)).
  pose (notIdx := fun kv : string * V => negb (isArrayIndex (fst kv))).
  pose (S := sortIndexed (List.filter isIdx l)).
  pose (N := List.filter notIdx l).
  assert (HS : Forall (fun x => isIdx x = true) S).
  { unfold S. rewrite PropertyOrderFacts.sortIndexed_perm. apply filter_Forall. }
  assert (HN : Forall (fun x => notIdx x = true) N) by apply filter_Forall.
  assert (E : ownEntries l = S ++ N) by reflexivity.
  rewrite E.
  change (ownEntries (S ++ N))
    with (sortIndexed (List.filter isIdx (S ++ N)) ++ List.filter notIdx (S ++ N)).
  rewrite !filter_app_list.
  rewrite (filter_all isIdx S HS).
  rewrite (filter_none isIdx N).
  2:{ eapply Forall_impl; [exact HN|]. intros x Hx. unfold notIdx, isIdx in *.
      by apply negb_true_iff. }
  rewrite (filter_none notIdx S).
  2:{ eapply Forall_impl; [exact HS|]. intros x Hx. unfold notIdx, isIdx in *.
      by rewrite Hx. }
  rewrite (filter_all notIdx N HN), app_nil_r. simpl. f_equal.
  apply sortIndexed_of_sorted, sortIndexed_sorted.
Qed.

Section Reload.
Context {num : Type}.
Variable zero : num.

Lemma cycle_store (w : @World num) :
  storeInv (store w) -> writeFault (disk w) = None ->
  vectors (store (cycle zero w)) = ownEntries (vectors (store w))
  /\ metadata (store (cycle zero w)) = ownEntries (metadata (store w))
  /\ writeFault (disk (cycle zero w)) = None.
Proof.
  intros Hinv Hf. pose proof (storeInv_metadata_wf _ Hinv) as Hwm.
  destruct Hinv as [Hwv Hk].
  unfold cycle. simpl. rewrite (save_ok w Hf). simpl.
  unfold load. unfold_monad. simpl.
  unfold jsonMembers, Object_fromEntries.
  rewrite (JsMapFacts.ofEntries_wf (vectors (store w)) Hwv).
  rewrite (JsMapFacts.ofEntries_wf (metadata (store w)) Hwm).
  fold (loadedMap (ownEntries (vectors (store w)))).
  fold (loadedMap (ownEntries (metadata (store w)))).
  destruct (loadedMap_wf _ (PropertyOrderFacts.ownEntries_wf _ Hwv)) as [-> _].
  destruct (loadedMap_wf _ (PropertyOrderFacts.ownEntries_wf _ Hwm)) as [-> _].
  by rewrite !ownEntries_idempotent.
Qed.

(** X13.  In a state the store has reached, with a writable disk,
    [save()] followed by [load()] leaves the records in the property order
    of their ids (ids that are array indices first, ascending, then the
    others as they were); doing it again changes neither the records nor
    their order. *)
Theorem reload_stable (cs : list (@Command num)) (d k : option nat) :
  let w := run zero cs (freshWorld d k) in
  writeFault (disk w) = None ->
  vectors (store (cycle zero w)) = ownEntries (vectors (store w))
  /\ metadata (store (cycle zero w)) = ownEntries (metadata (store w))
  /\ vectors (store (cycle zero (cycle zero w))) = vectors (store (cycle zero w))
  /\ metadata (store (cycle zero (cycle zero w))) = metadata (store (cycle zero w)).
Proof.
  intros w Hf. pose proof (reachable_inv zero cs d k) as Hinv. fold w in Hinv.
  destruct (cycle_store w (proj1 Hinv) Hf) as (Hv & Hm & Hf1).
  split; [done|]. split; [done|].
  assert (Hinv1 : storeInv (store (cycle zero w))).
  { unfold cycle. apply (exec_inv zero Load), (exec_inv zero Save), Hinv. }
  destruct (cycle_store (cycle zero w) Hinv1 Hf1) as (Hv2 & Hm2 & _).
  rewrite Hv2, Hm2, Hv, Hm. by rewrite !ownEntries_idempotent.
Qed.

End Reload.
End ReloadLaws.

(** Witness of [reload_stable]: ids "b", "10", "2" come back as "2", "10",
    "b". *)
Lemma reload_stable_witness :
  let w := run 0%Z [AddVector (Some "b") (Some [1%Z]) ∅;
                    AddVector (Some "10") (Some [2%Z]) ∅;
                    AddVector (Some "2") (Some [3%Z]) ∅]
               (freshWorld (Some 1) None) in
  JsMap.keys (vectors (store (cycle 0%Z w))) = ["2"; "10"; "b"].
Proof.
  intros w.
  destruct (ReloadLaws.reload_stable 0%Z
              [AddVector (Some "b") (Some [1%Z]) ∅;
               AddVector (Some "10") (Some [2%Z]) ∅;
               AddVector (Some "2") (Some [3%Z]) ∅]
              (Some 1) None eq_refl) as [H _].
  fold w in H. rewrite H. reflexivity.
Defined.

(** ** The embedding service *)

Module EmbeddingLaws.
Import Similarity EmbeddingService.
Local Open Scope R_scope.

Lemma length_hashLoop dimension codes : forall i embedding,
  length (hashLoop dimension i codes embedding) = length embedding.
Proof.
  induction codes as [|c codes IH]; intros i embedding; cbn [hashLoop]; [done|].
  rewrite IH. apply length_alter.
Qed.

(** The loop changes the components at the hashed positions only. *)
Lemma hashLoop_untouched dimension codes j : forall i embedding,
  (forall n c, codes !! n = Some c -> (c * (i + n + 1)) mod dimension <> j) ->
  hashLoop dimension i codes embedding !! j = embedding !! j.
Proof.
  induction codes as [|c codes IH]; intros i embedding Hj; cbn [hashLoop]; [done|].
  rewrite IH.
  - apply list_lookup_alter_ne. specialize (Hj 0%nat c eq_refl).
    by rewrite Nat.add_0_r in Hj.
  - intros n c' Hn. specialize (Hj (S n) c' Hn).
    by replace (S i + n + 1)%nat with (i + S n + 1)%nat by lia.
Qed.

Lemma sumSquares_repeat_zero n : sumSquares (repeat 0 n) = 0.
Proof.
  unfold sumSquares.
  assert (G : forall a, fold_left (fun m x => m + x * x) (repeat 0 n) a = a).
  { induction n as [|n IH]; intros a; simpl; [done|]. rewrite IH. ring. }
  apply G.
Qed.

Lemma length_substring_0 n s :
  String.length (substring 0 n s) = Nat.min n (String.length s).
Proof.
  revert s. induction n as [|n IH]; intros [|c s]; simpl; try done.
  by rewrite IH.
Qed.

Lemma length_embeddingOfCodes dimension codes :
  length (embeddingOfCodes dimension codes) = dimension.
Proof.
  unfold embeddingOfCodes.
  destruct (Rlt_dec 0 _); rewrite ?length_map, length_hashLoop, repeat_length; done.
Qed.

Lemma length_generateFallbackEmbedding dimension text :
  length (generateFallbackEmbedding dimension text) = dimension.
Proof. apply length_embeddingOfCodes. Qed.

(** X14.  [generateFallbackEmbedding] returns a vector of exactly
    [dimension] components, which a store of that dimension keeps as it is.
    A component is 0 unless some character of the text hashes to its
    position, that is, unless [(charCode * (i + 1)) % dimension] is that
    position for the code unit [charCode] at some index [i]; so the empty
    text gives the zero vector.  This holds whatever the code units of the
    text are. *)
Theorem fallback_embedding (dimension : nat) (codes : list nat) (text : string) :
  let e := embeddingOfCodes dimension codes in
  length e = dimension
  /\ adjust 0 dimension e = e
  /\ (forall j,
        (j < dimension)%nat ->
        (forall i charCode, codes !! i = Some charCode ->
           ((charCode * (i + 1)) mod dimension)%nat <> j) ->
        e !! j = Some 0)
  /\ embeddingOfCodes dimension [] = repeat 0 dimension
  /\ generateFallbackEmbedding dimension text
     = embeddingOfCodes dimension (charCodes text)
  /\ generateFallbackEmbedding dimension EmptyString = repeat 0 dimension.
Proof.
  intros e.
  assert (Hlen : length e = dimension) by apply length_embeddingOfCodes.
  assert (Hempty : embeddingOfCodes dimension [] = repeat 0 dimension).
  { unfold embeddingOfCodes. simpl.
    rewrite sumSquares_repeat_zero, sqrt_0.
    destruct (Rlt_dec 0 0); [lra|done]. }
  split; [done|]. split; [by apply adjust_exact|]. split; [|done].
  intros j Hj Hfree.
  assert (Hraw : hashLoop dimension 0 codes (repeat 0 dimension) !! j = Some 0).
  { rewrite hashLoop_untouched by (intros n c Hn; by apply Hfree).
    apply repeat_lookup. exact Hj. }
  unfold e, embeddingOfCodes.
  destruct (Rlt_dec 0 _) as [Hpos|_]; [|exact Hraw].
  pose proof (list_lookup_fmap
                (fun x : R => x / sqrt (sumSquares (hashLoop dimension 0 codes
                                                     (repeat 0 dimension))))
                (hashLoop dimension 0 codes (repeat 0 dimension)) j) as H.
  unfold Vec in *. rewrite Hraw in H. simpl in H.
  replace (0 / _) with 0 in H by (unfold Rdiv; ring). exact H.
Qed.

Section Service.
Variable api : string -> option Vec.
Variable apiBatch : list string -> option (list Vec).
Variable apiKey : option string.
Variable dimension : nat.

Local Abbreviation generateEmbedding := (generateEmbedding api apiKey dimension).
Local Abbreviation generateEmbeddings := (generateEmbeddings apiBatch apiKey dimension).

(** X15.  [generateEmbedding] rejects the empty text with a validation
    error and returns a vector for every other text, also when the API is not
    configured or its request fails: it then returns the fallback embedding,
    of [dimension] components, of the text cut to its first 8000 characters.
    Two texts with the same first 8000 characters get the same embedding. *)
Theorem generateEmbedding_falls_back (text : string) :
  (text = EmptyString ->
     exists e, isValidationError e = true /\ generateEmbedding text = Throw e)
  /\ (text <> EmptyString ->
        (exists v, generateEmbedding text = Return v)
        /\ ((isConfigured apiKey = false \/ api (truncateText text) = None) ->
              generateEmbedding text
              = Return (generateFallbackEmbedding dimension (truncateText text))
              /\ length (generateFallbackEmbedding dimension (truncateText text))
                 = dimension)
        /\ (forall v, isConfigured apiKey = true -> api (truncateText text) = Some v ->
              generateEmbedding text = Return v)
        /\ (forall text', text' <> EmptyString ->
              substring 0 8000 text = substring 0 8000 text' ->
              (8000 < String.length text)%nat -> (8000 < String.length text')%nat ->
              generateEmbedding text = generateEmbedding text'))
  /\ (String.length (truncateText text) <= 8000)%nat.
Proof.
  split; [|split].
  - intros ->. eexists. split; [|reflexivity]. done.
  - intros Hne. unfold EmbeddingService.generateEmbedding.
    destruct (String.eqb_spec text EmptyString) as [|_]; [done|].
    split; [|split; [|split]].
    + destruct (negb (isConfigured apiKey)); [by eexists|].
      destruct (api (truncateText text)); by eexists.
    + intros H. split; [|apply length_generateFallbackEmbedding].
      destruct (isConfigured apiKey); simpl.
      * destruct H as [H|H]; [done|]. by rewrite H.
      * done.
    + intros v Hc Ha. by rewrite Hc, Ha.
    + intros text' Hne' Hsub Hl Hl'.
      destruct (String.eqb_spec text' EmptyString) as [|_]; [done|].
      assert (Ht : truncateText text = truncateText text').
      { unfold truncateText.
        rewrite (proj2 (Nat.ltb_lt 8000 (String.length text))) by lia.
        rewrite (proj2 (Nat.ltb_lt 8000 (String.length text'))) by lia. done. }
      by rewrite Ht.
  - unfold truncateText. destruct (Nat.ltb_spec 8000 (String.length text)) as [H|H].
    + rewrite length_substring_0. lia.
    + done.
Qed.

(** X16.  [generateEmbeddings] rejects the empty list and returns for
    every other list; when the API is not configured or its request fails,
    it returns one fallback embedding of [dimension] components per text, in
    the order of the texts. *)
Theorem generateEmbeddings_shape (texts : list string) :
  (texts = [] ->
     exists e, isValidationError e = true /\ generateEmbeddings texts = Throw e)
  /\ (texts <> [] ->
        (exists vs, generateEmbeddings texts = Return vs)
        /\ ((isConfigured apiKey = false \/ apiBatch (map truncateText texts) = None) ->
              exists vs, generateEmbeddings texts = Return vs
                /\ length vs = length texts
                /\ Forall (fun v => length v = dimension) vs
                /\ forall n t, texts !! n = Some t ->
                     vs !! n = Some (generateFallbackEmbedding dimension t))).
Proof.
  split.
  - intros ->. eexists. split; [|reflexivity]. done.
  - intros Hne.
    assert (Hfb : length (map (generateFallbackEmbedding dimension) texts) = length texts
                  /\ Forall (fun v => length v = dimension)
                       (map (generateFallbackEmbedding dimension) texts)
                  /\ forall n t', texts !! n = Some t' ->
                       map (generateFallbackEmbedding dimension) texts !! n
                       = Some (generateFallbackEmbedding dimension t')).
    { split; [by rewrite length_map|]. split.
      - apply Forall_forall. intros v Hv. apply list_elem_of_fmap in Hv as (t' & -> & _).
        apply length_generateFallbackEmbedding.
      - intros n t' Hn. change (map ?f ?l) with (f <$> l).
        by rewrite list_lookup_fmap, Hn. }
    assert (Hshape : EmbeddingService.generateEmbeddings apiBatch apiKey dimension texts
                     = if negb (isConfigured apiKey)
                       then Return (map (generateFallbackEmbedding dimension) texts)
                       else match apiBatch (map truncateText texts) with
                            | Some embeddings => Return embeddings
                            | None => Return (map (generateFallbackEmbedding dimension) texts)
                            end).
    { by destruct texts. }
    rewrite Hshape.
    split.
    + destruct (negb (isConfigured apiKey)); [by eexists|].
      destruct (apiBatch (map truncateText texts)); by eexists.
    + intros H. exists (map (generateFallbackEmbedding dimension) texts).
      split; [|exact Hfb].
      destruct (isConfigured apiKey); simpl; [|done].
      destruct H as [H|H]; [done|]. by rewrite H.
Qed.

End Service.
End EmbeddingLaws.

(** Witness of [generateEmbedding_falls_back]: a text, no API key. *)
Lemma generateEmbedding_falls_back_witness :
  exists v,
    EmbeddingService.generateEmbedding (fun _ => None) None 4 "milk" = Return v.
Proof.
  destruct (EmbeddingLaws.generateEmbedding_falls_back (fun _ => None) None 4 "milk")
    as (_ & H & _).
  destruct (H ltac:(discriminate)) as [Hv _]. exact Hv.
Defined.

(** Witness of [generateEmbeddings_shape]: two texts, no API key. *)
Lemma generateEmbeddings_shape_witness :
  exists vs,
    EmbeddingService.generateEmbeddings (fun _ => None) None 4 ["milk"; "eggs"] = Return vs
    /\ length vs = 2.
Proof.
  destruct (EmbeddingLaws.generateEmbeddings_shape (fun _ => None) None 4 ["milk"; "eggs"])
    as (_ & H).
  destruct (H ltac:(discriminate)) as [_ Hfb].
  destruct (Hfb ltac:(by left)) as (vs & Hr & Hl & _).
  exists vs. split; [exact Hr|exact Hl].
Defined.

(** ** The search controllers *)

Module ControllerLaws.
Import Similarity Search Controllers.
Local Open Scope R_scope.

Lemma find_elem {A} (p : A -> bool) (l : list A) (x : A) :
  List.find p l = Some x -> x ∈ l /\ p x = true.
Proof.
  intros H. apply find_some in H as [Hin Hp]. split; [by apply list_elem_of_In|done].
Qed.

Lemma find_none_elem {A} (p : A -> bool) (l : list A) :
  List.find p l = None <-> forall x, x ∈ l -> p x = false.
Proof.
  split.
  - intros H x Hx. apply (find_none p l H). by apply list_elem_of_In.
  - induction l as [|y l IH]; simpl; [done|]. intros H.
    rewrite (H y) by left. apply IH. intros x Hx. apply H. by right.
Qed.

(** Documents with distinct ids, all among [ids], are no more than
    [ids]. *)
Lemma selected_length {A} (key : A -> string) (p : A -> bool) (db : list A)
    (ids : list string) :
  NoDup (map key db) ->
  (forall n, n ∈ db -> p n = true -> key n ∈ ids) ->
  (length (List.filter p db) <= length ids)%nat.
Proof.
  intros Hnd Hp.
  rewrite <- (length_map key (List.filter p db)).
  apply submseteq_length, NoDup_submseteq.
  - eapply sublist_NoDup; [exact Hnd|]. apply (fmap_sublist key), List_filter_sublist_of.
  - intros i Hi. apply list_elem_of_fmap in Hi as (n & -> & Hn).
    apply elem_of_List_filter in Hn as [Hn Hpn]. by apply Hp.
Qed.

(** What [search] returns is a stored record with its score. *)
Lemma search_elem st q k filter results r :
  JsMap.wf (vectors st) ->
  search st (Some q) k filter = Return results -> r ∈ results ->
  exists v, JsMap.get (Search.id r) (vectors st) = Some v
            /\ score r = dotProduct (normalizeVector q) (normalizeVector v).
Proof.
  intros Hwf Hs Hr. destruct q as [|q0 qs]; [discriminate|]. injection Hs as <-.
  apply (subseteq_take _ _) in Hr. rewrite sortStable_perm in Hr.
  destruct (SearchFacts.scan_elem _ _ _ _ _ Hr) as (v & Hin & _ & _ & Hsc & _).
  exists v. split; [by apply JsMapFacts.In_get|done].
Qed.

Lemma search_length_le st q k filter results :
  search st q k filter = Return results ->
  (length results <= effectiveK st k)%nat.
Proof.
  destruct q as [[|q0 qs]|]; try discriminate. intros [= <-].
  unfold slice0. rewrite length_take. lia.
Qed.

Lemma similarity_sorted l :
  StronglySorted Controllers.descending
    (sortStable (fun a b => positive (bySimilarityDesc a b)) l).
Proof.
  apply sortStable_sorted; unfold Controllers.descending, bySimilarityDesc.
  - intros x y H. apply SearchFacts.positive_false in H. lra.
  - intros x y H. apply SearchFacts.positive_true in H. lra.
  - intros x y z. lra.
Qed.

Section Laws.
Variable embed : string -> Outcome Vec.
Variable st : @VectorStore R.
Variable db : list NoteDoc.
Variable castObjectId : string -> option string.

(** X17.  [semanticSearch] answers 400 to an empty query.  When it
    answers with notes, they are in descending order of similarity score;
    each is a note of the collection that is not archived and whose id is in
    the vector store, and its score is the dot product of the normalised
    query embedding with the normalised stored vector.  With distinct note
    ids there are at most [limit] of them (the default of the store when
    [limit] is 0). *)
Theorem semanticSearch_ranked (query : string) (limit : nat) :
  JsMap.wf (vectors st) ->
  semanticSearch embed st db EmptyString limit = BadRequest
  /\ forall data,
       semanticSearch embed st db query limit = Matches data ->
       exists q,
         embed query = Return q
         /\ StronglySorted Controllers.descending data
         /\ (forall x, x ∈ data ->
               note x ∈ db /\ isArchived (note x) = false
               /\ exists v,
                    JsMap.get (_id (note x)) (vectors st) = Some v
                    /\ similarityScore x
                       = dotProduct (normalizeVector q) (normalizeVector v))
         /\ (NoDup (map _id db) -> (length data <= effectiveK st (Some limit))%nat).
Proof.
  intros Hwf. split; [reflexivity|].
  intros data. unfold semanticSearch.
  destruct (String.eqb query EmptyString); [discriminate|].
  destruct (embed query) as [q|e]; [|discriminate].
  destruct (search st (Some q) (Some limit) noFilter) as [results|e] eqn:Es; [|discriminate].
  destruct (length results =? 0)%nat; [discriminate|].
  intros [= <-]. exists q. split; [done|]. split; [apply similarity_sorted|]. split.
  - intros x Hx. rewrite sortStable_perm in Hx.
    apply list_elem_of_fmap in Hx as (n & -> & Hn). simpl.
    apply elem_of_List_filter in Hn as [Hn Hp].
    apply andb_true_iff in Hp as [Hid Harch].
    split; [done|]. split; [by apply negb_true_iff in Harch|].
    apply existsb_eqb_elem in Hid.
    unfold scoreOf.
    destruct (List.find _ results) as [r|] eqn:Ef.
    + apply find_elem in Ef as [Hr He]. apply String.eqb_eq in He. rewrite <- He.
      by apply (search_elem st q (Some limit) noFilter results).
    + exfalso. apply list_elem_of_fmap in Hid as (r & Hr & Hin).
      rewrite find_none_elem in Ef. specialize (Ef r Hin). simpl in Ef.
      rewrite Hr, String.eqb_refl in Ef. done.
  - intros Hnd. rewrite length_sortStable, length_map.
    etrans; [|apply (search_length_le _ _ _ _ _ Es)].
    rewrite <- (length_map Search.id results).
    apply (selected_length _id); [done|].
    intros n _ Hp. apply andb_true_iff in Hp as [Hid _]. by apply existsb_eqb_elem.
Qed.



End Laws.
End ControllerLaws.

(** Witness of [semanticSearch_ranked]: one note, stored in [unitStore]. *)
Lemma semanticSearch_ranked_witness :
  exists data,
    Controllers.semanticSearch (fun _ => Return [1%R]) unitStore
      [Controllers.mkNoteDoc "n1" "list" "milk and eggs" "General" false] "milk" 10
    = Controllers.Matches data
    /\ StronglySorted Controllers.descending data.
Proof.
  eexists. split; [reflexivity|].
  assert (Hwf : JsMap.wf (vectors unitStore)) by apply NoDup_singleton.
  destruct (ControllerLaws.semanticSearch_ranked (fun _ => Return [1%R]) unitStore
              [Controllers.mkNoteDoc "n1" "list" "milk and eggs" "General" false]
              "milk" 10 Hwf) as [_ H].
  destruct (H _ eq_refl) as (q & _ & Hs & _). exact Hs.
Defined.

(** ** [hybridSearch] from the query to the ranked notes *)

Module HybridLaws.
Import JsNumber Hybrid HybridFacts.

Section Laws.
Context {num : Type} {arith : Arith num}.
Variable st : @VectorStore R.
Variable embed : string -> Outcome Similarity.Vec.
Variable searchNotes : string -> option Z -> Outcome (list string).
Variable findNotes : list string -> Outcome (list string).

(** X19.  [hybridSearch] answers 400 to an empty query.  An error of the
    embedding service, of the keyword search or of the note lookup goes to
    the error handler, and so does the validation error of the store when
    the embedding of the query is empty; when none fails it answers with
    notes.  The notes it answers with are the entries of the hybrid ranking
    of the ids the store returns and the ids the keyword search returns,
    cut by [slice(0, limit)], without the entries whose note the lookup did
    not return, in the order of the ranking.  So there are at most [limit]
    of them for a [limit] that is not negative and none when [limit] is
    NaN; with a keyword list free of repetitions no id occurs twice, every
    id is in the vector store or in the keyword list, and the entries are
    sorted by the comparator on their totals wherever it orders the totals
    consistently, as it does on rationals ([exact_consistent]) and on
    doubles other than NaN ([binary64_consistent]). *)
Theorem hybridSearch_end_to_end (query : string) (limit : option Z) (weight : num) :
  JsMap.wf (vectors st) ->
  let answer := hybridSearch st embed searchNotes findNotes in
  answer EmptyString limit weight = BadRequest
  /\ (query <> EmptyString ->
      (forall e, embed query = Throw e -> answer query limit weight = Failed e)
      /\ (embed query = Return [] ->
          exists e, isValidationError e = true /\ answer query limit weight = Failed e)
      /\ (forall q keywordIds,
            embed query = Return q -> q <> [] ->
            searchNotes query (Z.mul 2 <$> limit) = Return keywordIds ->
            (forall ids, exists found, findNotes ids = Return found) ->
            exists rs, answer query limit weight = Ranked rs)
      /\ forall rs,
           answer query limit weight = Ranked rs ->
           exists q semanticResults keywordIds found,
             let semanticIds := map Search.id semanticResults in
             let scored := scoredResults weight limit semanticIds keywordIds in
             embed query = Return q
             /\ Search.searchInt st (Some q) (Z.mul 2 <$> limit) Search.noFilter
                = Return semanticResults
             /\ searchNotes query (Z.mul 2 <$> limit) = Return keywordIds
             /\ findNotes (ranking scored) = Return found
             /\ rs `sublist_of` scored
             /\ (forall r, r ∈ rs <-> r ∈ scored /\ id (item r) ∈ found)
             /\ (forall n, limit = Some n -> (0 <= n)%Z -> length rs <= Z.to_nat n)
             /\ (limit = None -> rs = [])
             /\ (NoDup keywordIds ->
                 NoDup (ranking rs)
                 /\ (forall r, r ∈ rs ->
                       (id (item r) ∈ JsMap.keys (vectors st)
                        \/ id (item r) ∈ keywordIds)
                       /\ totalScore r
                          = add (semanticScore (item r)) (keywordScore (item r)))
                 /\ (consistentOn
                       (map totalScore (scoredAll weight semanticIds keywordIds)) ->
                     StronglySorted
                       (fun a b =>
                          isPositive (sub (totalScore b) (totalScore a)) = false)
                       rs))).
Proof.
  intros Hwf answer. unfold answer, hybridSearch.
  split; [reflexivity|]. intros Hq.
  destruct (String.eqb_spec query EmptyString) as [|_]; [done|].
  split; [by intros e ->|].
  split; [intros ->; eexists; split; [|reflexivity]; reflexivity|]. split.
  - intros q keywordIds -> Hne -> Hfind.
    destruct (Search.searchInt st (Some q) (Z.mul 2 <$> limit) Search.noFilter)
      as [results|e] eqn:Es; [|by destruct q].
    destruct (Hfind (ranking (scoredResults weight limit
                                (map Search.id results) keywordIds)))
      as [found ->].
    by eexists.
  - intros rs.
    destruct (embed query) as [q|e]; [|discriminate].
    destruct (Search.searchInt st (Some q) (Z.mul 2 <$> limit) Search.noFilter)
      as [results|e] eqn:Es; [|discriminate].
    destruct (searchNotes query (Z.mul 2 <$> limit)) as [keywordIds|e];
      [|discriminate].
    set (sem := map Search.id results).
    set (scored := scoredResults weight limit sem keywordIds).
    destruct (findNotes (ranking scored)) as [found|e] eqn:Ef; [|discriminate].
    intros [= <-]. exists q, results, keywordIds, found. cbv zeta.
    fold sem. fold scored. rewrite Ef.
    assert (Hsub : notesWithScores found scored `sublist_of` scored)
      by apply List_filter_sublist_of.
    assert (Hcut : scored `sublist_of`
                     sortStable (fun a b => isPositive (byTotalDesc a b))
                       (scoredAll weight sem keywordIds))
      by apply sliceTo_sublist.
    assert (Hin : forall r, r ∈ scored -> r ∈ scoredAll weight sem keywordIds).
    { intros r Hr. apply (sublist_subseteq _ _ Hcut) in Hr.
      by rewrite sortStable_perm in Hr. }
    pose proof (SearchLaws.searchInt_ids_NoDup _ _ _ _ _ Hwf Es) as Hsem.
    fold sem in Hsem.
    split; [done|]. split; [done|]. split; [done|]. split; [done|].
    split; [exact Hsub|]. split; [|split; [|split]].
    + intros r. unfold notesWithScores.
      by rewrite elem_of_List_filter, existsb_eqb_elem.
    + intros n -> Hn. etrans; [apply sublist_length, Hsub|].
      by apply sliceTo_length.
    + intros ->. done.
    + intros Hkw. split; [|split].
      * eapply sublist_NoDup; [|apply (fmap_sublist _ _ _ Hsub)].
        eapply sublist_NoDup; [|apply (fmap_sublist _ _ _ Hcut)].
        rewrite sortStable_perm.
        change (NoDup (ranking (scoredAll weight sem keywordIds))).
        rewrite ranking_scoredAll by done.
        rewrite <- (combinedScores_keys weight) by done. apply combinedScores_wf.
      * intros r Hr. apply (sublist_subseteq _ _ Hsub), Hin in Hr.
        destruct (scoredAll_entry weight sem keywordIds r Hsem Hkw Hr)
          as (Hmem & _ & _ & Htot).
        split; [|done]. destruct Hmem as [Hi|Hi]; [left|by right].
        unfold sem in Hi. apply list_elem_of_fmap in Hi as (x & -> & Hx).
        exact (SearchLaws.searchInt_ids _ _ _ _ _ _ Es Hx).
      * intros Hc. apply (StronglySorted_sublist _ _ _ Hsub).
        apply (StronglySorted_sublist _ _ _ Hcut).
        by apply ranking_sorted.
Qed.

End Laws.
End HybridLaws.

(** Witness of [hybridSearch_end_to_end]: [unitStore], two keyword hits,
    both notes found, over the rationals. *)
Lemma hybridSearch_end_to_end_witness :
  exists rs,
    Hybrid.hybridSearch (arith:=JsNumber.exact) unitStore (fun _ => Return [1%R])
      (fun _ _ => Return ["n1"; "n2"]) (fun ids => Return ids)
      "milk" (Some 3%Z) (7 # 10)%Q
    = Hybrid.Ranked rs.
Proof.
  assert (Hwf : JsMap.wf (vectors unitStore)) by apply NoDup_singleton.
  destruct (HybridLaws.hybridSearch_end_to_end (arith:=JsNumber.exact) unitStore
              (fun _ => Return [1%R]) (fun _ _ => Return ["n1"; "n2"])
              (fun ids => Return ids) "milk" (Some 3%Z) (7 # 10)%Q Hwf)
    as (_ & H).
  destruct (H ltac:(discriminate)) as (_ & _ & Hlive & _).
  apply (Hlive [1%R] ["n1"; "n2"] eq_refl ltac:(discriminate) eq_refl).
  intros ids. by exists ids.
Defined.

(** ** The notes controller *)

Module NotesLaws.
Import NotesController.

Section Laws.
Context {num : Type}.
Variable zero : num.
Variable embed : string -> Outcome (list num).
Variable md5 : string -> string.
Variable upsertFails updateFails deleteEmbeddingFails deleteNoteFails : string -> bool.

Lemma generateNoteEmbedding_cases (noteId text : string) (a : @App num) :
  generateNoteEmbedding zero embed md5 upsertFails updateFails noteId text a
  = match embed text with
    | Throw err => (Throw err, a)
    | Return e =>
        if upsertFails noteId then (Throw (PlainError "embedding upsert failed"), a)
        else
          let docs :=
            JsMap.set noteId
              (Reindex.mkEmbeddingDoc noteId e (length e) (md5 text) "all-MiniLM-L6-v2")
              (embeddings a) in
          match addVector zero (Some noteId) (Some e) ∅ (world a) with
          | (Throw err, w') => (Throw err, mkApp w' (notes a) docs)
          | (Return _, w') =>
              if updateFails noteId
              then (Throw (PlainError "note update failed"), mkApp w' (notes a) docs)
              else (Return tt,
                    mkApp w'
                      (map (fun n => if String.eqb (_id n) noteId
                                     then mkNote (_id n) (user n) (content n) true
                                            (Some noteId)
                                     else n)
                           (notes a))
                      docs)
          end
    end.
Proof.
  unfold generateNoteEmbedding, liftOutcome, upsertEmbedding, liftWorld, markEmbedded,
    tryCatch, bind, throw, modify, ret.
  destruct (embed text) as [e|err]; cbn beta iota; [|done].
  destruct (upsertFails noteId); cbn beta iota; [done|].
  generalize (addVector zero (Some noteId) (Some e) ∅). intros av.
  cbn [world notes embeddings].
  destruct (av (world a)) as [[[]|err] w']; cbn beta iota; [|done].
  by destruct (updateFails noteId).
Qed.

Lemma deleteNote_cases (i u : string) (a : @App num) :
  deleteNote deleteEmbeddingFails deleteNoteFails i u a
  = match findOne i u (notes a) with
    | None => (Return DeleteNotFound, a)
    | Some n =>
        let '(o, w') := removeVector (_id n) (world a) in
        let docs :=
          match o with
          | Return _ =>
              if deleteEmbeddingFails (_id n) then embeddings a
              else JsMap.remove (_id n) (embeddings a)
          | Throw _ => embeddings a
          end in
        if deleteNoteFails (_id n)
        then (Return (DeleteFailed (PlainError "note delete failed")),
              mkApp w' (notes a) docs)
        else (Return Deleted, mkApp w' (withoutFirst (_id n) (notes a)) docs)
    end.
Proof.
  unfold deleteNote, liftWorld, deleteByNoteId, deleteOne,
    tryCatch, bind, throw, gets, modify, ret.
  destruct (findOne i u (notes a)) as [n|]; cbn beta iota; [|done].
  destruct (removeVector (_id n) (world a)) as [[b|e] w']; cbn beta iota.
  - destruct (deleteEmbeddingFails (_id n)); by destruct (deleteNoteFails (_id n)).
  - by destruct (deleteNoteFails (_id n)).
Qed.

(** X20.  [generateNoteEmbedding] fulfils exactly when the embedding is
    generated, the id is not empty, the database accepts both writes and
    the snapshot can be written.  Then the Embedding collection holds the
    document of the note with the embedding as generated, the vector store
    holds it adjusted to the dimension of the store, and every note of
    that id is flagged with [hasEmbedding] and its [embeddingId].  When it
    rejects, no note is changed; but nothing is rolled back: once the
    upsert went through the embedding document stays, whatever fails
    after it. *)
Theorem generateNoteEmbedding_outcome (noteId text : string) (a : @App num) :
  let r := generateNoteEmbedding zero embed md5 upsertFails updateFails noteId text a in
  let doc e := Reindex.mkEmbeddingDoc noteId e (length e) (md5 text) "all-MiniLM-L6-v2" in
  (fst r = Return tt
   <-> (exists e, embed text = Return e) /\ upsertFails noteId = false
       /\ noteId <> EmptyString /\ writeFault (disk (world a)) = None
       /\ updateFails noteId = false)
  /\ (fst r = Return tt ->
      exists e,
        embed text = Return e
        /\ JsMap.get noteId (embeddings (snd r)) = Some (doc e)
        /\ getVector (store (world (snd r))) noteId
           = Some (adjust zero (dimension (store (world a))) e)
        /\ length (notes (snd r)) = length (notes a)
        /\ forall k n, notes a !! k = Some n ->
             exists n', notes (snd r) !! k = Some n'
               /\ _id n' = _id n /\ user n' = user n /\ content n' = content n
               /\ (_id n = noteId -> hasEmbedding n' = true /\ embeddingId n' = Some noteId)
               /\ (_id n <> noteId -> n' = n))
  /\ (forall err, fst r = Throw err -> notes (snd r) = notes a)
  /\ (forall e, embed text = Return e -> upsertFails noteId = false ->
        JsMap.get noteId (embeddings (snd r)) = Some (doc e)).
Proof.
  intros r doc. subst r. rewrite generateNoteEmbedding_cases.
  destruct (embed text) as [e|err0] eqn:Ee.
  2:{ simpl. split; [split; [done|by intros [[e He] _]]|]. split; [done|]. split; done. }
  destruct (upsertFails noteId) eqn:Eu.
  { simpl. split; [split; [done|by intros (_ & ? & _)]|]. split; [done|]. split; done. }
  cbv zeta.
  destruct (String.eqb_spec noteId EmptyString) as [Hempty|Hne].
  { rewrite (addVector_reject zero); [|right; left; by rewrite Hempty]. simpl.
    split; [split; [done|by intros (_ & _ & ? & _)]|].
    split; [done|]. split; [done|].
    intros e' [= <-] _. apply JsMapFacts.get_set_eq. }
  destruct (addVector_accept zero noteId e ∅ (world a) Hne)
    as (st' & Hv & _ & _ & _ & ->).
  destruct (save_cases {| store := st'; disk := disk (world a); clock := clock (world a) |})
    as [[Hf ->]|(code & Hf & ->)]; simpl in Hf.
  2:{ simpl. split; [split; [done|intros (_ & _ & _ & ? & _); congruence]|].
      split; [done|]. split; [done|].
      intros e' [= <-] _. apply JsMapFacts.get_set_eq. }
  destruct (updateFails noteId) eqn:Ef.
  { simpl. split; [split; [done|by intros (_ & _ & _ & _ & ?)]|].
    split; [done|]. split; [done|].
    intros e' [= <-] _. apply JsMapFacts.get_set_eq. }
  simpl.
  split; [split; [by eauto 10|done]|].
  split; [|split; [done|]].
  - intros _. exists e. split; [done|]. split; [apply JsMapFacts.get_set_eq|].
    split; [unfold getVector; rewrite Hv; apply JsMapFacts.get_set_eq|].
    split; [by rewrite length_map|].
    intros k n Hk. change (map ?f ?l) with (f <$> l). rewrite list_lookup_fmap, Hk. simpl.
    eexists. split; [reflexivity|].
    destruct (String.eqb_spec (_id n) noteId) as [Hi|Hi]; simpl; repeat split; try done.
  - intros e' [= <-] _. apply JsMapFacts.get_set_eq.
Qed.

(** X21.  [deleteNote] answers 404, changing nothing, when the user has
    no note of the given id.  Otherwise the id is gone from the vector store
    whether or not the snapshot could be written, and the note is deleted
    unless the database rejects that very call.  The embedding document is
    deleted only when the removal from the store went through: if the
    vector was stored and the snapshot cannot be written, the document
    stays in the collection although the note is deleted. *)
Theorem deleteNote_outcome (i u : string) (a : @App num) :
  JsMap.wf (vectors (store (world a))) ->
  let r := deleteNote deleteEmbeddingFails deleteNoteFails i u a in
  (findOne i u (notes a) = None -> r = (Return DeleteNotFound, a))
  /\ (forall n, findOne i u (notes a) = Some n ->
        getVector (store (world (snd r))) i = None
        /\ (deleteNoteFails i = false ->
            fst r = Return Deleted /\ notes (snd r) = withoutFirst i (notes a))
        /\ (deleteNoteFails i = true ->
            (exists e, fst r = Return (DeleteFailed e)) /\ notes (snd r) = notes a)
        /\ (JsMap.has i (vectors (store (world a))) = true ->
            writeFault (disk (world a)) <> None ->
            embeddings (snd r) = embeddings a)
        /\ (JsMap.has i (vectors (store (world a))) = false
            \/ writeFault (disk (world a)) = None ->
            deleteEmbeddingFails i = false ->
            embeddings (snd r) = JsMap.remove i (embeddings a))).
Proof.
  intros Hwf r. subst r. rewrite deleteNote_cases.
  destruct (findOne i u (notes a)) as [n|] eqn:Efind.
  2:{ split; [done|]. intros n [=]. }
  split; [done|]. intros n' [= <-].
  assert (Hid : _id n = i).
  { unfold findOne in Efind. apply ControllerLaws.find_elem in Efind as [_ Hp].
    apply andb_true_iff in Hp as [Hp _]. by apply String.eqb_eq. }
  rewrite Hid.
  assert (Hrm : exists w' o,
             removeVector i (world a) = (o, w')
             /\ JsMap.get i (vectors (store w')) = None
             /\ (JsMap.has i (vectors (store (world a))) = true ->
                 writeFault (disk (world a)) <> None -> exists e, o = Throw e)
             /\ (JsMap.has i (vectors (store (world a))) = false
                 \/ writeFault (disk (world a)) = None -> exists b, o = Return b)).
  { destruct (JsMap.has i (vectors (store (world a)))) eqn:Eh.
    - destruct (removeVector_present i (world a) Eh) as (st' & Hv & _ & _ & ->).
      destruct (save_cases {| store := st'; disk := disk (world a);
                              clock := clock (world a) |})
        as [[Hf ->]|(code & Hf & ->)]; simpl in Hf.
      + eexists _, _. split; [reflexivity|]. simpl.
        split; [rewrite Hv; by apply JsMapFacts.get_remove_eq|].
        split; [congruence|]. intros _. by eexists.
      + eexists _, _. split; [reflexivity|]. simpl.
        split; [rewrite Hv; by apply JsMapFacts.get_remove_eq|].
        split; [intros _ _; by eexists|]. intros [?|?]; congruence.
    - unfold removeVector, bind, gets, setStore, modify, ret. simpl. rewrite Eh.
      eexists _, _. split; [reflexivity|]. simpl.
      split.
      { rewrite JsMapFacts.remove_absent; [|by apply JsMapFacts.has_false_keys].
        apply JsMapFacts.get_None_keys. by apply JsMapFacts.has_false_keys. }
      split; [done|]. intros _. by eexists. }
  destruct Hrm as (w' & o & -> & Hget & Hthrow & Hreturn).
  unfold getVector.
  destruct o as [b|e].
  - destruct (deleteEmbeddingFails i) eqn:Ede; destruct (deleteNoteFails i) eqn:Edn;
      simpl;
      (split; [done|]); (split; [by intros|]); (split; [intros; by eauto|]);
      (split; [|by intros]);
      intros Hh Hf; destruct (Hthrow Hh Hf); done.
  - destruct (deleteNoteFails i) eqn:Edn;
      simpl;
      (split; [done|]); (split; [by intros|]); (split; [intros; by eauto|]);
      (split; [by intros|]);
      intros Hh _; destruct (Hreturn Hh); done.
Qed.

End Laws.
End NotesLaws.

(** Witness of [deleteNote_outcome]: the note "n1" of the store
    [Examples.w1] is deleted by its owner. *)
Lemma deleteNote_outcome_witness :
  let a := NotesController.mkApp Examples.w1
             [NotesController.mkNote "n1" "ann" "milk and eggs" true (Some "n1")] [] in
  let r := NotesController.deleteNote (fun _ => false) (fun _ => false) "n1" "ann" a in
  getVector (store (NotesController.world (snd r))) "n1" = None
  /\ fst r = Return NotesController.Deleted.
Proof.
  intros a r.
  assert (Hwf : JsMap.wf (vectors (store (NotesController.world a)))).
  { apply (bool_decide_unpack _). vm_compute. exact I. }
  destruct (NotesLaws.deleteNote_outcome (fun _ => false) (fun _ => false) "n1" "ann" a Hwf)
    as [_ H].
  destruct (H _ eq_refl) as (Hv & Hd & _).
  split; [exact Hv|]. exact (proj1 (Hd eq_refl)).
Defined.
